(** * wow-lua-error-loader: crash-file parsers and the variables view

    A shallow embedding of the TypeScript sources
    [extension/parsers/tsmCrashFile.ts], [extension/parsers/blizzardCrashFile.ts]
    and [extension/luaDebugSession.ts], and the properties of the
    specification checked against them.

    Conventions of the model.
    - A JavaScript string is a [string]: a sequence of code units
      below 256 (the Latin-1 range; code 160 is the no-break space).
      The line terminators that the regular-expression dot refuses are
      therefore line feed and carriage return.
    - A JavaScript number is an exact decimal [m * 10^e] or an infinity
      or NaN; binary rounding and overflow are not modelled, except in
      the comparator of the variables view, which compares the doubles
      that the names read as ([Num.toDouble]).
    - A JavaScript object is the list of its own properties.  The
      prototype is not modelled, and neither is the inherited accessor
      [__proto__]: in the code the assignment of a local or of a table
      member named [__proto__] changes the prototype of the object and
      adds no property of its own, here it adds a property like any
      other.  The properties below that depend on this leave that name
      out by a hypothesis.
    - [throw] is the [Err] case of [Result]; the constructors of
      [Error] are the [throw] sites of the sources.
    - The [LineInfo] objects live in a store (a list addressed by
      index): [parent] and [children] hold indices, so that pushing a
      child through a parent pointer is an update of the store. *)

From Stdlib Require Import ZArith String Ascii List Lia Bool Permutation Sorted.
From Stdlib Require Import DecimalString DecimalNat DecimalFacts DecimalPos DecimalN.
From stdpp Require Import base option list gmap strings.

Set Warnings "-register-all".
Local Open Scope nat_scope.

(** ** Results and errors *)

(** The [throw] sites of the sources, and the type error of the
    runtime. *)
Inductive Error :=
| InvalidLine (line : string)            (* tsm createTree: the line pattern failed *)
| InvalidIndentation (spaces : nat)      (* tsm createTree: odd number of spaces *)
| InvalidLineLevel (line : string)       (* tsm createTree: more than one level deeper *)
| MissingParent                          (* tsm createTree: [throw Error()], twice *)
| UnknownLocal (content : string)        (* parseLocalVar: no value rule applies *)
| InvalidHeadingLine (content : string)  (* both getCrashInfo: not of the shape Heading: rest *)
| InvalidHeading (content : string)      (* both getCrashInfo: heading outside the grammar *)
| InvalidFrameLine (content : string)    (* both getCrashInfo: frame line outside the grammar *)
| NoErrorMessage                         (* tsm getCrashInfo: empty errMsg *)
| NoFrames                               (* tsm getCrashInfo: empty frames *)
| InvalidHeadingType (heading : string)  (* blizzard createTree *)
| OrphanLine (line : string)             (* blizzard createTree: a line before any heading *)
| EmptyStack                             (* blizzard getCrashInfo *)
| FirstFrameUnparsed (frame : string)    (* blizzard getCrashInfo *)
| InvalidRef                             (* variablesRequest: fewer than two path segments *)
| UnhandledRequest                       (* variablesRequest: indexed without start/count *)
| UnexpectedFilter (filter : string)     (* variablesRequest *)
| TypeError.                             (* the runtime's own: property of undefined/null *)

(** The error taxonomy of the specification. *)
Inductive ErrorKind :=
| MalformedIndentation | UnknownCrashSection | UnrecognizedFrameSyntax
| MalformedStackHeader | UnrecognizedValueSyntax | IncompleteCrashInfo
| InvalidVariableReference | UnsupportedFilter.

Definition errorKind (e : Error) : ErrorKind :=
  match e with
  | InvalidLine _ | InvalidIndentation _ | InvalidLineLevel _ | MissingParent
  | OrphanLine _ => MalformedIndentation
  | UnknownLocal _ => UnrecognizedValueSyntax
  | InvalidHeadingLine _ | InvalidHeading _ | InvalidHeadingType _ => UnknownCrashSection
  | InvalidFrameLine _ => UnrecognizedFrameSyntax
  | NoErrorMessage | NoFrames => IncompleteCrashInfo
  | EmptyStack | FirstFrameUnparsed _ => MalformedStackHeader
  | InvalidRef | TypeError => InvalidVariableReference
  | UnhandledRequest | UnexpectedFilter _ => UnsupportedFilter
  end.

Inductive Result (A : Type) :=
| Ok (a : A)
| Err (e : Error).
Arguments Ok {A} a.
Arguments Err {A} e.

Definition bindR {A B} (r : Result A) (f : A → Result B) : Result B :=
  match r with
  | Ok a => f a
  | Err e => Err e
  end.

Notation "x ←R r ; k" := (bindR r (fun x => k))
  (at level 100, r at next level, k at level 200, right associativity).

Definition isOk {A} (r : Result A) : bool :=
  match r with Ok _ => true | Err _ => false end.

(** A [for ... of] loop whose body may throw. *)
Fixpoint forEachR {A S} (body : S → A → Result S) (xs : list A) (s : S) : Result S :=
  match xs with
  | [] => Ok s
  | x :: xs' => s' ←R body s x; forEachR body xs' s'
  end.

(** ** Strings *)

Module Str.

Definition eqb (a b : string) : bool := bool_decide (a = b).

Definition isSpace (c : ascii) : bool := bool_decide (c = " "%char).

(** The characters the dot of a regular expression refuses. *)
Definition isLineTerminator (c : ascii) : bool :=
  bool_decide (c = "010"%char) || bool_decide (c = "013"%char).

Definition notLT (c : ascii) : bool := negb (isLineTerminator c).

Definition between (lo hi c : ascii) : bool :=
  (nat_of_ascii lo <=? nat_of_ascii c) && (nat_of_ascii c <=? nat_of_ascii hi).

Definition isDigit : ascii → bool := between "0" "9".
Definition isUpper : ascii → bool := between "A" "Z".
Definition isLower : ascii → bool := between "a" "z".
(** The class [[A-Za-z ]]. *)
Definition isHeadingChar (c : ascii) : bool := isUpper c || isLower c || isSpace c.
Definition isChar (x c : ascii) : bool := bool_decide (c = x).
Definition notChar (x c : ascii) : bool := negb (isChar x c).
(** The class [[/\\]]. *)
Definition isSlash (c : ascii) : bool := isChar "/" c || isChar "\" c.

(** White space and line terminators, as trimmed by [trim], [Number]
    and [parseFloat]. *)
Definition isWhite (c : ascii) : bool :=
  (9 <=? nat_of_ascii c) && (nat_of_ascii c <=? 13)
  || isSpace c || (nat_of_ascii c =? 160).

Fixpoint repeat (c : ascii) (n : nat) : string :=
  match n with
  | O => EmptyString
  | S n' => String c (repeat c n')
  end.

Fixpoint forallb (p : ascii → bool) (s : string) : bool :=
  match s with
  | EmptyString => true
  | String c s' => p c && forallb p s'
  end.

Fixpoint dropWhile (p : ascii → bool) (s : string) : string :=
  match s with
  | String c s' => if p c then dropWhile p s' else s
  | EmptyString => EmptyString
  end.

Fixpoint takeWhile (p : ascii → bool) (s : string) : string :=
  match s with
  | String c s' => if p c then String c (takeWhile p s') else EmptyString
  | EmptyString => EmptyString
  end.

Fixpoint rev_app (s acc : string) : string :=
  match s with
  | EmptyString => acc
  | String c s' => rev_app s' (String c acc)
  end.
Definition rev (s : string) : string := rev_app s EmptyString.

Definition trimStart (s : string) : string := dropWhile isWhite s.
Definition trimEnd (s : string) : string := rev (dropWhile isWhite (rev s)).
Definition trim (s : string) : string := trimEnd (trimStart s).

(** [s.substring(0, n)]. *)
Definition take (n : nat) (s : string) : string := String.substring 0 n s.
(** [s.substring(n)] / [s.slice(n)] for [n >= 0]. *)
Fixpoint drop (n : nat) (s : string) : string :=
  match n, s with
  | O, _ => s
  | S n', String _ s' => drop n' s'
  | S _, EmptyString => EmptyString
  end.
(** [s.substring(s.length - n)]. *)
Definition takeLast (n : nat) (s : string) : string :=
  drop (String.length s - n) s.

Definition startsWith (p s : string) : bool := String.prefix p s.
Definition endsWith (p s : string) : bool :=
  eqb (takeLast (String.length p) s) p && (String.length p <=? String.length s).

(** [s.replace(pat, by)] with a string pattern and a replacement that
    holds no dollar sign: the first occurrence, replaced as it is. *)
Fixpoint replaceFirst (pat by_ s : string) : string :=
  if String.prefix pat s then by_ +:+ drop (String.length pat) s
  else match s with
       | EmptyString => EmptyString
       | String c s' => String c (replaceFirst pat by_ s')
       end.

(** The replacement text of [String.prototype.replace] for a string
    pattern: in the template, two dollar signs stand for one, a dollar
    sign and [&] for the matched text, a dollar sign and a backquote
    for the text before the match, a dollar sign and a quote for the
    text after it; there are no captures, so every other dollar sign
    stands for itself. *)
Fixpoint getSubstitution (matched before after template : string) : string :=
  match template with
  | EmptyString => EmptyString
  | String c rest =>
      if bool_decide (c = "$"%char) then
        match rest with
        | String d rest' =>
            if bool_decide (d = "$"%char) then
              String "$" (getSubstitution matched before after rest')
            else if bool_decide (d = "&"%char) then
              matched +:+ getSubstitution matched before after rest'
            else if bool_decide (d = "`"%char) then
              before +:+ getSubstitution matched before after rest'
            else if bool_decide (d = "'"%char) then
              after +:+ getSubstitution matched before after rest'
            else String c (getSubstitution matched before after rest)
        | EmptyString => String c EmptyString
        end
      else String c (getSubstitution matched before after rest)
  end.

(** [s.replace(pat, by)] with a string pattern: the first occurrence
    of [pat] is replaced by what [by] expands to; [before] holds the
    text already passed, last character first. *)
Fixpoint replaceGo (pat by_ before s : string) : string :=
  if String.prefix pat s then
    let after := drop (String.length pat) s in
    rev before +:+ getSubstitution pat (rev before) after by_ +:+ after
  else match s with
       | EmptyString => rev before
       | String c s' => replaceGo pat by_ (String c before) s'
       end.
Definition replace (pat by_ s : string) : string := replaceGo pat by_ EmptyString s.

(** [s.split(sep)] for a one-character separator. *)
Fixpoint splitGo (sep : ascii) (cur : string) (s : string) : list string :=
  match s with
  | EmptyString => [rev cur]
  | String c s' =>
      if bool_decide (c = sep) then rev cur :: splitGo sep EmptyString s'
      else splitGo sep (String c cur) s'
  end.
Definition split (sep : ascii) (s : string) : list string := splitGo sep EmptyString s.

(** [toLowerCase] on one code unit below 256: the letters A to Z and
    the upper-case letters of the Latin-1 range. *)
Definition lowerChar (c : ascii) : ascii :=
  let n := nat_of_ascii c in
  if isUpper c || ((192 <=? n) && (n <=? 214)) || ((216 <=? n) && (n <=? 222))
  then ascii_of_nat (n + 32) else c.
Fixpoint toLowerCase (s : string) : string :=
  match s with
  | EmptyString => EmptyString
  | String c s' => String (lowerChar c) (toLowerCase s')
  end.

(** [a < b] on strings: code units, lexicographically. *)
Definition lt (a b : string) : bool := String.ltb a b.

End Str.

(** ** Regular expressions

    The sources use regular expressions without alternation, in which
    every quantifier applies to a single character or character class.
    [Re] is that fragment; [run] is the backtracking matcher of the
    language: greedy quantifiers, first success wins. *)

Inductive Re :=
| Lit (s : string)                      (* literal text *)
| One (p : ascii → bool)                (* one character of a class *)
| Rep (p : ascii → bool) (min : nat)    (* [p*] (min 0) and [p+] (min 1), greedy *)
| Opt (c : ascii)                       (* [c?], greedy *)
| Cat (r1 r2 : Re)
| Cap (r : Re)                          (* a capture group *)
| Eos.                                  (* [$] *)

Infix "⋅" := Cat (at level 41, right associativity).

Module Regex.

Section Matcher.
Context {A : Type}.

(** [p*] or [p+] from [s], having taken [n] characters so far:
    take one more if possible, and fall back to stopping here. *)
Fixpoint rep (p : ascii → bool) (min : nat) (k : string → option A)
         (n : nat) (s : string) : option A :=
  let stop := if min <=? n then k s else None in
  match s with
  | String c s' =>
      if p c then
        match rep p min k (S n) s' with
        | Some r => Some r
        | None => stop
        end
      else stop
  | EmptyString => stop
  end.

Fixpoint lit (l : string) (k : string → option A) (s : string) : option A :=
  match l with
  | EmptyString => k s
  | String c l' =>
      match s with
      | String c' s' => if bool_decide (c' = c) then lit l' k s' else None
      | EmptyString => None
      end
  end.

(** [run r s caps k]: match [r] at the head of [s]; the continuation
    gets the rest of the input and the captures closed so far. *)
Fixpoint run (r : Re) (s : string) (caps : list string)
         (k : string → list string → option A) : option A :=
  match r with
  | Lit l => lit l (fun s' => k s' caps) s
  | One p =>
      match s with
      | String c s' => if p c then k s' caps else None
      | EmptyString => None
      end
  | Rep p min => rep p min (fun s' => k s' caps) 0 s
  | Opt c =>
      match s with
      | String c' s' =>
          if bool_decide (c' = c) then
            match k s' caps with
            | Some x => Some x
            | None => k s caps
            end
          else k s caps
      | EmptyString => k s caps
      end
  | Cat r1 r2 => run r1 s caps (fun s1 caps1 => run r2 s1 caps1 k)
  | Cap r' =>
      run r' s caps (fun s1 caps1 =>
        k s1 (caps1 ++ [Str.take (String.length s - String.length s1) s]))
  | Eos =>
      match s with
      | EmptyString => k s caps
      | String _ _ => None
      end
  end.
End Matcher.

(** A match: the captures and the input left after the matched text. *)
Definition matchHere (r : Re) (s : string) : option (list string * string) :=
  run r s [] (fun rest caps => Some (caps, rest)).

(** [/^r/.exec(s)]: the captures. *)
Definition execAnchored (r : Re) (s : string) : option (list string) :=
  fst <$> matchHere r s.

(** [/r/.exec(s)]: the leftmost match. *)
Fixpoint exec (r : Re) (s : string) : option (list string) :=
  match execAnchored r s with
  | Some caps => Some caps
  | None =>
      match s with
      | String _ s' => exec r s'
      | EmptyString => None
      end
  end.

Definition dot : Re := One Str.notLT.
Definition dotPlus : Re := Rep Str.notLT 1.
Definition dotStar : Re := Rep Str.notLT 0.

End Regex.
Import Regex.

(** Captures are read positionally, as by [match.slice(1)]. *)
Definition cap1 (m : list string) : string := default EmptyString (m !! 0).
Definition cap2 (m : list string) : string := default EmptyString (m !! 1).
Definition cap3 (m : list string) : string := default EmptyString (m !! 2).

(** ** The line tree (crashInfo.ts)

    [LineInfo] objects are cells of a store; the object allocated
    first, the root, has index 0. *)

Record LineInfo := mkLineInfo {
  content : string;
  children : list nat;
  parent : option nat;
}.

Definition setParent (p : option nat) (n : LineInfo) : LineInfo :=
  mkLineInfo (content n) (children n) p.

(** [n.children.push(id)]. *)
Definition pushChild (id : nat) (n : LineInfo) : LineInfo :=
  mkLineInfo (content n) (children n ++ [id]) (parent n).

Definition rootNode : LineInfo := mkLineInfo "" [] None.

(** [store[i].parent], absent also for a dangling index. *)
Definition parentOf (store : list LineInfo) (i : nat) : option nat :=
  store !! i ≫= parent.

(** The tree below a cell, read off the store once construction is over. *)
Inductive Tree := Node (text : string) (kids : list Tree).

Definition text (t : Tree) : string := match t with Node c _ => c end.
Definition kids (t : Tree) : list Tree := match t with Node _ ks => ks end.

Fixpoint toTree (fuel : nat) (store : list LineInfo) (id : nat) : Tree :=
  match fuel with
  | O => Node "" []
  | S fuel' =>
      match store !! id with
      | None => Node "" []
      | Some n => Node (content n) (map (toTree fuel' store) (children n))
      end
  end.

(** The tree a store holds: no path is longer than the number of cells. *)
Definition treeOf (store : list LineInfo) : Tree := toTree (length store) store 0.

(** Depth-first, parent before children, children in order: the
    content of every node with its depth. *)
Fixpoint flatten (d : nat) (t : Tree) : list (nat * string) :=
  match t with
  | Node c ks => (d, c) :: flat_map (flatten (S d)) ks
  end.

(** The traversal of what hangs below the root; the root's children
    have depth 0. *)
Definition traversal (t : Tree) : list (nat * string) :=
  flat_map (flatten 0) (kids t).

(** ** Numbers *)

Inductive JSNum :=
| NaN
| Inf (neg : bool)
| Fin (m e : Z).   (* the decimal m * 10^e *)

Module Num.

Definition digitVal (c : ascii) : Z := Z.of_nat (nat_of_ascii c - 48).

Fixpoint digitsGo (acc : Z) (s : string) : Z :=
  match s with
  | EmptyString => acc
  | String c s' => digitsGo (10 * acc + digitVal c) s'
  end.
Definition digitsVal (s : string) : Z := digitsGo 0 s.

Definition isHexDigit (c : ascii) : bool :=
  Str.isDigit c || Str.between "a" "f" c || Str.between "A" "F" c.
Definition hexDigitVal (c : ascii) : Z :=
  if Str.isDigit c then digitVal c
  else if Str.between "a" "f" c then Z.of_nat (nat_of_ascii c - 87)
  else Z.of_nat (nat_of_ascii c - 55).

Fixpoint radixGo (radix : Z) (acc : Z) (s : string) : Z :=
  match s with
  | EmptyString => acc
  | String c s' => radixGo radix (radix * acc + hexDigitVal c) s'
  end.

Definition parseSign (s : string) : bool * string :=
  match s with
  | String c s' =>
      if bool_decide (c = "-"%char) then (true, s')
      else if bool_decide (c = "+"%char) then (false, s')
      else (false, s)
  | EmptyString => (false, s)
  end.

Definition signed (neg : bool) (z : Z) : Z := if neg then (- z)%Z else z.

(** An exponent part, taken only when complete. *)
Definition parseExponent (s : string) : option (Z * string) :=
  match s with
  | String c s1 =>
      if bool_decide (c = "e"%char) || bool_decide (c = "E"%char) then
        let '(neg, s2) := parseSign s1 in
        let ds := Str.takeWhile Str.isDigit s2 in
        if Str.eqb ds EmptyString then None
        else Some (signed neg (digitsVal ds), Str.dropWhile Str.isDigit s2)
      else None
  | EmptyString => None
  end.

(** The longest prefix that is a decimal literal (sign, [Infinity],
    digits, fraction, exponent), with what follows it. *)
Definition decimalPrefix (s : string) : option (JSNum * string) :=
  let '(neg, s1) := parseSign s in
  if Str.startsWith "Infinity" s1 then Some (Inf neg, Str.drop 8 s1)
  else
    let ip := Str.takeWhile Str.isDigit s1 in
    let s2 := Str.dropWhile Str.isDigit s1 in
    let '(fp, s3) :=
      match s2 with
      | String c s2' =>
          if bool_decide (c = "."%char)
          then (Str.takeWhile Str.isDigit s2', Str.dropWhile Str.isDigit s2')
          else (EmptyString, s2)
      | EmptyString => (EmptyString, s2)
      end in
    if Str.eqb ip EmptyString && Str.eqb fp EmptyString then None
    else
      let '(ex, s4) :=
        match parseExponent s3 with
        | Some (e, r) => (e, r)
        | None => (0%Z, s3)
        end in
      Some (Fin (signed neg (digitsVal (ip +:+ fp)))
                (ex - Z.of_nat (String.length fp)), s4).

(** [parseFloat(s)]. *)
Definition parseFloat (s : string) : JSNum :=
  match decimalPrefix (Str.trimStart s) with
  | Some (n, _) => n
  | None => NaN
  end.

Definition radixLiteral (radix : Z) (digitOk : ascii → bool) (ds : string) : JSNum :=
  if negb (Str.eqb ds EmptyString) && Str.forallb digitOk ds
  then Fin (radixGo radix 0 ds) 0 else NaN.

(** [Number(s)]: the whole trimmed string must be a numeric literal;
    the empty string is 0. *)
Definition Number (s : string) : JSNum :=
  let t := Str.trim s in
  if Str.eqb t EmptyString then Fin 0 0
  else if Str.startsWith "0x" t || Str.startsWith "0X" t then
    radixLiteral 16 isHexDigit (Str.drop 2 t)
  else if Str.startsWith "0o" t || Str.startsWith "0O" t then
    radixLiteral 8 (Str.between "0" "7") (Str.drop 2 t)
  else if Str.startsWith "0b" t || Str.startsWith "0B" t then
    radixLiteral 2 (Str.between "0" "1") (Str.drop 2 t)
  else
    match decimalPrefix t with
    | Some (n, EmptyString) => n
    | _ => NaN
    end.

(** [parseInt(s)] without a radix. *)
Definition parseInt (s : string) : JSNum :=
  let '(neg, s1) := parseSign (Str.trimStart s) in
  let '(radix, digitOk, s2) :=
    if Str.startsWith "0x" s1 || Str.startsWith "0X" s1
    then (16%Z, isHexDigit, Str.drop 2 s1)
    else (10%Z, Str.isDigit, s1) in
  let ds := Str.takeWhile digitOk s2 in
  if Str.eqb ds EmptyString then NaN
  else Fin (signed neg (radixGo radix 0 ds)) 0.

Definition isNaN (n : JSNum) : bool :=
  match n with NaN => true | _ => false end.

(** The two decimals on a common exponent. *)
Definition align (m1 e1 m2 e2 : Z) : Z * Z * Z :=
  let e := Z.min e1 e2 in
  ((m1 * 10 ^ (e1 - e))%Z, (m2 * 10 ^ (e2 - e))%Z, e).

(** [a - b], taken exactly.  The comparator of the variables view
    applies it to two doubles and uses the sign of the result: the
    rounded difference of two doubles has the sign of the exact one. *)
Definition sub (a b : JSNum) : JSNum :=
  match a, b with
  | NaN, _ | _, NaN => NaN
  | Inf x, Inf y => if Bool.eqb x y then NaN else Inf x
  | Inf x, Fin _ _ => Inf x
  | Fin _ _, Inf y => Inf (negb y)
  | Fin m1 e1, Fin m2 e2 =>
      let '(a1, a2, e) := align m1 e1 m2 e2 in Fin (a1 - a2) e
  end.

(** The quotient [num / den] rounded to the nearest integer, a tie to
    the even one. *)
Definition roundHalfEven (num den : Z) : Z :=
  let f := (num / den)%Z in
  let r := (num mod den)%Z in
  if (2 * r <? den)%Z then f
  else if (den <? 2 * r)%Z then (f + 1)%Z
  else if Z.even f then f else (f + 1)%Z.

(** The double nearest to a decimal, a tie going to the even mantissa,
    written as a decimal again (a double is a multiple of a power of
    two, hence a finite decimal), and an infinity from [2^1024] on.
    With [p / q] the absolute value of the decimal and [lg] the
    position of its leading bit, the last place of the double is
    [2^k], 52 bits below the leading one and [2^-1074] at the least. *)
Definition toDouble (n : JSNum) : JSNum :=
  match n with
  | Fin m e =>
      if (m =? 0)%Z then Fin 0 0
      else
        let p := (Z.abs m * 10 ^ Z.max e 0)%Z in
        let q := (10 ^ Z.max (- e) 0)%Z in
        let l0 := (Z.log2 p - Z.log2 q)%Z in
        let lg :=
          if (p * 2 ^ Z.max (- l0) 0 <? q * 2 ^ Z.max l0 0)%Z then (l0 - 1)%Z else l0 in
        let k := Z.max (lg - 52) (-1074) in
        let mant := roundHalfEven (p * 2 ^ Z.max (- k) 0) (q * 2 ^ Z.max k 0) in
        if (0 <=? k)%Z then
          if (2 ^ 1024 <=? mant * 2 ^ k)%Z then Inf (m <? 0)%Z
          else Fin (Z.sgn m * mant * 2 ^ k) 0
        else Fin (Z.sgn m * mant * 5 ^ (- k)) k
  | _ => n
  end.

(** The sign of a number; a NaN counts as zero, as a comparator's
    result does for [Array.prototype.sort]. *)
Definition sign (n : JSNum) : comparison :=
  match n with
  | NaN => Eq
  | Inf neg => if neg then Lt else Gt
  | Fin m _ => (m ?= 0)%Z
  end.

Definition isInteger (n : JSNum) : bool :=
  match n with
  | Fin m e => (0 <=? e)%Z || (m mod 10 ^ (- e) =? 0)%Z
  | _ => false
  end.

Definition natToString (n : nat) : string :=
  DecimalString.NilZero.string_of_uint (Nat.to_uint n).

Definition posToString (z : Z) : string :=
  DecimalString.NilZero.string_of_uint (N.to_uint (Z.to_N z)).

(** Trailing zeros of a digit string, counted and removed. *)
Definition stripZeros (ds : string) : string * nat :=
  let r := Str.rev ds in
  let z := Str.takeWhile (Str.isChar "0") r in
  (Str.rev (Str.dropWhile (Str.isChar "0") r), String.length z).

(** [Number::toString], radix 10, from the digits [ds] and the
    position [n] of the decimal point. *)
Definition renderDecimal (ds : string) (n : Z) : string :=
  let k := Z.of_nat (String.length ds) in
  if (k <=? n)%Z && (n <=? 21)%Z then
    ds +:+ Str.repeat "0" (Z.to_nat (n - k))
  else if (0 <? n)%Z && (n <=? 21)%Z then
    Str.take (Z.to_nat n) ds +:+ "." +:+ Str.drop (Z.to_nat n) ds
  else if (-6 <? n)%Z && (n <=? 0)%Z then
    "0." +:+ Str.repeat "0" (Z.to_nat (- n)) +:+ ds
  else
    let e := (n - 1)%Z in
    let es := (if (e <? 0)%Z then "-" else "+") +:+ posToString (Z.abs e) in
    if (k =? 1)%Z then ds +:+ "e" +:+ es
    else Str.take 1 ds +:+ "." +:+ Str.drop 1 ds +:+ "e" +:+ es.

Definition toString (x : JSNum) : string :=
  match x with
  | NaN => "NaN"
  | Inf neg => if neg then "-Infinity" else "Infinity"
  | Fin m e =>
      if (m =? 0)%Z then "0"
      else
        let '(ds, z) := stripZeros (posToString (Z.abs m)) in
        (if (m <? 0)%Z then "-" else "") +:+
        renderDecimal ds (Z.of_nat (String.length ds) + (e + Z.of_nat z))
  end.

End Num.

(** ** Values and objects

    The values the parsers produce.  An object is the list of its own
    properties in insertion order; inherited properties are not
    modelled, and a property named [__proto__] is one like any other
    (see the conventions at the head of the file). *)

Inductive JSVal :=
| VUndef
| VNull
| VBool (b : bool)
| VNum (n : JSNum)
| VStr (s : string)
| VObj (props : list (string * JSVal)).

Module Obj.
Section Props.
Context {V : Type}.

Fixpoint get (k : string) (o : list (string * V)) : option V :=
  match o with
  | [] => None
  | (k', v) :: o' => if Str.eqb k' k then Some v else get k o'
  end.

(** [k in o]. *)
Definition has (k : string) (o : list (string * V)) : bool :=
  match get k o with Some _ => true | None => false end.

(** [o[k] = v]: an existing property keeps its place. *)
Fixpoint set (k : string) (v : V) (o : list (string * V)) : list (string * V) :=
  match o with
  | [] => [(k, v)]
  | (k', v') :: o' =>
      if Str.eqb k' k then (k, v) :: o' else (k', v') :: set k v o'
  end.

(** An array index: the canonical decimal of a number below 2^32 - 1. *)
Definition arrayIndex (k : string) : option Z :=
  let n := Num.digitsVal k in
  if negb (Str.eqb k EmptyString) && Str.forallb Str.isDigit k
     && Str.eqb (Num.posToString n) k && (n <? 2 ^ 32 - 1)%Z
  then Some n else None.

Fixpoint insertIndex (n : Z) (k : string) (ks : list (Z * string)) : list (Z * string) :=
  match ks with
  | [] => [(n, k)]
  | (m, k') :: ks' =>
      if (n <? m)%Z then (n, k) :: ks else (m, k') :: insertIndex n k ks'
  end.

(** The keys in the order of [for (const key in o)]: array indices
    ascending, then the other keys as inserted. *)
Definition keys (o : list (string * V)) : list string :=
  let idx := foldr (fun kv acc =>
               match arrayIndex kv.1 with
               | Some n => insertIndex n kv.1 acc
               | None => acc
               end) [] o in
  map snd idx ++
  filter (fun k => arrayIndex k = None) (map fst o).
End Props.
End Obj.

(** ** Crash information (crashInfo.ts) *)

Record LocalVar := mkLocalVar {
  val : JSVal;
  type : string;
}.

Record FrameInfo := mkFrameInfo {
  name : option string;
  source : option string;
  currentline : option JSNum;
  func : option string;
  locals : list (string * LocalVar);
}.

Record CrashInfo := mkCrashInfo {
  errMsg : string;
  frames : list FrameInfo;
  logLines : list string;
}.

Definition emptyCrashInfo : CrashInfo := mkCrashInfo "" [] [].

Definition setErrMsg (m : string) (ci : CrashInfo) : CrashInfo :=
  mkCrashInfo m (frames ci) (logLines ci).
Definition pushFrame (f : FrameInfo) (ci : CrashInfo) : CrashInfo :=
  mkCrashInfo (errMsg ci) (frames ci ++ [f]) (logLines ci).
Definition setLogLines (l : list string) (ci : CrashInfo) : CrashInfo :=
  mkCrashInfo (errMsg ci) (frames ci) l.

(** [text.replace(/\r\n/g, "\n")]: every carriage return that a line
    feed follows is dropped. *)
Fixpoint crlfToLf (s : string) : string :=
  match s with
  | EmptyString => EmptyString
  | String c s' =>
      match s' with
      | String c' s'' =>
          if bool_decide (c = "013"%char) && bool_decide (c' = "010"%char)
          then String "010" (crlfToLf s'')
          else String c (crlfToLf s')
      | EmptyString => String c EmptyString
      end
  end.

(** The lines [CrashFileParser.parse] cuts the text of a file into,
    before it drops the empty ones (the [filter] of [parse] below). *)
Definition readLines (fileText : string) : list string :=
  Str.split "010" (crlfToLf fileText).

(** The character of code 34, the double quote. *)
Definition dquote : ascii := "034"%char.

(** [headingContent.replace(/^TSM[/\\]/g, "")]: anchored at the start,
    the pattern matches at most once. *)
Definition stripTSM (s : string) : string :=
  match matchHere (Lit "TSM" ⋅ One Str.isSlash) s with
  | Some (_, rest) => rest
  | None => s
  end.

(** The heading pattern of both interpreters: at the start a captured
    [[A-Za-z ]+], a colon, an optional space, a captured [.*], the end. *)
Definition sectionRe : Re :=
  Cap (Rep Str.isHeadingChar 1) ⋅ Lit ":" ⋅ Opt " " ⋅ Cap dotStar ⋅ Eos.

Definition sectionMatch (content : string) : option (string * string) :=
  (fun m => (cap1 m, cap2 m)) <$> execAnchored sectionRe content.

(** ** TSM crash files (tsmCrashFile.ts) *)

Module TSMCrashFileParser.

(** The line pattern: at the start, a captured greedy run of spaces,
    then a captured [.+]. *)
Definition lineRe : Re := Cap (Rep Str.isSpace 0) ⋅ Cap dotPlus.

Definition lineMatch (line : string) : option (string * string) :=
  (fun m => (cap1 m, cap2 m)) <$> execAnchored lineRe line.

Record BuildState := mkBuildState {
  store : list LineInfo;
  currentNode : nat;
  currentLevel : nat;
}.

(** [while (level < currentLevel) { currentLevel--; ...; currentNode = currentNode.parent; }]
    runs [currentLevel - level] times; [steps] counts them down. *)
Fixpoint walkBack (st : list LineInfo) (steps : nat) (currentNode : nat) : Result nat :=
  match steps with
  | O => Ok currentNode
  | S steps' =>
      match parentOf st currentNode with
      | None => Err MissingParent
      | Some p => walkBack st steps' p
      end
  end.

(** The body of the loop over the lines. *)
Definition addLine (s : BuildState) (line : string) : Result BuildState :=
  match lineMatch line with
  | None => Err (InvalidLine line)
  | Some (spaces, content) =>
      if negb (String.length spaces mod 2 =? 0) then
        Err (InvalidIndentation (String.length spaces))
      else
        let level := String.length spaces / 2 in
        let node := mkLineInfo content [] None in
        node' ←R
          (if level =? 0 then
             Ok (setParent (Some 0) node)
           else if level =? currentLevel s then
             Ok (setParent (parentOf (store s) (currentNode s)) node)
           else if level =? currentLevel s + 1 then
             Ok (setParent (Some (currentNode s)) node)
           else if level <? currentLevel s then
             cur ←R walkBack (store s) (currentLevel s - level) (currentNode s);
             Ok (setParent (parentOf (store s) cur) node)
           else Err (InvalidLineLevel line));
        match parent node' with
        | None => Err MissingParent
        | Some p =>
            let id := length (store s) in
            Ok (mkBuildState (alter (pushChild id) p (store s ++ [node'])) id level)
        end
  end.

Definition build (lines : list string) : Result BuildState :=
  forEachR addLine lines (mkBuildState [rootNode] 0 0).

(** [createTree]: the store behind the returned [rootNode]. *)
Definition createTree (lines : list string) : Result Tree :=
  s ←R build lines; Ok (treeOf (store s)).

Definition IGNORED_HEADING_SECTIONS : list string :=
  ["Time"; "Client"; "Locale"; "Combat"; "Error Count"; "Temp Tables";
   "Object Pools"; "Running Threads"; "Addons"].

Fixpoint inTable (search : string) (tbl : list string) : bool :=
  match tbl with
  | [] => false
  | entry :: tbl' => if Str.eqb entry search then true else inTable search tbl'
  end.

(** [tonumber]: [None] is JavaScript's [null]. *)
Definition tonumber (str : string) : option JSNum :=
  let val := Num.parseFloat str in
  if Num.isNaN val then None else Some val.

(** [/(.+) = (.+)/] *)
Definition nameValueMatch (content : string) : option (string * string) :=
  (fun m => (cap1 m, cap2 m)) <$> exec (Cap dotPlus ⋅ Lit " = " ⋅ Cap dotPlus) content.

(** A double quote, a captured [.*], a double quote. *)
Definition strValueMatch (value : string) : option string :=
  cap1 <$> exec (One (Str.isChar dquote) ⋅ Cap dotStar ⋅ One (Str.isChar dquote)) value.

(** [/= <?(.+)>? {/] *)
Definition tblNameMatch (content : string) : option string :=
  cap1 <$> exec (Lit "= " ⋅ Opt "<" ⋅ Cap dotPlus ⋅ Opt ">" ⋅ Lit " {") content.

Record LocalInfo := mkLocalInfo {
  lname : string;
  lvalue : JSVal;
  ltype : string;
}.

(** The property key of [tblValue[this.tonumber(info.name) ?? info.name]]:
    a number is used through its string. *)
Definition memberKey (name : string) : string :=
  match tonumber name with
  | Some n => Num.toString n
  | None => name
  end.

Fixpoint parseLocalVar (node : Tree) : Result (option LocalInfo) :=
  match node with
  | Node content children =>
      let tblValue : Result JSVal :=
        (fix members (cs : list Tree) (tbl : list (string * JSVal)) : Result JSVal :=
           match cs with
           | [] => Ok (VObj tbl)
           | childNode :: cs' =>
               info ←R parseLocalVar childNode;
               match info with
               | Some i => members cs' (Obj.set (memberKey (lname i)) (lvalue i) tbl)
               | None => members cs' tbl
               end
           end) children [] in
      match nameValueMatch content with
      | None => Ok None
      | Some (name, value) =>
          match strValueMatch value with
          | Some str => Ok (Some (mkLocalInfo name (VStr str) "string"))
          | None =>
              if Str.eqb (Str.take 10 value) "<function>" then
                Ok (Some (mkLocalInfo name (VStr value) "function"))
              else if Str.eqb (Str.take 1 value) "{" then
                tbl ←R tblValue; Ok (Some (mkLocalInfo name tbl "table"))
              else if bool_decide (tonumber value ≠ None) then
                Ok (Some (mkLocalInfo name (VNum (Num.parseFloat value)) "number"))
              else if Str.eqb value "nil" then
                Ok (Some (mkLocalInfo name VNull "nil"))
              else if Str.eqb (Str.takeLast 2 value) "{}"
                      || Str.eqb (Str.takeLast 1 value) "{" then
                let type :=
                  match tblNameMatch content with
                  | Some tblName => "table<" +:+ tblName +:+ ">"
                  | None => "table"
                  end in
                tbl ←R tblValue; Ok (Some (mkLocalInfo name tbl type))
              else if Str.eqb value "<userdata>" then
                Ok (Some (mkLocalInfo name (VStr value) "userdata"))
              else if Str.eqb value "true" || Str.eqb value "false" then
                Ok (Some (mkLocalInfo name (VBool (Str.eqb value "true")) "boolean"))
              else if Str.eqb value "Infinite" then
                Ok (Some (mkLocalInfo name (VNum (Inf false)) "number"))
              else Err (UnknownLocal content)
          end
      end
  end.

(** [/^(.+) <(.+)>$/] *)
Definition frameMatch (content : string) : option (string * string) :=
  (fun m => (cap1 m, cap2 m)) <$>
    execAnchored (Cap dotPlus ⋅ Lit " <" ⋅ Cap dotPlus ⋅ Lit ">" ⋅ Eos) content.

(** [/^TSM[/\\](.+):([0-9]+)/] *)
Definition locationMatch (location : string) : option (string * string) :=
  (fun m => (cap1 m, cap2 m)) <$>
    execAnchored (Lit "TSM" ⋅ One Str.isSlash ⋅ Cap dotPlus ⋅ Lit ":"
                  ⋅ Cap (Rep Str.isDigit 1)) location.

Definition addLocal (locals : list (string * LocalVar)) (localNode : Tree)
  : Result (list (string * LocalVar)) :=
  localInfo ←R parseLocalVar localNode;
  match localInfo with
  | Some i => Ok (Obj.set (lname i) (mkLocalVar (lvalue i) (ltype i)) locals)
  | None => Ok locals
  end.

Definition addFrame (ci : CrashInfo) (frameNode : Tree) : Result CrashInfo :=
  match frameMatch (text frameNode) with
  | None => Err (InvalidFrameLine (text frameNode))
  | Some (location, name) =>
      let '(file, line) :=
        match locationMatch location with
        | Some (f, l) => (Some f, Some l)
        | None => (None, None)
        end in
      locals ←R forEachR addLocal (kids frameNode) [];
      Ok (pushFrame
            (mkFrameInfo (Some name) (Some (default EmptyString file))
               (Some (match line with
                      | Some l => default (Fin 0 0) (tonumber l)
                      | None => Fin 0 0
                      end))
               (Some location) locals) ci)
  end.

(** The body of the loop over the headings. *)
Definition addHeading (ci : CrashInfo) (headingNode : Tree) : Result CrashInfo :=
  match sectionMatch (text headingNode) with
  | None => Err (InvalidHeadingLine (text headingNode))
  | Some (headingType, headingContent) =>
      if Str.eqb headingType "Message" then
        Ok (setErrMsg (stripTSM headingContent) ci)
      else if Str.eqb headingType "Stack Trace" then
        forEachR addFrame (kids headingNode) ci
      else if Str.eqb headingType "Debug Log" then
        Ok (setLogLines (map text (reverse (kids headingNode))) ci)
      else if inTable headingType IGNORED_HEADING_SECTIONS then
        Ok ci
      else Err (InvalidHeading (text headingNode))
  end.

Definition getCrashInfo (tree : Tree) : Result CrashInfo :=
  crashInfo ←R forEachR addHeading (kids tree) emptyCrashInfo;
  if Str.eqb (errMsg crashInfo) EmptyString then Err NoErrorMessage
  else if length (frames crashInfo) =? 0 then Err NoFrames
  else Ok crashInfo.

(** [parse], from the lines of the file. *)
Definition parse (lines : list string) : Result CrashInfo :=
  tree ←R createTree (filter (fun l => l ≠ EmptyString) lines);
  getCrashInfo tree.

End TSMCrashFileParser.

(** ** Blizzard crash files (blizzardCrashFile.ts) *)

Module BlizzardCrashFileParser.

(** [/^([A-Z][A-Za-z ]+): (.+)$/] *)
Definition headingRe : Re :=
  Cap (One Str.isUpper ⋅ Rep Str.isHeadingChar 1) ⋅ Lit ": " ⋅ Cap dotPlus ⋅ Eos.

Definition headingMatch (line : string) : option (string * string) :=
  (fun m => (cap1 m, cap2 m)) <$> execAnchored headingRe line.

(** Allocate [node], already linked to its [children], and push it
    onto the children of the root. *)
Definition pushHeading (st : list LineInfo) (content : string)
           (childContent : option string) : list LineInfo :=
  let id := length st in
  match childContent with
  | None =>
      alter (pushChild id) 0 (st ++ [mkLineInfo content [] (Some 0)])
  | Some c =>
      alter (pushChild id) 0
        (st ++ [mkLineInfo content [S id] (Some 0); mkLineInfo c [] (Some id)])
  end.

(** The body of the loop over the lines. *)
Definition addLine (st : list LineInfo) (line : string) : Result (list LineInfo) :=
  match headingMatch line with
  | Some (headingType, headingContent) =>
      if Str.eqb headingType "Message" then
        Ok (pushHeading st line None)
      else if Str.eqb headingType "Time" || Str.eqb headingType "Count" then
        Ok st
      else if Str.eqb headingType "Stack" then
        Ok (pushHeading st "Stack:" (Some headingContent))
      else if Str.eqb headingType "Locals" then
        Ok (pushHeading st "Locals:" (Some headingContent))
      else Err (InvalidHeadingType headingType)
  | None =>
      match st !! 0 ≫= (fun root => last (children root)) with
      | None => Err (OrphanLine line)
      | Some prevNode =>
          let id := length st in
          Ok (alter (pushChild id) prevNode
                (st ++ [mkLineInfo line [] (Some prevNode)]))
      end
  end.

Definition build (lines : list string) : Result (list LineInfo) :=
  forEachR addLine
    (filter (fun line => Str.trim line ≠ EmptyString) lines) [rootNode].

Definition createTree (lines : list string) : Result Tree :=
  st ←R build lines; Ok (treeOf st).

Definition tonumber (str : string) : option JSNum :=
  let val := Num.parseFloat str in
  if Num.isNaN val then None else Some val.

(** [/^\.\.\.([^:]+)/] *)
Definition partialPathMatch (frame : string) : option string :=
  cap1 <$> execAnchored (Lit "..." ⋅ Cap (Rep (Str.notChar ":") 1)) frame.

(** The text [[string ] followed by a double quote. *)
Definition stringOpen : string := "[string " +:+ String dquote EmptyString.
(** The double quote and the closing bracket. *)
Definition stringClose : string := String dquote "]".

(** The frame pattern: at the start [stringOpen], an optional [@], a
    captured run of characters other than the double quote,
    [stringClose], an optional colon, a captured [[0-9]*], [: ] and
    a captured [.+]. *)
Definition frameRe : Re :=
  Lit stringOpen ⋅ Opt "@" ⋅ Cap (Rep (Str.notChar dquote) 1) ⋅ Lit stringClose
  ⋅ Opt ":" ⋅ Cap (Rep Str.isDigit 0) ⋅ Lit ": " ⋅ Cap dotPlus.

Definition frameMatch (content : string) : option (string * string * string) :=
  (fun m => (cap1 m, cap2 m, cap3 m)) <$> execAnchored frameRe content.

(** The loop that looks for the full path of a partial first frame:
    the first frame line whose path ends with the partial path
    rewrites [firstStackFrame], and the loop breaks. *)
Fixpoint findFullPath (partialPath firstStackFrame : string) (frameNodes : list Tree) : string :=
  match frameNodes with
  | [] => firstStackFrame
  | frameNode :: rest =>
      match frameMatch (text frameNode) with
      | Some (fullPath, _, _) =>
          if Str.endsWith partialPath fullPath then
            Str.replace ("..." +:+ partialPath) fullPath firstStackFrame
          else findFullPath partialPath firstStackFrame rest
      | None => findFullPath partialPath firstStackFrame rest
      end
  end.

(** The first frame line after the resolution of a partial path. *)
Definition resolveFirstFrame (first : Tree) (frameNodes : list Tree) : string :=
  match partialPathMatch (text first) with
  | Some partialPath => findFullPath partialPath (text first) frameNodes
  | None => text first
  end.

(** The addon-relative path pattern
    [/^(Interface[/\\]Add[Oo]ns[/\\][^/\\]+)[/\\]([^.]+\.lua):([0-9]+):/]. *)
Definition firstFrameRe : Re :=
  Cap (Lit "Interface" ⋅ One Str.isSlash ⋅ Lit "Add"
       ⋅ One (fun c => Str.isChar "O" c || Str.isChar "o" c) ⋅ Lit "ns"
       ⋅ One Str.isSlash ⋅ Rep (fun c => negb (Str.isSlash c)) 1)
  ⋅ One Str.isSlash
  ⋅ Cap (Rep (Str.notChar ".") 1 ⋅ Lit ".lua")
  ⋅ Lit ":" ⋅ Cap (Rep Str.isDigit 1) ⋅ Lit ":".

Definition firstStackFrameMatch (frame : string) : option (string * string * string) :=
  (fun m => (cap1 m, cap2 m, cap3 m)) <$> execAnchored firstFrameRe frame.

(** The name pattern: [in function ], a backquote or [<], a captured
    [.+], a quote or [>]. *)
Definition nameMatch (name : string) : option string :=
  cap1 <$> exec (Lit "in function "
                 ⋅ One (fun c => Str.isChar "`" c || Str.isChar "<" c)
                 ⋅ Cap dotPlus
                 ⋅ One (fun c => Str.isChar "'" c || Str.isChar ">" c)) name.

(** The loop over [headingNode.children.slice(1)]; a line [...] breaks it. *)
Fixpoint addFrames (addonPath : string) (frameNodes : list Tree) (ci : CrashInfo)
  : Result CrashInfo :=
  match frameNodes with
  | [] => Ok ci
  | frameNode :: rest =>
      if Str.eqb (text frameNode) "..." then Ok ci
      else
        match frameMatch (text frameNode) with
        | None => Err (InvalidFrameLine (text frameNode))
        | Some (rawLocation, line, rawName) =>
            let location :=
              if Str.startsWith addonPath rawLocation
              then Str.drop (String.length addonPath + 1) rawLocation
              else rawLocation in
            let name := default rawName (nameMatch rawName) in
            addFrames addonPath rest
              (pushFrame (mkFrameInfo (Some name) (Some location)
                            (Some (default (Fin 0 0) (tonumber line)))
                            (Some location) []) ci)
        end
  end.

Definition addStack (ci : CrashInfo) (headingNode : Tree) : Result CrashInfo :=
  match kids headingNode with
  | [] => Err EmptyStack
  | first :: rest =>
      let firstStackFrame := resolveFirstFrame first (first :: rest) in
      match firstStackFrameMatch firstStackFrame with
      | None => Err (FirstFrameUnparsed firstStackFrame)
      | Some (addonPath, firstStackFilePath, firstStackLine) =>
          addFrames addonPath rest
            (pushFrame (mkFrameInfo (Some "?") (Some firstStackFilePath)
                          (Some (default (Fin 0 0) (tonumber firstStackLine)))
                          (Some "?") []) ci)
      end
  end.

(** The body of the loop over the headings. *)
Definition addHeading (ci : CrashInfo) (headingNode : Tree) : Result CrashInfo :=
  match sectionMatch (text headingNode) with
  | None => Err (InvalidHeadingLine (text headingNode))
  | Some (headingType, headingContent) =>
      if Str.eqb headingType "Message" then
        Ok (setErrMsg (stripTSM headingContent) ci)
      else if Str.eqb headingType "Stack" then
        addStack ci headingNode
      else if Str.eqb headingType "Locals" then
        Ok ci
      else Err (InvalidHeading headingType)
  end.

Definition getCrashInfo (tree : Tree) : Result CrashInfo :=
  forEachR addHeading (kids tree) emptyCrashInfo.

(** [parse], from the lines of the file. *)
Definition parse (lines : list string) : Result CrashInfo :=
  tree ←R createTree (filter (fun l => l ≠ EmptyString) lines);
  getCrashInfo tree.

End BlizzardCrashFileParser.

(** ** The variable reference registry *)

(** Modelled from the spec: the [Handles] class that
    [luaDebugSession.ts] imports from the debug-adapter library is not
    among the repository's files.  Following section 4.4 of the
    specification, a registry is the next handle to hand out and the
    paths recorded so far. *)
Record Handles := mkHandles {
  nextHandle : nat;
  handleMap : gmap nat string;
}.

Module Registry.

(** Modelled from the spec: [new Handles(startHandle)], a registry
    without handles whose numbering starts at [startHandle]. *)
Definition new (startHandle : nat) : Handles := mkHandles startHandle ∅.

(** Modelled from the spec: [create(path)] hands out the next integer
    and records the path under it. *)
Definition create (value : string) (h : Handles) : nat * Handles :=
  (nextHandle h, mkHandles (S (nextHandle h)) (<[nextHandle h := value]> (handleMap h))).

(** Modelled from the spec: [get(handle)] resolves a handle, an
    unknown one to nothing. *)
Definition get (handle : nat) (h : Handles) : option string :=
  handleMap h !! handle.

(** Modelled from the spec: [reset()] invalidates every handle.  The
    handle at which numbering restarts is left open by the
    specification and is the parameter [restart]. *)
Definition reset (restart : nat) (h : Handles) : Handles := mkHandles restart ∅.

End Registry.

(** ** The debug session (luaDebugSession.ts) *)

(** [const enum ScopeType { Local = 1 }] *)
Definition ScopeType_Local : nat := 1.

(** [new Handles<string>(ScopeType.Local + 1)] *)
Definition initialHandles : Handles := Registry.new (ScopeType_Local + 1).

(** [Variable]: the arguments of one
    [new Variable(name, value, ref, indexedVariables, namedVariables)]. *)
Record DapVariable := mkVariable {
  vname : string;
  vvalue : string;
  vref : option nat;
  indexedVariables : option nat;
  namedVariables : option nat;
}.

(** A template literal's rendering of a value. *)
Definition toStr (v : JSVal) : string :=
  match v with
  | VUndef => "undefined"
  | VNull => "null"
  | VBool b => if b then "true" else "false"
  | VNum n => Num.toString n
  | VStr s => s
  | VObj _ => "[object Object]"
  end.

Definition quoted (s : string) : string :=
  String dquote s +:+ String dquote EmptyString.

Module LuaDebugSession.

(** [sortVariables], on the names of the two variables.  [Number]
    gives a double: the decimal that [Num.Number] reads off the name,
    rounded by [Num.toDouble].  The difference of two doubles is taken
    exactly; only its sign is used, which is the sign of the rounded
    difference. *)
Definition sortVariables (a b : DapVariable) : JSNum :=
  let aIsBracketted := Str.startsWith "[[" (vname a) in
  let bIsBracketted := Str.startsWith "[[" (vname b) in
  if negb (Bool.eqb aIsBracketted bIsBracketted) then
    (if aIsBracketted then Fin (-1) 0 else Fin 1 0)
  else
    let aAsNum := Num.toDouble (Num.Number (vname a)) in
    let bAsNum := Num.toDouble (Num.Number (vname b)) in
    let aIsNum := negb (Num.isNaN aAsNum) in
    let bIsNum := negb (Num.isNaN bAsNum) in
    if negb (Bool.eqb aIsNum bIsNum) then
      (if aIsNum then Fin (-1) 0 else Fin 1 0)
    else if aIsNum && bIsNum then
      Num.sub aAsNum bAsNum
    else
      let aName := Str.replaceFirst "[" " " (vname a) in
      let bName := Str.replaceFirst "[" " " (vname b) in
      let aNameLower := Str.toLowerCase aName in
      let bNameLower := Str.toLowerCase bName in
      let '(aName, bName) :=
        if negb (Str.eqb aNameLower bNameLower)
        then (aNameLower, bNameLower) else (aName, bName) in
      if Str.eqb aName bName then Fin 0 0
      else if Str.lt aName bName then Fin (-1) 0
      else Fin 1 0.

(** [Array.prototype.sort(cmp)]: the stable sort by the sign of the
    comparator, here by insertion from the right. *)
Section Sort.
Context {A : Type} (cmp : A → A → JSNum).

Fixpoint insertSorted (x : A) (l : list A) : list A :=
  match l with
  | [] => [x]
  | y :: l' =>
      match Num.sign (cmp x y) with
      | Gt => y :: insertSorted x l'
      | _ => x :: l
      end
  end.

Definition sort (l : list A) : list A := foldr insertSorted [] l.
End Sort.

(** The probing loop
    [while (true) { if (`${n + 1}` in value) n++; else break; }];
    it stops within one round more than the object has properties. *)
Fixpoint probe (fuel : nat) (o : list (string * JSVal)) (n : nat) : option nat :=
  match fuel with
  | O => None
  | S fuel' =>
      if Obj.has (Num.natToString (n + 1)) o then probe fuel' o (S n) else Some n
  end.

(** [indexedVariables] after the loop and the adjustment
    [indexedVariables > 0 ? indexedVariables + 1 : indexedVariables]. *)
Definition indexedHint (o : list (string * JSVal)) : option nat :=
  n ← probe (S (length o)) o 0;
  Some (if 0 <? n then n + 1 else n).

(** [handleVariable].  [typeof null] is ["object"], so a [null] member
    reaches the [in] test of the probing loop, which throws; for an
    object the loop always ends ([indexedHint] is never [None], see
    [probe_run]). *)
Definition handleVariable (value : JSVal) (key ref : string) (h : Handles)
  : Result (DapVariable * Handles) :=
  match value with
  | VStr s => Ok (mkVariable key (quoted s) None (Some 0) None, h)
  | VNum _ | VBool _ => Ok (mkVariable key (toStr value) None (Some 0) None, h)
  | VUndef => Ok (mkVariable key "nil" None (Some 0) None, h)
  | VNull => Err TypeError
  | VObj o =>
      match indexedHint o with
      | None => Err TypeError
      | Some indexed =>
          let '(newRef, h') := Registry.create (ref +:+ ":" +:+ key) h in
          Ok (mkVariable key "<table>" (Some newRef) (Some indexed) (Some 1), h')
      end
  end.

(** One round of the loop over the locals of a frame. *)
Definition handleLocal (frame : nat) (acc : list DapVariable * Handles)
           (entry : string * LocalVar) : Result (list DapVariable * Handles) :=
  let '(variables, h) := acc in
  let '(luaName, value) := entry in
  if Str.eqb (type value) "table" then
    match val value with
    | VObj o =>
        match indexedHint o with
        | None => Err TypeError
        | Some indexed =>
            let '(ref, h') :=
              Registry.create (Num.natToString frame +:+ ":" +:+ luaName) h in
            Ok (variables ++ [mkVariable luaName "<table>" (Some ref) (Some indexed) (Some 1)], h')
        end
    | _ => Err TypeError
    end
  else
    let valueStr :=
      if Str.eqb (type value) "string" then quoted (toStr (val value))
      else if Str.eqb (type value) "number" || Str.eqb (type value) "boolean"
      then toStr (val value)
      else if Str.eqb (type value) "nil" then "nil"
      else if Str.eqb (type value) "function" then "<function>"
      else "[" +:+ type value +:+ "]" in
    Ok (variables ++ [mkVariable luaName valueStr None (Some 0) None], h).

(** [o[key]] on a value. *)
Definition getProp (o : JSVal) (key : string) : Result JSVal :=
  match o with
  | VUndef | VNull => Err TypeError
  | VObj props => Ok (default VUndef (Obj.get key props))
  | VStr s =>
      match Obj.arrayIndex key with
      | Some i =>
          match String.get (Z.to_nat i) s with
          | Some c => Ok (VStr (String c EmptyString))
          | None => Ok VUndef
          end
      | None =>
          if Str.eqb key "length" then Ok (VNum (Fin (Z.of_nat (String.length s)) 0))
          else Ok VUndef
      end
  | VNum _ | VBool _ => Ok VUndef
  end.

(** The keys of [for (const key in o)]. *)
Definition forInKeys (o : JSVal) : list string :=
  match o with
  | VObj props => Obj.keys props
  | VStr s => map Num.natToString (seq 0 (String.length s))
  | _ => []
  end.

Definition pushVariable (tblVar : JSVal) (ref : string)
           (acc : list DapVariable * Handles) (key : string)
  : Result (list DapVariable * Handles) :=
  let '(variables, h) := acc in
  value ←R getProp tblVar key;
  r ←R handleVariable value key ref h;
  Ok (variables ++ [r.1], r.2).

Record Session := mkSession {
  crashInfo : option CrashInfo;
  frame : nat;
  variableHandles : Handles;
}.

Record VariablesArguments := mkVariablesArguments {
  variablesReference : nat;
  filter : option string;
  start : option Z;
  count : option Z;
}.

Record VariablesResponse := mkVariablesResponse {
  success : bool;
  body : option (list DapVariable);
}.

(** The variables collected by [variablesRequest] before it sorts them. *)
Definition collectVariables (s : Session) (ci : CrashInfo) (args : VariablesArguments)
  : Result (list DapVariable * Handles) :=
  if variablesReference args =? ScopeType_Local then
    match frames ci !! frame s with
    | None => Err TypeError
    | Some f =>
        forEachR (handleLocal (frame s))
          (omap (fun k => (fun v => (k, v)) <$> Obj.get k (locals f)) (Obj.keys (locals f)))
          ([], variableHandles s)
    end
  else
    match Registry.get (variablesReference args) (variableHandles s) with
    | None => Err TypeError
    | Some ref =>
        let parts := Str.split ":" ref in
        if length parts <? 2 then Err InvalidRef
        else
          match Num.parseInt (default EmptyString (parts !! 0)) with
          | Fin i 0 =>
              match (if (0 <=? i)%Z then frames ci !! Z.to_nat i else None) with
              | None => Err TypeError
              | Some f =>
                  match Obj.get (default EmptyString (parts !! 1)) (locals f) with
                  | None => Err TypeError
                  | Some local =>
                      tblVar ←R forEachR getProp (drop 2 parts) (val local);
                      match filter args with
                      | Some flt =>
                          if Str.eqb flt "named" then
                            forEachR (pushVariable tblVar ref)
                              (List.filter (fun key => negb (Num.isInteger (Num.Number key)))
                                 (forInKeys tblVar))
                              ([], variableHandles s)
                          else if Str.eqb flt "indexed" then
                            match start args, count args with
                            | Some st, Some cnt =>
                                let first := Z.max st 1 in
                                let last := (st + cnt - 1)%Z in
                                forEachR (pushVariable tblVar ref)
                                  (map (fun i => Num.posToString (first + Z.of_nat i))
                                     (seq 0 (Z.to_nat (last - first + 1))))
                                  ([], variableHandles s)
                            | _, _ => Err UnhandledRequest
                            end
                          else Err (UnexpectedFilter flt)
                      | None =>
                          forEachR (pushVariable tblVar ref) (forInKeys tblVar)
                            ([], variableHandles s)
                      end
                  end
              end
          | _ => Err TypeError
          end
    end.

Definition variablesRequest (s : Session) (args : VariablesArguments)
  : Result (Session * VariablesResponse) :=
  match crashInfo s with
  | None => Ok (s, mkVariablesResponse false None)
  | Some ci =>
      r ←R collectVariables s ci args;
      Ok (mkSession (crashInfo s) (frame s) r.2,
          mkVariablesResponse true (Some (sort sortVariables r.1)))
  end.

(** [continueRequest], [nextRequest], [stepInRequest] and
    [stepOutRequest]: they reset the registry (and end the session). *)
Definition continueRequest (restart : nat) (s : Session) : Session :=
  mkSession (crashInfo s) (frame s) (Registry.reset restart (variableHandles s)).

(** [new Scope(name, reference, expensive)] *)
Record Scope := mkScope {
  scopeName : string;
  scopeReference : nat;
  expensive : bool;
}.

(** [scopesRequest]: the frame of the later variables requests is
    recorded, and the one scope of a frame is returned. *)
Definition scopesRequest (s : Session) (frameId : nat) : Session * list Scope :=
  (mkSession (crashInfo s) frameId (variableHandles s),
   [mkScope "Locals" ScopeType_Local false]).

(** [const maxStackCount = 100] *)
Definition maxStackCount : Z := 100.

(** [new Source(name, path)] *)
Record Source := mkSource {
  sourceName : string;
  sourcePath : string;
}.

(** [new StackFrame(id, name, source, line, column)] with its
    [presentationHint]. *)
Record StackFrame := mkStackFrame {
  frameId : Z;
  frameName : string;
  frameSource : option Source;
  frameLine : JSNum;
  frameColumn : nat;
  presentationHint : string;
}.

Record StackTraceArguments := mkStackTraceArguments {
  startFrame : option Z;
  levels : option Z;
}.

(** The [body] of a stack trace response. *)
Record StackTraceBody := mkStackTraceBody {
  stackFrames : list StackFrame;
  totalFrames : nat;
}.

Record StackTraceResponse := mkStackTraceResponse {
  stackSuccess : bool;
  stackBody : option StackTraceBody;
}.

(** [s.replace(/[/\\]+/g, sep)]: every maximal run of slashes becomes
    one separator; [inRun] tells that the character before was a slash. *)
Fixpoint replaceSlashRuns (sep : string) (inRun : bool) (s : string) : string :=
  match s with
  | EmptyString => EmptyString
  | String c s' =>
      if Str.isSlash c then
        (if inRun then replaceSlashRuns sep true s'
         else sep +:+ replaceSlashRuns sep true s')
      else String c (replaceSlashRuns sep false s')
  end.

(** The stack trace depends on the platform and on the file system
    through [path.sep], [path.isAbsolute], [path.join], [path.basename]
    and [fs.existsSync], and on the [cwd] of the launch configuration,
    which is set whenever the crash information is. *)
Section StackTrace.
Variable sep : string.
Variable isAbsolute : string → bool.
Variable join : string → string → string.
Variable basename : string → string.
Variable existsSync : string → bool.
Variable cwd : string.

Definition resolvePath (filePath : string) : option string :=
  if String.length filePath =? 0 then None
  else
    let fullPath := if isAbsolute filePath then filePath else join cwd filePath in
    if existsSync fullPath then Some fullPath else None.

(** The body of the loop over the frames of the window; an index
    outside the array reads [undefined], whose [currentline] is a
    type error. *)
Definition stackFrameAt (ci : CrashInfo) (i : Z) : Result StackFrame :=
  match (if (0 <=? i)%Z then frames ci !! Z.to_nat i else None) with
  | None => Err TypeError
  | Some info =>
      let sourceStr :=
        match source info with
        | Some src => replaceSlashRuns sep false src
        | None => EmptyString
        end in
      let sourcePath := resolvePath sourceStr in
      let func :=
        match name info with
        | Some n => Some n
        | None => func info
        end in
      let frameFunc := default "???" func in
      let frameFunc :=
        match sourcePath with
        | None => frameFunc +:+ " " +:+ sourceStr
        | Some _ => frameFunc
        end in
      let line :=
        match currentline info with
        | Some currentLine =>
            match Num.sign currentLine with
            | Gt => currentLine
            | _ => Fin (-1) 0
            end
        | None => Fin (-1) 0
        end in
      Ok (mkStackFrame i frameFunc
            (mkSource (basename sourceStr) <$> sourcePath) line 1
            (match sourcePath with None => "subtle" | Some _ => "normal" end))
  end.

(** The indices [startFrame, ..., endFrame - 1] of the loop. *)
Definition frameWindow (ci : CrashInfo) (args : StackTraceArguments) : list Z :=
  let startFrame := default 0%Z (startFrame args) in
  let maxLevels := default maxStackCount (levels args) in
  let endFrame := Z.min (startFrame + maxLevels) (Z.of_nat (length (frames ci))) in
  map (fun k => (startFrame + Z.of_nat k)%Z) (seq 0 (Z.to_nat (endFrame - startFrame))).

Definition stackTraceRequest (s : Session) (args : StackTraceArguments)
  : Result StackTraceResponse :=
  match crashInfo s with
  | None => Ok (mkStackTraceResponse false None)
  | Some ci =>
      fs ←R forEachR (fun acc i => f ←R stackFrameAt ci i; Ok (acc ++ [f]))
              (frameWindow ci args) [];
      Ok (mkStackTraceResponse true (Some (mkStackTraceBody fs (length (frames ci)))))
  end.
End StackTrace.

End LuaDebugSession.

(** Short names for the three sources. *)
Module TSM := TSMCrashFileParser.
Module Blizzard := BlizzardCrashFileParser.
Module Session := LuaDebugSession.

(** * The vocabulary of the properties

    The definitions the statements and proofs below rely on: the shape
    of well-formed input lines, the trees behind the builder's store,
    and the orders of the variables view. *)

(** The shape of a line of the dump: [2 * level] spaces and a content. *)
Definition render (l : nat * string) : string :=
  Str.repeat " " (2 * l.1) +:+ l.2.

(** A content the line pattern hands back unchanged: not empty, not
    starting with a space, free of line terminators. *)
Definition visible (c : string) : bool :=
  match c with
  | EmptyString => false
  | String a _ => negb (Str.isSpace a) && Str.forallb Str.notLT c
  end.

(** A tree whose nodes carry the index of their cell in the store. *)
Inductive LTree := LNode (id : nat) (c : string) (ks : list LTree).

Definition lid (t : LTree) : nat := match t with LNode i _ _ => i end.

(** The tree without the indices. *)
Fixpoint erase (t : LTree) : Tree :=
  match t with LNode _ c ks => Node c (map erase ks) end.

(** The cells of a tree whose root has parent [par], depth-first. *)
Fixpoint cells (par : option nat) (t : LTree) : list (nat * LineInfo) :=
  match t with
  | LNode i c ks => (i, mkLineInfo c (map lid ks) par) :: flat_map (cells (Some i)) ks
  end.

(** The node at depth [d] of the rightmost path. *)
Fixpoint rnode (d : nat) (t : LTree) : option LTree :=
  match d with
  | O => Some t
  | S d' => match t with LNode _ _ ks => last ks ≫= rnode d' end
  end.

(** [f] on the last element of a list. *)
Fixpoint mapLast {A} (f : A → A) (l : list A) : list A :=
  match l with
  | [] => []
  | [x] => [f x]
  | x :: l' => x :: mapLast f l'
  end.

(** A new last child for the node at depth [v] of the rightmost path. *)
Fixpoint addAt (v : nat) (new : LTree) (t : LTree) : LTree :=
  match t with
  | LNode i c ks =>
      match v with
      | O => LNode i c (ks ++ [new])
      | S v' => LNode i c (mapLast (addAt v' new) ks)
      end
  end.

(** The store holds the cells of a tree. *)
Definition holds (st : list LineInfo) (par : option nat) (t : LTree) : Prop :=
  ∀ x, x ∈ cells par t → st !! x.1 = Some x.2.

(** Indentation-consistent levels: the first line is at level 0 (the
    root counts as the level before 0) and a line is at most one
    level deeper than the line before it. *)
Definition levelOk (prev : option nat) (v : nat) : bool :=
  match prev with
  | None => v =? 0
  | Some p => v <=? p + 1
  end.

Fixpoint levelsOk (prev : option nat) (vs : list nat) : bool :=
  match vs with
  | [] => true
  | v :: vs' => levelOk prev v && levelsOk (Some v) vs'
  end.

(** The builder's state tracks a tree: the store holds its cells, in
    depth-first order, and the current node ends its rightmost path. *)
Record Tracks (s : TSM.BuildState) (t : LTree) (prev : option nat)
  : Prop := {
  tr_holds : holds (TSM.store s) None t;
  tr_ids : (cells None t).*1 = seq 0 (length (TSM.store s));
  tr_pos :
    match prev with
    | None => True
    | Some L =>
        TSM.currentLevel s = L ∧
        ∃ c, rnode (S L) t = Some (LNode (TSM.currentNode s) c [])
    end;
}.

(** The table built from the children of a node: the loop of the two
    table branches. *)
Definition addMember (tbl : list (string * JSVal)) (childNode : Tree)
  : Result (list (string * JSVal)) :=
  info ←R TSM.parseLocalVar childNode;
  Ok (match info with
      | Some i =>
          Obj.set (TSM.memberKey (TSM.lname i))
            (TSM.lvalue i) tbl
      | None => tbl
      end).

(** [tblValue] once the loop over [node.children] is over. *)
Definition tblValue (children : list Tree) : Result JSVal :=
  tbl ←R forEachR addMember children []; Ok (VObj tbl).

(** The heading type of a node, when its content has the shape of a
    heading. *)
Definition headingType (n : Tree) : option string := fst <$> sectionMatch (text n).

(** What a client does with the registry. *)
Inductive RegistryOp :=
| OpCreate (path : string)
| OpReset.

(** The handles issued along a sequence of operations. *)
Fixpoint issued (restart : nat) (ops : list RegistryOp) (h : Handles) : list nat :=
  match ops with
  | [] => []
  | OpCreate p :: ops' =>
      let '(k, h') := Registry.create p h in k :: issued restart ops' h'
  | OpReset :: ops' => issued restart ops' (Registry.reset restart h)
  end.

(** [n] is the length of the contiguous run of indices from 1: the
    keys 1 to [n] are present and the key [n + 1] is missing. *)
Definition isRun (o : list (string * JSVal)) (n : nat) : Prop :=
  (∀ i, 1 ≤ i ≤ n → Obj.has (Num.natToString i) o = true) ∧
  Obj.has (Num.natToString (n + 1)) o = false.

(** [x - y] is not positive. *)
Definition numLe (x y : JSNum) : Prop := Num.sign (Num.sub x y) ≠ Gt.

(** [a <= b] on strings, code unit by code unit. *)
Definition strLe (a b : string) : Prop := String.leb a b = true.

(** The three-way comparison at the end of [sortVariables]. *)
Definition strCmp (a b : string) : JSNum :=
  if Str.eqb a b then Fin 0 0
  else if Str.lt a b then Fin (-1) 0
  else Fin 1 0.

(** [aIsBracketted], [aAsNum] and [aIsNum] of [sortVariables]. *)
Definition bracketed (v : DapVariable) : bool := Str.startsWith "[[" (vname v).
Definition asNumber (v : DapVariable) : JSNum := Num.toDouble (Num.Number (vname v)).
Definition numeric (v : DapVariable) : bool := negb (Num.isNaN (asNumber v)).
(** The name with its first opening bracket turned into a space. *)
Definition sortKey (v : DapVariable) : string := Str.replaceFirst "[" " " (vname v).
Definition lowerKey (v : DapVariable) : string := Str.toLowerCase (sortKey v).

(** Lower-cased keys first, the keys themselves to break a tie. *)
Definition keyLe (a b : string) : Prop :=
  if Str.eqb (Str.toLowerCase a) (Str.toLowerCase b) then strLe a b
  else strLe (Str.toLowerCase a) (Str.toLowerCase b).

(** What [sortVariables] decides, as a relation. *)
Definition precedes (a b : DapVariable) : Prop :=
  if negb (Bool.eqb (bracketed a) (bracketed b)) then bracketed a = true
  else if negb (Bool.eqb (numeric a) (numeric b)) then numeric a = true
  else if numeric a then numLe (asNumber a) (asNumber b)
  else keyLe (sortKey a) (sortKey b).

(** The order a comparator induces: its result is not positive. *)
Definition leBy {A} (cmp : A → A → JSNum) (a b : A) : Prop :=
  Num.sign (cmp a b) ≠ Gt.

(** The three groups of the variables view.  Rank 0: the name starts
    with two opening brackets; rank 1: the name reads as a number;
    rank 2: the other names. *)
Definition rank (v : DapVariable) : nat :=
  if bracketed v then 0 else if numeric v then 1 else 2.

(** The order of the variables view: by rank, the numbers by value,
    the other names by their lower-cased key and, when these are
    equal, by the key itself. *)
Definition viewOrder (a b : DapVariable) : Prop :=
  rank a ≤ rank b ∧
  (rank a = 1 → rank b = 1 → numLe (asNumber a) (asNumber b)) ∧
  (rank a = 2 → rank b = 2 →
   strLe (lowerKey a) (lowerKey b) ∧
   (lowerKey a = lowerKey b → strLe (sortKey a) (sortKey b))).

(** A crash file whose frame has the locals [b], [10], [9], [A] and
    [[[m]]], in that order. *)
Definition sortedDemo : Result CrashInfo :=
  TSM.parse
    ["Message: boom"; "Stack Trace:"; "  TSM/Foo.lua:10 <f>";
     "    b = 1"; "    10 = 2"; "    9 = 3"; "    A = 4"; "    [[m]] = 5"].

(** ** The vocabulary of the further properties *)

(** The level and the content the builder reads off a line. *)
Definition lineLevel (line : string) : option (nat * string) :=
  match TSM.lineMatch line with
  | Some (spaces, c) =>
      if String.length spaces mod 2 =? 0 then Some (String.length spaces / 2, c) else None
  | None => None
  end.

(** The levels the builder accepts after a line at [currentLevel]. *)
Fixpoint accepted (currentLevel : nat) (vs : list nat) : bool :=
  match vs with
  | [] => true
  | v :: vs' => (v <=? currentLevel + 1) && accepted v vs'
  end.

(** The lines read as levels and contents. *)
Definition readAs (lines : list string) (ls : list (nat * string)) : Prop :=
  Forall2 (fun line l => lineLevel line = Some l) lines ls.

(** The builder's state follows a tree, on any input: the store holds
    its cells in depth-first order, and the current node ends its
    rightmost path at the depth [d], the current level or one more. *)
Record Follows (s : TSM.BuildState) (t : LTree) (d : nat) : Prop := {
  fo_holds : holds (TSM.store s) None t;
  fo_ids : (cells None t).*1 = seq 0 (length (TSM.store s));
  fo_pos : ∃ c, rnode d t = Some (LNode (TSM.currentNode s) c []);
  fo_depth : TSM.currentLevel s ≤ d ≤ TSM.currentLevel s + 1;
}.

(** The frame lines of a tree: the children of its [Stack Trace]
    headings, in order. *)
Definition frameLines (tree : Tree) : list Tree :=
  flat_map (fun h => if bool_decide (headingType h = Some "Stack Trace") then kids h else [])
    (kids tree).

(** The frame a frame line stands for. *)
Definition frameOf (f : FrameInfo) (n : Tree) : Prop :=
  ∃ location nm,
    TSM.frameMatch (text n) = Some (location, nm) ∧
    name f = Some nm ∧ func f = Some location ∧
    forEachR TSM.addLocal (kids n) [] = Ok (locals f).

(** The heading types of the TSM grammar. *)
Definition tsmSections : list string :=
  "Message" :: "Stack Trace" :: "Debug Log" :: TSM.IGNORED_HEADING_SECTIONS.

(** A value with the type name the parser gives it. *)
Definition wellTyped (v : JSVal) (ty : string) : bool :=
  match v with
  | VStr _ => Str.eqb ty "string" || Str.eqb ty "function" || Str.eqb ty "userdata"
  | VNum n => Str.eqb ty "number" && negb (Num.isNaN n)
  | VBool _ => Str.eqb ty "boolean"
  | VNull => Str.eqb ty "nil"
  | VObj _ => Str.startsWith "table" ty
  | VUndef => false
  end.

(** What a line adds to the traversal of the tree. *)
Definition entry (line : string) : list (nat * string) :=
  match Blizzard.headingMatch line with
  | Some (headingType, headingContent) =>
      if Str.eqb headingType "Message" then [(0, line)]
      else if Str.eqb headingType "Stack" then [(0, "Stack:"); (1, headingContent)]
      else if Str.eqb headingType "Locals" then [(0, "Locals:"); (1, headingContent)]
      else []
  | None => [(1, line)]
  end.

(** The lines the builder accepts: [open] tells that a heading node
    exists already. *)
Fixpoint grouped (open : bool) (lines : list string) : bool :=
  match lines with
  | [] => true
  | line :: lines' =>
      match Blizzard.headingMatch line with
      | Some (headingType, _) =>
          if Str.eqb headingType "Message" || Str.eqb headingType "Stack"
             || Str.eqb headingType "Locals"
          then grouped true lines'
          else if Str.eqb headingType "Time" || Str.eqb headingType "Count"
          then grouped open lines'
          else false
      | None => open && grouped true lines'
      end
  end.

(** The store holds a tree whose root is the cell 0. *)
Record Grows (st : list LineInfo) (t : LTree) : Prop := {
  gr_holds : holds st None t;
  gr_ids : (cells None t).*1 = seq 0 (length st);
}.

(** A heading node exists. *)
Definition opened (t : LTree) : bool :=
  match t with LNode _ _ [] => false | _ => true end.

(** The nodes the builder hangs below the root: a [Message] line, or
    [Stack:] or [Locals:] with at least one child. *)
Definition headingNode (h : Tree) : Prop :=
  (∃ c, Blizzard.headingMatch (text h) = Some ("Message", c)) ∨
  ((text h = "Stack:" ∨ text h = "Locals:") ∧ kids h ≠ []).

(** A tree whose root has such nodes only. *)
Definition headed (t : Tree) : Prop := Forall headingNode (kids t).

(** Every line feed preceded by a carriage return. *)
Fixpoint lfToCrlf (s : string) : string :=
  match s with
  | EmptyString => EmptyString
  | String c s' =>
      if bool_decide (c = "010"%char) then String "013" (String "010" (lfToCrlf s'))
      else String c (lfToCrlf s')
  end.

(** A frame without locals whose line is a number. *)
Definition bareFrame (f : FrameInfo) : Prop :=
  locals f = [] ∧ ∃ n, currentline f = Some n ∧ Num.isNaN n = false.

(** Locals whose values have the types the parser gives them. *)
Definition typedLocals (ls : list (string * LocalVar)) : Prop :=
  Forall (fun kv => wellTyped (val kv.2) (type kv.2) = true) ls.

(** A registry whose handles all lie below the next one to hand out. *)
Definition wfHandles (h : Handles) : Prop :=
  ∀ k, is_Some (handleMap h !! k) → k < nextHandle h.

(** The path a variables request starts from. *)
Definition requestPath (s : Session.Session) (args : Session.VariablesArguments)
  : option string :=
  if Session.variablesReference args =? ScopeType_Local
  then Some (Num.natToString (Session.frame s))
  else Registry.get (Session.variablesReference args) (Session.variableHandles s).

(** One variable added to the view: a scalar leaves the registry as it
    is, a table gets the next handle, recorded under the path of the
    parent, a colon and the name. *)
Definition issues (parent : string) (h : Handles) (v : DapVariable) (h' : Handles) : Prop :=
  (vref v = None ∧ h' = h) ∨
  (vref v = Some (nextHandle h) ∧
   h' = (Registry.create (parent +:+ ":" +:+ vname v) h).2).

(** The variables of a view, added one after the other. *)
Inductive issuesAll (parent : string) : Handles → list DapVariable → Handles → Prop :=
| issues_nil h : issuesAll parent h [] h
| issues_cons h v h1 vs h' :
    issues parent h v h1 → issuesAll parent h1 vs h' → issuesAll parent h (v :: vs) h'.

(** The value a path leads to: the frame index, the name of a local
    and the keys of the nested tables, as [variablesRequest] walks it. *)
Definition tableAt (ci : CrashInfo) (ref : string) : Result JSVal :=
  let parts := Str.split ":" ref in
  if length parts <? 2 then Err InvalidRef
  else
    match Num.parseInt (default EmptyString (parts !! 0)) with
    | Fin i 0 =>
        match (if (0 <=? i)%Z then frames ci !! Z.to_nat i else None) with
        | None => Err TypeError
        | Some f =>
            match Obj.get (default EmptyString (parts !! 1)) (locals f) with
            | None => Err TypeError
            | Some local => forEachR Session.getProp (drop 2 parts) (val local)
            end
        end
    | _ => Err TypeError
    end.

(** The keys a variables request shows of a table. *)
Definition viewKeys (tblVar : JSVal) (args : Session.VariablesArguments)
  : Result (list string) :=
  match Session.filter args with
  | Some flt =>
      if Str.eqb flt "named" then
        Ok (List.filter (fun key => negb (Num.isInteger (Num.Number key)))
              (Session.forInKeys tblVar))
      else if Str.eqb flt "indexed" then
        match Session.start args, Session.count args with
        | Some st, Some cnt =>
            Ok (map (fun i => Num.posToString (Z.max st 1 + Z.of_nat i))
                  (seq 0 (Z.to_nat (st + cnt - 1 - Z.max st 1 + 1))))
        | _, _ => Err UnhandledRequest
        end
      else Err (UnexpectedFilter flt)
  | None => Ok (Session.forInKeys tblVar)
  end.

(** The loop of [stackTraceRequest]. *)
Definition pushStackFrame (g : Z → Result Session.StackFrame)
    (acc : list Session.StackFrame) (i : Z) : Result (list Session.StackFrame) :=
  f ←R g i; Ok (acc ++ [f]).

(** The lines of a crash file with two frames, the first with a
    number and a table among its locals, and a debug log. *)
Definition walkDemo : list string :=
  ["Message: TSM/Foo.lua:10: boom"; "Stack Trace:"; "  TSM/Foo.lua:10 <f>";
   "    x = 1"; "    t = {"; "      1 = true"; "      k = 2";
   "  Bar.lua:3 <g>"; "Debug Log:"; "  newest"; "  oldest"].

(** The text of that file, every line ended by a line feed. *)
Definition walkText : string :=
  foldr (fun line acc => line +:+ String "010" acc) EmptyString walkDemo.

(** * Properties *)

(** ** Two crash files, interpreted *)

Example blizzard_demo :
  Blizzard.parse
    ["Message: ...ace/AddOns/Foo/Core.lua:12: attempt to index nil";
     "Time: Thu Jan 1";
     "Count: 1";
     "Stack: ...ace/AddOns/Foo/Core.lua:12: in function <Interface/AddOns/Foo/Core.lua:10>";
     Blizzard.stringOpen +:+ "@Interface/AddOns/Foo/Core.lua" +:+ Blizzard.stringClose
       +:+ ":12: in function <Interface/AddOns/Foo/Core.lua:10>";
     Blizzard.stringOpen +:+ "@Interface/AddOns/Foo/Main.lua" +:+ Blizzard.stringClose
       +:+ ":40: in function `Run'";
     "...";
     "Locals: x = 1"]
  = Ok (mkCrashInfo "...ace/AddOns/Foo/Core.lua:12: attempt to index nil"
          [mkFrameInfo (Some "?") (Some "Core.lua") (Some (Fin 12 0)) (Some "?") [];
           mkFrameInfo (Some "Interface/AddOns/Foo/Core.lua:10") (Some "Core.lua")
             (Some (Fin 12 0)) (Some "Core.lua") [];
           mkFrameInfo (Some "Run") (Some "Main.lua") (Some (Fin 40 0)) (Some "Main.lua") []]
          []).
Proof. vm_compute. reflexivity. Qed.

Example tsm_demo :
  TSM.parse
    ["Message: TSM/Core/Foo.lua:10: boom";
     "Time: now";
     "Stack Trace:";
     "  TSM/Core/Foo.lua:10 <funcName>";
     "    x = 1";
     "    t = {";
     "      1 = " +:+ String dquote ("a" +:+ String dquote "");
     "      k = true";
     "    self = <Foo> {";
     "Debug Log:";
     "  newest";
     "  oldest"]
  = Ok (mkCrashInfo "Core/Foo.lua:10: boom"
          [mkFrameInfo (Some "funcName") (Some "Core/Foo.lua") (Some (Fin 10 0))
             (Some "TSM/Core/Foo.lua:10")
             [("x", mkLocalVar (VNum (Fin 1 0)) "number");
              ("t", mkLocalVar (VObj [("1", VStr "a"); ("k", VBool true)]) "table");
              ("self", mkLocalVar (VObj []) "table<Foo>>")]]
          ["oldest"; "newest"]).
Proof. vm_compute. reflexivity. Qed.

(** ** The matcher on well-shaped inputs *)

Lemma length_repeat c n : String.length (Str.repeat c n) = n.
Proof. induction n; simpl; congruence. Qed.

Lemma append_nil (b : string) : EmptyString +:+ b = b.
Proof. reflexivity. Qed.

Lemma append_cons c (a b : string) : String c a +:+ b = String c (a +:+ b).
Proof. reflexivity. Qed.

Lemma length_append (a b : string) :
  String.length (a +:+ b) = String.length a + String.length b.
Proof.
  induction a as [|c a IH]; [reflexivity|].
  rewrite append_cons. simpl. now rewrite IH.
Qed.

Lemma take_length (s : string) : Str.take (String.length s) s = s.
Proof. unfold Str.take. induction s; simpl; congruence. Qed.

Lemma take_append (a b : string) : Str.take (String.length a) (a +:+ b) = a.
Proof.
  unfold Str.take. induction a as [|c a IH].
  - rewrite append_nil. destruct b; reflexivity.
  - rewrite append_cons. simpl. now rewrite IH.
Qed.

(** A greedy run stops at the first character outside the class when
    the continuation accepts there. *)
Lemma rep_stops {A} p min (k : string → option A) n m c rest r :
  p " "%char = true → p c = false → min ≤ m →
  k (String c rest) = Some r →
  rep p min k m (Str.repeat " " n +:+ String c rest) = Some r.
Proof.
  intros Hsp Hc Hm Hk. revert m Hm. induction n as [|n IH]; intros m Hm.
  - simpl Str.repeat. rewrite append_nil. simpl. rewrite Hc.
    destruct (min <=? m) eqn:E; [assumption|].
    apply Nat.leb_gt in E. lia.
  - simpl Str.repeat. rewrite append_cons. simpl.
    rewrite Hsp, IH by lia. reflexivity.
Qed.

(** A greedy run over a string wholly in the class takes all of it
    when the continuation accepts the end of the input. *)
Lemma rep_takes_all {A} p min (k : string → option A) n s r :
  Str.forallb p s = true → min ≤ n + String.length s →
  k EmptyString = Some r →
  rep p min k n s = Some r.
Proof.
  intros Hall Hmin Hk. revert n Hmin.
  induction s as [|c s IH]; intros n Hmin; simpl in *.
  - destruct (min <=? n) eqn:E; [assumption|]. apply Nat.leb_gt in E. lia.
  - apply andb_prop in Hall as [Hc Hs]. rewrite Hc, IH; auto. lia.
Qed.

Lemma lineMatch_spaces n c :
  visible c = true →
  TSM.lineMatch (Str.repeat " " n +:+ c) = Some (Str.repeat " " n, c).
Proof.
  intros Hv. destruct c as [|a c']; [discriminate|].
  apply andb_prop in Hv as [Ha Hall]. apply negb_true_iff in Ha.
  unfold TSM.lineMatch, execAnchored, matchHere, TSM.lineRe. simpl run.
  match goal with |- context [rep Str.isSpace 0 ?k 0 _] => set (K := k) end.
  assert (HK : K (String a c') = Some ([Str.repeat " " n; String a c'], EmptyString)).
  { subst K. cbv beta. apply rep_takes_all; [exact Hall | simpl; lia |].
    rewrite length_append, length_repeat.
    replace (n + String.length (String a c') - String.length (String a c')) with n by lia.
    replace n with (String.length (Str.repeat " " n)) at 1 by apply length_repeat.
    rewrite take_append.
    replace (String.length (String a c') - String.length EmptyString)
      with (String.length (String a c')) by (simpl; lia).
    now rewrite take_length. }
  now rewrite (rep_stops Str.isSpace 0 K n 0 a c' _ eq_refl Ha (Nat.le_refl 0) HK).
Qed.

(** ** The TSM tree builder: the tree behind the store

    A [LTree] is a tree whose nodes carry the index of their cell.
    The builder's store is, at every step, the list of the cells of
    such a tree in depth-first order, and every line adds a leaf at
    the end of the rightmost path. *)

Lemma LTree_nested_ind (P : LTree → Prop) :
  (∀ i c ks, Forall P ks → P (LNode i c ks)) → ∀ t, P t.
Proof.
  intros H. fix IH 1. intros [i c ks]. apply H.
  induction ks as [|k ks IHks]; constructor; [apply IH | exact IHks].
Qed.

Lemma elem_of_flat_map {A B} (f : A → list B) (l : list A) (y : B) :
  y ∈ flat_map f l ↔ ∃ x, x ∈ l ∧ y ∈ f x.
Proof.
  rewrite list_elem_of_In, in_flat_map. split.
  - intros (x & H1 & H2). exists x. now rewrite !list_elem_of_In.
  - intros (x & H1 & H2). exists x. now rewrite <- !list_elem_of_In.
Qed.

Lemma mapLast_snoc {A} (f : A → A) (l : list A) (x : A) :
  mapLast f (l ++ [x]) = l ++ [f x].
Proof.
  induction l as [|y l IH]; [reflexivity|].
  simpl. rewrite IH. destruct l; reflexivity.
Qed.

Lemma lid_addAt v new t : lid (addAt v new t) = lid t.
Proof. destruct t, v; reflexivity. Qed.

Lemma rnode_S_inv d i c ks k :
  rnode (S d) (LNode i c ks) = Some k →
  ∃ ks0 k0, ks = ks0 ++ [k0] ∧ rnode d k0 = Some k.
Proof.
  simpl. destruct (last ks) as [k0|] eqn:E; [|discriminate].
  apply last_Some in E as [ks0 ->]. intros H. now exists ks0, k0.
Qed.

Lemma rnode_snoc d i c ks0 k0 :
  rnode (S d) (LNode i c (ks0 ++ [k0])) = rnode d k0.
Proof. simpl. now rewrite last_snoc. Qed.

Lemma rnode_prefix d t k :
  rnode (S d) t = Some k → ∃ q, rnode d t = Some q ∧ rnode 1 q = Some k.
Proof.
  revert t. induction d as [|d IH]; intros [i c ks] H.
  - exists (LNode i c ks). split; [reflexivity|exact H].
  - apply rnode_S_inv in H as (ks0 & k0 & -> & H).
    rewrite rnode_snoc. apply IH in H. exact H.
Qed.

Lemma rnode_le d d' t k :
  d' ≤ d → rnode d t = Some k → ∃ q, rnode d' t = Some q.
Proof.
  intros Hle. revert k. induction Hle as [|d Hle IH]; intros k H; [eauto|].
  apply rnode_prefix in H as (q & H & _). eauto.
Qed.

(** The rightmost path lies in the cells, each node under its parent. *)
Lemma rnode_cell d t par q :
  rnode d t = Some q →
  ∃ n, (lid q, n) ∈ cells par t ∧
       (d = 0 → parent n = par) ∧
       (∀ d' p, d = S d' → rnode d' t = Some p → parent n = Some (lid p)).
Proof.
  revert t par. induction d as [|d IH]; intros [i c ks] par H.
  - injection H as <-. eexists. split; [left|]. split; [reflexivity|discriminate].
  - apply rnode_S_inv in H as (ks0 & k0 & -> & H).
    destruct (IH _ (Some i) H) as (n & Hin & H0 & HS).
    exists n. split.
    + simpl. right. apply elem_of_flat_map. exists k0. split; [|exact Hin].
      apply elem_of_app. right. left.
    + split; [discriminate|]. intros d' p [= <-] Hp.
      destruct d as [|d].
      * injection Hp as <-. simpl. now apply H0.
      * rewrite rnode_snoc in Hp. now apply (HS d).
Qed.

(** A new leaf comes last in the depth-first order. *)
Lemma ids_addAt v new t par q :
  rnode v t = Some q →
  (cells par (addAt v new t)).*1 = (cells par t).*1 ++ (cells (Some (lid q)) new).*1.
Proof.
  revert t par. induction v as [|v IH]; intros [i c ks] par H.
  - injection H as <-. simpl. rewrite flat_map_app, fmap_app. simpl.
    now rewrite app_nil_r.
  - apply rnode_S_inv in H as (ks0 & k0 & -> & H). simpl addAt.
    rewrite mapLast_snoc. simpl. rewrite !flat_map_app, !fmap_app. simpl.
    rewrite !app_nil_r, (IH _ _ H). now rewrite app_assoc.
Qed.

Lemma flatten_addAt v new t d q :
  rnode v t = Some q →
  flatten d (erase (addAt v new t)) = flatten d (erase t) ++ flatten (S (d + v)) (erase new).
Proof.
  revert t d. induction v as [|v IH]; intros [i c ks] d H.
  - simpl. rewrite map_app, flat_map_app. simpl.
    rewrite app_nil_r, Nat.add_0_r. reflexivity.
  - apply rnode_S_inv in H as (ks0 & k0 & -> & H). simpl addAt.
    rewrite mapLast_snoc. simpl. rewrite !map_app, !flat_map_app. simpl.
    rewrite !app_nil_r, (IH _ _ H).
    replace (S (S d + v)) with (S (d + S v)) by lia. now rewrite app_assoc.
Qed.

Lemma rnode_addAt v new t q :
  rnode v t = Some q → rnode (S v) (addAt v new t) = Some new.
Proof.
  revert t. induction v as [|v IH]; intros [i c ks] H.
  - simpl. now rewrite last_snoc.
  - apply rnode_S_inv in H as (ks0 & k0 & -> & H). simpl addAt.
    rewrite mapLast_snoc, rnode_snoc. now apply IH.
Qed.

Lemma traversal_addAt v new t q :
  rnode v t = Some q →
  traversal (erase (addAt v new t)) = traversal (erase t) ++ flatten v (erase new).
Proof.
  destruct t as [i c ks]. destruct v as [|v]; intros H; unfold traversal.
  - simpl. rewrite map_app, flat_map_app. simpl. now rewrite app_nil_r.
  - apply rnode_S_inv in H as (ks0 & k0 & -> & H). simpl addAt.
    rewrite mapLast_snoc. simpl. rewrite !map_app, !flat_map_app. simpl.
    rewrite !app_nil_r, (flatten_addAt _ _ _ _ _ H). now rewrite app_assoc.
Qed.

Lemma holds_kid st par i c ks k :
  holds st par (LNode i c ks) → k ∈ ks → holds st (Some i) k.
Proof.
  intros H Hk x Hx. apply H. simpl. right.
  apply elem_of_flat_map. eauto.
Qed.

Lemma cells_kid_length (p : option nat) (ks : list LTree) k :
  k ∈ ks → length (cells p k) ≤ length (flat_map (cells p) ks).
Proof.
  induction 1 as [k ks | k k' ks _ IH]; simpl; rewrite length_app; lia.
Qed.

(** Reading a tree back from a store that holds its cells. *)
Lemma toTree_erase st t :
  ∀ par fuel, holds st par t → length (cells par t) ≤ fuel →
    toTree fuel st (lid t) = erase t.
Proof.
  induction t as [i c ks IH] using LTree_nested_ind. intros par fuel Hh Hf.
  destruct fuel as [|fuel]; [simpl in Hf; lia|].
  pose proof (Hh (i, mkLineInfo c (map lid ks) par) ltac:(left)) as Hi.
  simpl in Hi. simpl. rewrite Hi. simpl.
  f_equal. rewrite map_map. apply map_ext_in. intros k Hk.
  apply list_elem_of_In in Hk.
  rewrite Forall_forall in IH. apply (IH k Hk (Some i)).
  - eapply holds_kid; eauto.
  - pose proof (cells_kid_length (Some i) ks k Hk). simpl in Hf. lia.
Qed.

Lemma parentOf_rnode st par t d x p :
  holds st par t → rnode (S d) t = Some x → rnode d t = Some p →
  parentOf st (lid x) = Some (lid p).
Proof.
  intros Hh Hx Hp.
  destruct (rnode_cell _ _ par _ Hx) as (n & Hin & _ & HS).
  unfold parentOf. pose proof (Hh _ Hin) as Hl. simpl in Hl.
  rewrite Hl. simpl. eapply HS; eauto.
Qed.

(** The dedent walk climbs the rightmost path. *)
Lemma walkBack_rnode st par t k :
  holds st par t →
  ∀ d x y, rnode (d + k) t = Some x → rnode d t = Some y →
    TSM.walkBack st k (lid x) = Ok (lid y).
Proof.
  intros Hh. induction k as [|k IH]; intros d x y Hx Hy.
  - rewrite Nat.add_0_r in Hx. simpl. congruence.
  - replace (d + S k) with (S (d + k)) in Hx by lia.
    destruct (rnode_prefix _ _ _ Hx) as (x' & Hx' & _).
    simpl. rewrite (parentOf_rnode _ _ _ _ _ _ Hh Hx Hx'). eauto.
Qed.

Lemma lookup_alter_frame {A} (f : A → A) (st l : list A) p j n :
  st !! j = Some n → j ≠ p → alter f p (st ++ l) !! j = Some n.
Proof.
  intros Hj Hne. rewrite list_lookup_alter_ne by congruence.
  now apply lookup_app_l_Some.
Qed.

Lemma rnode_id_in d t par q :
  rnode d t = Some q → lid q ∈ (cells par t).*1.
Proof.
  intros H. destruct (rnode_cell _ _ par _ H) as (n & Hin & _).
  apply list_elem_of_fmap. now exists (lid q, n).
Qed.

(** Linking a fresh leaf under the node at depth [v] of the rightmost
    path is the store update of [addLine]. *)
Lemma store_addAt st c v :
  ∀ t par q,
    holds st par t → NoDup (cells par t).*1 → rnode v t = Some q →
    holds (alter (pushChild (length st)) (lid q)
             (st ++ [mkLineInfo c [] (Some (lid q))]))
          par (addAt v (LNode (length st) c []) t).
Proof.
  induction v as [|v IH]; intros [i c0 ks] par q Hh Hnd Hq.
  - injection Hq as <-. simpl lid.
    assert (Hi : st !! i = Some (mkLineInfo c0 (map lid ks) par))
      by (apply (Hh (i, _)); left).
    intros x Hx. simpl in Hx. rewrite flat_map_app in Hx. simpl in Hx.
    rewrite ?app_nil_r in Hx.
    apply elem_of_cons in Hx as [-> | Hx]; [|apply elem_of_app in Hx as [Hx | Hx]].
    + simpl. rewrite list_lookup_alter_eq, (lookup_app_l_Some _ _ _ _ Hi).
      simpl. unfold pushChild. simpl. now rewrite map_app.
    + apply lookup_alter_frame.
      * apply Hh. simpl. now right.
      * simpl in Hnd. apply NoDup_cons in Hnd as [Hnotin _].
        intros Heq. apply Hnotin. apply list_elem_of_fmap. exists x. now split.
    + apply list_elem_of_singleton in Hx as ->. simpl.
      apply lookup_lt_Some in Hi.
      rewrite list_lookup_alter_ne by lia.
      now apply list_lookup_middle.
  - apply rnode_S_inv in Hq as (ks0 & k0 & -> & Hq).
    simpl in Hnd. rewrite flat_map_app, fmap_app in Hnd. simpl in Hnd.
    rewrite ?app_nil_r in Hnd.
    apply NoDup_cons in Hnd as [Hi Hnd].
    apply NoDup_app in Hnd as (_ & Hdisj & Hnd0).
    pose proof (rnode_id_in _ _ (Some i) _ Hq) as Hqin.
    intros x Hx. simpl addAt in Hx. rewrite mapLast_snoc in Hx. simpl in Hx.
    rewrite flat_map_app in Hx. simpl in Hx. rewrite ?app_nil_r in Hx.
    apply elem_of_cons in Hx as [-> | Hx]; [|apply elem_of_app in Hx as [Hx | Hx]].
    + simpl. apply lookup_alter_frame.
      * rewrite map_app. simpl. rewrite lid_addAt.
        replace (map lid ks0 ++ [lid k0]) with (map lid (ks0 ++ [k0]))
          by now rewrite map_app.
        apply (Hh (i, _)). left.
      * simpl. intros Heq. apply Hi, elem_of_app. right.
        revert Hqin. now rewrite <- Heq.
    + apply lookup_alter_frame.
      * apply Hh. simpl. right. rewrite flat_map_app. apply elem_of_app. now left.
      * intros Heq. apply (Hdisj x.1); [|now rewrite Heq].
        apply list_elem_of_fmap. eauto.
    + apply (IH k0 (Some i) q); [|exact Hnd0|exact Hq|exact Hx].
      eapply holds_kid; [exact Hh|]. apply elem_of_app. right. left.
Qed.

Lemma Tracks_root s t prev : Tracks s t prev → lid t = 0.
Proof.
  intros [_ Hids _]. destruct t as [i c ks]. simpl in *.
  destruct (length (TSM.store s)); simpl in Hids; congruence.
Qed.

Lemma addLine_render s v c :
  visible c = true →
  TSM.addLine s (render (v, c)) =
    (node' ←R
       (if v =? 0 then Ok (setParent (Some 0) (mkLineInfo c [] None))
        else if v =? TSM.currentLevel s then
          Ok (setParent (parentOf (TSM.store s) (TSM.currentNode s)) (mkLineInfo c [] None))
        else if v =? TSM.currentLevel s + 1 then
          Ok (setParent (Some (TSM.currentNode s)) (mkLineInfo c [] None))
        else if v <? TSM.currentLevel s then
          cur ←R TSM.walkBack (TSM.store s) (TSM.currentLevel s - v) (TSM.currentNode s);
          Ok (setParent (parentOf (TSM.store s) cur) (mkLineInfo c [] None))
        else Err (InvalidLineLevel (render (v, c))));
     match parent node' with
     | None => Err MissingParent
     | Some p =>
         Ok (TSM.mkBuildState
               (alter (pushChild (length (TSM.store s))) p (TSM.store s ++ [node']))
               (length (TSM.store s)) v)
     end).
Proof.
  intros Hv. unfold TSM.addLine, render. cbn [fst snd].
  rewrite (lineMatch_spaces _ _ Hv), length_repeat.
  replace (2 * v) with (v * 2) by lia.
  rewrite Nat.Div0.mod_mul, Nat.div_mul by lia. reflexivity.
Qed.

(** The parent the builder picks is the node at depth [v] of the
    rightmost path. *)
Lemma addLine_step s t prev v c :
  Tracks s t prev → visible c = true → levelOk prev v = true →
  ∃ s', TSM.addLine s (render (v, c)) = Ok s' ∧
        Tracks s' (addAt v (LNode (length (TSM.store s)) c []) t) (Some v) ∧
        ∃ q, rnode v t = Some q.
Proof.
  intros Htr Hvis Hlev. pose proof (Tracks_root _ _ _ Htr) as Hroot.
  destruct Htr as [Hh Hids Hpos].
  assert (Hq : ∃ q, rnode v t = Some q ∧
    (if v =? 0 then Ok (setParent (Some 0) (mkLineInfo c [] None))
     else if v =? TSM.currentLevel s then
       Ok (setParent (parentOf (TSM.store s) (TSM.currentNode s)) (mkLineInfo c [] None))
     else if v =? TSM.currentLevel s + 1 then
       Ok (setParent (Some (TSM.currentNode s)) (mkLineInfo c [] None))
     else if v <? TSM.currentLevel s then
       cur ←R TSM.walkBack (TSM.store s) (TSM.currentLevel s - v) (TSM.currentNode s);
       Ok (setParent (parentOf (TSM.store s) cur) (mkLineInfo c [] None))
     else Err (InvalidLineLevel (render (v, c))))
    = Ok (mkLineInfo c [] (Some (lid q)))).
  { destruct (v =? 0) eqn:E0.
    { apply Nat.eqb_eq in E0 as ->. exists t. now rewrite Hroot. }
    apply Nat.eqb_neq in E0.
    destruct prev as [L|]; simpl in Hlev; [|apply Nat.eqb_eq in Hlev; congruence].
    destruct Hpos as (HL & cc & Hcur). apply Nat.leb_le in Hlev. rewrite HL.
    assert (Hle : v ≤ S L) by lia.
    destruct (rnode_le _ v _ _ Hle Hcur) as (q & Hq). exists q. split; [exact Hq|].
    destruct (v =? L) eqn:E1.
    { apply Nat.eqb_eq in E1 as ->.
      pose proof (parentOf_rnode _ _ _ _ _ _ Hh Hcur Hq) as Hp. simpl in Hp.
      now rewrite Hp. }
    apply Nat.eqb_neq in E1.
    destruct (v =? L + 1) eqn:E2.
    { apply Nat.eqb_eq in E2 as ->. replace (L + 1) with (S L) in Hq by lia.
      rewrite Hq in Hcur. now injection Hcur as ->. }
    apply Nat.eqb_neq in E2.
    assert (Hlt : v < L) by lia. apply Nat.ltb_lt in Hlt as Hlt'. rewrite Hlt'.
    assert (Hle' : S v ≤ S L) by lia.
    destruct (rnode_le _ (S v) _ _ Hle' Hcur) as (x & Hx).
    assert (Hcur' : rnode (S v + (L - v)) t = Some (LNode (TSM.currentNode s) cc []))
      by (replace (S v + (L - v)) with (S L) by lia; exact Hcur).
    pose proof (walkBack_rnode _ _ _ _ Hh _ _ _ Hcur' Hx) as Hw. simpl in Hw.
    rewrite Hw. simpl. now rewrite (parentOf_rnode _ _ _ _ _ _ Hh Hx Hq). }
  destruct Hq as (q & Hq & Hsel).
  rewrite (addLine_render _ _ _ Hvis), Hsel. simpl.
  eexists. split; [reflexivity|]. split; [|eauto].
  constructor; simpl.
  - apply store_addAt; [exact Hh | rewrite Hids; apply NoDup_seq | exact Hq].
  - rewrite (ids_addAt _ _ _ _ _ Hq), Hids. simpl.
    rewrite length_alter, length_app, Nat.add_1_r, seq_S. reflexivity.
  - split; [reflexivity|]. exists c. eapply rnode_addAt; eauto.
Qed.

Lemma build_tracks ls :
  ∀ s t prev,
    Tracks s t prev →
    Forall (fun l => visible l.2 = true) ls →
    levelsOk prev ls.*1 = true →
    ∃ s' t' prev',
      forEachR TSM.addLine (map render ls) s = Ok s' ∧
      Tracks s' t' prev' ∧
      traversal (erase t') = traversal (erase t) ++ ls.
Proof.
  induction ls as [|[v c] ls IH]; intros s t prev Htr Hvis Hlev.
  - exists s, t, prev. simpl. now rewrite app_nil_r.
  - apply Forall_cons in Hvis as [Hc Hvis]. simpl in Hc.
    simpl in Hlev. apply andb_prop in Hlev as [Hv Hlev].
    destruct (addLine_step _ _ _ _ _ Htr Hc Hv) as (s1 & Hs1 & Htr1 & q & Hq).
    destruct (IH _ _ _ Htr1 Hvis Hlev) as (s' & t' & prev' & Hrun & Htr' & Htrav).
    exists s', t', prev'. split; [|split; [exact Htr'|]].
    + simpl. rewrite Hs1. exact Hrun.
    + rewrite Htrav, (traversal_addAt _ _ _ _ Hq). simpl.
      now rewrite <- app_assoc.
Qed.

Lemma treeOf_tracks s t prev : Tracks s t prev → treeOf (TSM.store s) = erase t.
Proof.
  intros Htr. pose proof (Tracks_root _ _ _ Htr) as Hroot.
  destruct Htr as [Hh Hids _]. unfold treeOf. rewrite <- Hroot.
  apply (toTree_erase _ _ None); [exact Hh|].
  rewrite <- (length_fmap fst), Hids, length_seq. lia.
Qed.

Lemma Tracks_initial : Tracks (TSM.mkBuildState [rootNode] 0 0) (LNode 0 "" []) None.
Proof.
  constructor; simpl; [|reflexivity|exact I].
  intros x Hx. apply list_elem_of_singleton in Hx as ->. reflexivity.
Qed.

(** C1 (amended): the TSM tree builder on indentation-consistent lines.
    For lines made of [2 * level] spaces and a visible content, the
    first at level 0 and each at most one level deeper than the line
    before it, [createTree] returns a tree, and the depth-first
    traversal of that tree below the root lists the contents in the
    order of the lines, each at the depth of its level. *)
Theorem tsm_createTree_traversal (ls : list (nat * string)) :
  Forall (fun l => visible l.2 = true) ls →
  levelsOk None ls.*1 = true →
  ∃ t, TSM.createTree (map render ls) = Ok t ∧ traversal t = ls.
Proof.
  intros Hvis Hlev.
  destruct (build_tracks ls _ _ _ Tracks_initial Hvis Hlev)
    as (s' & t' & prev' & Hrun & Htr & Htrav).
  exists (erase t'). unfold TSM.createTree, TSM.build. rewrite Hrun. simpl.
  rewrite (treeOf_tracks _ _ _ Htr). split; [reflexivity|exact Htrav].
Qed.

Lemma tsm_createTree_traversal_witness :
  ∃ t, TSM.createTree ["a"; "  b"; "    c"; "  d"; "e"] = Ok t ∧
       traversal t = [(0, "a"); (1, "b"); (2, "c"); (1, "d"); (0, "e")].
Proof.
  apply (tsm_createTree_traversal [(0, "a"); (1, "b"); (2, "c"); (1, "d"); (0, "e")]);
    [repeat constructor | reflexivity].
Defined.

(** C1 as stated fails for the Blizzard tree builder, which groups
    lines under headings and ignores indentation: the single line
    [Stack: a] becomes a heading node [Stack:] with the child [a]. *)
Lemma blizzard_createTree_counterexample :
  Forall (fun l => visible l.2 = true) [(0, "Stack: a")] ∧
  levelsOk None [(0, "Stack: a")].*1 = true ∧
  Blizzard.createTree (map render [(0, "Stack: a")])
    = Ok (Node "" [Node "Stack:" [Node "a" []]]) ∧
  ¬ ∃ t, Blizzard.createTree (map render [(0, "Stack: a")]) = Ok t ∧
         traversal t = [(0, "Stack: a")].
Proof.
  assert (H : Blizzard.createTree (map render [(0, "Stack: a")])
              = Ok (Node "" [Node "Stack:" [Node "a" []]])) by (vm_compute; reflexivity).
  split; [repeat constructor|]. split; [reflexivity|]. split; [exact H|].
  intros (t & Ht & Htrav). rewrite H in Ht. injection Ht as <-. discriminate Htrav.
Qed.

(** Outside the amended C1: a first line at level 1 is accepted and
    hung below the root like a line at level 0 (the builder starts
    with [currentLevel = 0]), and a line of two spaces, whose level
    would be 1, is refused (the line pattern finds one space). *)
Lemma tsm_createTree_edge_cases :
  TSM.createTree ["  a"] = Ok (Node "" [Node "a" []]) ∧
  TSM.createTree ["a"; "  "] = Err (InvalidIndentation 1).
Proof. vm_compute. split; reflexivity. Qed.

(** ** The TSM tree builder: refused inputs *)

Lemma forEachR_app {A S} (body : S → A → Result S) (l1 l2 : list A) (s : S) :
  forEachR body (l1 ++ l2) s = (s1 ←R forEachR body l1 s; forEachR body l2 s1).
Proof.
  revert s. induction l1 as [|x l1 IH]; intros s; [reflexivity|].
  simpl. destruct (body s x); simpl; auto.
Qed.

(** Every failure of the builder is a [MalformedIndentation]. *)
Lemma tsm_addLine_error_kind s line e :
  TSM.addLine s line = Err e → errorKind e = MalformedIndentation.
Proof.
  unfold TSM.addLine. destruct (TSM.lineMatch line) as [[spaces c]|]; [|now intros [= <-]].
  destruct (negb _); [now intros [= <-]|].
  assert (Hw : ∀ st k cur e', TSM.walkBack st k cur = Err e' → e' = MissingParent).
  { intros st k. induction k as [|k IH]; intros cur e'; simpl; [discriminate|].
    destruct (parentOf st cur); [apply IH|now intros [= <-]]. }
  repeat match goal with
         | |- context [if ?b then _ else _] => destruct b
         end; simpl;
    try (destruct (parentOf _ _); simpl; now intros [= <-]);
    try (now intros [= <-]).
  destruct (TSM.walkBack _ _ _) eqn:E; simpl.
  - destruct (parentOf _ _); simpl; now intros [= <-].
  - apply Hw in E as ->. now intros [= <-].
Qed.

Lemma tsm_build_error_kind lines s e :
  forEachR TSM.addLine lines s = Err e → errorKind e = MalformedIndentation.
Proof.
  revert s. induction lines as [|l lines IH]; intros s; simpl; [discriminate|].
  destruct (TSM.addLine s l) eqn:E; simpl; [apply IH|].
  intros [= <-]. eapply tsm_addLine_error_kind; eauto.
Qed.

(** A failing line makes the whole input fail. *)
Lemma tsm_createTree_fails pre line post :
  (∀ s, forEachR TSM.addLine pre (TSM.mkBuildState [rootNode] 0 0) = Ok s →
        ∃ e, TSM.addLine s line = Err e) →
  ∃ e, TSM.createTree (pre ++ line :: post) = Err e ∧
       errorKind e = MalformedIndentation.
Proof.
  intros H. unfold TSM.createTree, TSM.build. rewrite forEachR_app.
  destruct (forEachR TSM.addLine pre _) as [s|e] eqn:E; simpl.
  - destruct (H s eq_refl) as (e & He). rewrite He. simpl.
    exists e. split; [reflexivity|]. eapply tsm_addLine_error_kind; eauto.
  - exists e. split; [reflexivity|]. eapply tsm_build_error_kind; eauto.
Qed.

(** An odd number of spaces before a visible content is refused,
    wherever the line stands. *)
Lemma tsm_odd_indentation_fails pre post n c :
  visible c = true → Nat.Odd n →
  ∃ e, TSM.createTree (pre ++ (Str.repeat " " n +:+ c) :: post) = Err e ∧
       errorKind e = MalformedIndentation.
Proof.
  intros Hv Hodd. apply tsm_createTree_fails. intros s _.
  exists (InvalidIndentation n). unfold TSM.addLine.
  rewrite (lineMatch_spaces _ _ Hv), length_repeat.
  destruct Hodd as [m ->]. replace (2 * m + 1) with (1 + m * 2) by lia.
  rewrite Nat.Div0.mod_add. reflexivity.
Qed.

Lemma tsm_addLine_level s v c s' :
  visible c = true → TSM.addLine s (render (v, c)) = Ok s' → TSM.currentLevel s' = v.
Proof.
  intros Hv. rewrite (addLine_render _ _ _ Hv).
  destruct (if v =? 0 then _ else _) as [node'|]; simpl; [|discriminate].
  destruct (parent node'); [|discriminate]. now intros [= <-].
Qed.

(** A line more than one level deeper than the line before it is
    refused. *)
Lemma tsm_indent_jump_fails pre post u cu v c :
  visible cu = true → visible c = true → u + 1 < v →
  ∃ e, TSM.createTree ((pre ++ [render (u, cu)]) ++ render (v, c) :: post) = Err e ∧
       errorKind e = MalformedIndentation.
Proof.
  intros Hcu Hc Hjump. apply tsm_createTree_fails. intros s Hs.
  rewrite forEachR_app in Hs.
  destruct (forEachR TSM.addLine pre _) as [s0|]; simpl in Hs; [|discriminate].
  destruct (TSM.addLine s0 (render (u, cu))) as [s1|] eqn:E1; simpl in Hs; [|discriminate].
  injection Hs as ->. apply (tsm_addLine_level _ _ _ _ Hcu) in E1.
  exists (InvalidLineLevel (render (v, c))). rewrite (addLine_render _ _ _ Hc), E1.
  destruct (v =? 0) eqn:E; [apply Nat.eqb_eq in E; lia|].
  destruct (v =? u) eqn:E'; [apply Nat.eqb_eq in E'; lia|].
  destruct (v =? u + 1) eqn:E''; [apply Nat.eqb_eq in E''; lia|].
  destruct (v <? u) eqn:E'''; [apply Nat.ltb_lt in E'''; lia|]. reflexivity.
Qed.

(** C4: a line that consists of one space has an odd number of leading
    spaces, and the builder accepts it: the line pattern gives the
    space to the content and finds an indentation of zero. *)
Theorem tsm_blank_line_accepted :
  TSM.lineMatch " " = Some (EmptyString, " ") ∧
  TSM.createTree [" "] = Ok (Node "" [Node " " []]) ∧
  TSM.createTree ["a"; "   "] = Ok (Node "" [Node "a" [Node " " []]]).
Proof. vm_compute. repeat split. Qed.

(** ** The value rules of [parseLocalVar] *)

Lemma parseLocalVar_unfold content children :
  TSM.parseLocalVar (Node content children) =
  match TSM.nameValueMatch content with
  | None => Ok None
  | Some (name, value) =>
      match TSM.strValueMatch value with
      | Some str => Ok (Some (TSM.mkLocalInfo name (VStr str) "string"))
      | None =>
          if Str.eqb (Str.take 10 value) "<function>" then
            Ok (Some (TSM.mkLocalInfo name (VStr value) "function"))
          else if Str.eqb (Str.take 1 value) "{" then
            tbl ←R tblValue children; Ok (Some (TSM.mkLocalInfo name tbl "table"))
          else if bool_decide (TSM.tonumber value ≠ None) then
            Ok (Some (TSM.mkLocalInfo name (VNum (Num.parseFloat value)) "number"))
          else if Str.eqb value "nil" then
            Ok (Some (TSM.mkLocalInfo name VNull "nil"))
          else if Str.eqb (Str.takeLast 2 value) "{}"
                  || Str.eqb (Str.takeLast 1 value) "{" then
            tbl ←R tblValue children;
            Ok (Some (TSM.mkLocalInfo name tbl
                        match TSM.tblNameMatch content with
                        | Some tblName => "table<" +:+ tblName +:+ ">"
                        | None => "table"
                        end))
          else if Str.eqb value "<userdata>" then
            Ok (Some (TSM.mkLocalInfo name (VStr value) "userdata"))
          else if Str.eqb value "true" || Str.eqb value "false" then
            Ok (Some (TSM.mkLocalInfo name (VBool (Str.eqb value "true")) "boolean"))
          else if Str.eqb value "Infinite" then
            Ok (Some (TSM.mkLocalInfo name (VNum (Inf false)) "number"))
          else Err (UnknownLocal content)
      end
  end.
Proof.
  assert (Hm : ∀ cs tbl,
    (fix members (cs : list Tree) (tbl : list (string * JSVal)) : Result JSVal :=
       match cs with
       | [] => Ok (VObj tbl)
       | childNode :: cs' =>
           info ←R TSM.parseLocalVar childNode;
           match info with
           | Some i => members cs'
                         (Obj.set (TSM.memberKey (TSM.lname i)) (TSM.lvalue i) tbl)
           | None => members cs' tbl
           end
       end) cs tbl
    = (t ←R forEachR addMember cs tbl; Ok (VObj t))).
  { induction cs as [|c cs IH]; intros tbl; [reflexivity|].
    simpl forEachR. unfold addMember at 1.
    destruct (TSM.parseLocalVar c) as [[i|]|e]; simpl; try apply IH. reflexivity. }
  simpl. unfold tblValue. rewrite Hm. reflexivity.
Qed.

(** C2 as stated fails: the number rule is tried before the rule for
    values that end with an opening brace, so the value [1 {] decodes
    as the number 1. *)
Lemma parseLocalVar_brace_counterexample :
  TSM.nameValueMatch "x = 1 {" = Some ("x", "1 {") ∧
  Str.endsWith "{" "1 {" = true ∧
  TSM.parseLocalVar (Node "x = 1 {" [])
    = Ok (Some (TSM.mkLocalInfo "x" (VNum (Fin 1 0)) "number")) ∧
  ¬ ∃ i, TSM.parseLocalVar (Node "x = 1 {" []) = Ok (Some i) ∧
         Str.startsWith "table" (TSM.ltype i) = true.
Proof.
  assert (H : TSM.parseLocalVar (Node "x = 1 {" [])
              = Ok (Some (TSM.mkLocalInfo "x" (VNum (Fin 1 0)) "number")))
    by (vm_compute; reflexivity).
  split; [vm_compute; reflexivity|]. split; [vm_compute; reflexivity|].
  split; [exact H|]. intros (i & Hi & Ht). rewrite H in Hi. injection Hi as <-.
  discriminate Ht.
Qed.

(** C2 (amended): the rules in the order of the code.  For a line
    [name = value] whose value holds no quoted part and does not start
    with [<function>]:
    - a value that starts with an opening brace is a table;
    - otherwise a value of which [parseFloat] reads a number is a
      number, whatever follows the number;
    - otherwise a value other than [nil] that ends with an opening
      brace or with a pair of braces is a table or a named table;
    and a number kind is only ever given to a value without quoted
    part, without [<function>] prefix and without leading opening
    brace. *)
Theorem parseLocalVar_rule_order content children name value :
  TSM.nameValueMatch content = Some (name, value) →
  (TSM.strValueMatch value = None →
   Str.take 10 value ≠ "<function>" →
   (Str.take 1 value = "{" →
      TSM.parseLocalVar (Node content children)
      = (tbl ←R tblValue children; Ok (Some (TSM.mkLocalInfo name tbl "table"))))
   ∧ (Str.take 1 value ≠ "{" → TSM.tonumber value ≠ None →
      TSM.parseLocalVar (Node content children)
      = Ok (Some (TSM.mkLocalInfo name (VNum (Num.parseFloat value)) "number")))
   ∧ (Str.take 1 value ≠ "{" → TSM.tonumber value = None → value ≠ "nil" →
      Str.takeLast 2 value = "{}" ∨ Str.takeLast 1 value = "{" →
      ∃ ty, (ty = "table" ∨ ∃ tblName, ty = "table<" +:+ tblName +:+ ">") ∧
        TSM.parseLocalVar (Node content children)
        = (tbl ←R tblValue children; Ok (Some (TSM.mkLocalInfo name tbl ty)))))
  ∧ (∀ i, TSM.parseLocalVar (Node content children) = Ok (Some i) →
          TSM.ltype i = "number" →
          TSM.strValueMatch value = None ∧ Str.take 10 value ≠ "<function>"
          ∧ Str.take 1 value ≠ "{").
Proof.
  intros Hnv. rewrite parseLocalVar_unfold, Hnv. unfold Str.eqb. split.
  - intros Hstr Hfun. rewrite Hstr, (bool_decide_eq_false_2 _ Hfun).
    split; [|split].
    + intros Hb. now rewrite (bool_decide_eq_true_2 _ Hb).
    + intros Hb Hn. now rewrite (bool_decide_eq_false_2 _ Hb), (bool_decide_eq_true_2 _ Hn).
    + intros Hb Hn Hnil Hend. rewrite (bool_decide_eq_false_2 _ Hb).
      rewrite bool_decide_eq_false_2 by (intros H; now apply H).
      rewrite (bool_decide_eq_false_2 _ Hnil).
      replace (bool_decide (Str.takeLast 2 value = "{}")
               || bool_decide (Str.takeLast 1 value = "{")) with true.
      * eexists. split; [|reflexivity].
        destruct (TSM.tblNameMatch content); eauto.
      * symmetry. apply orb_true_iff.
        destruct Hend as [H|H]; [left|right]; now apply bool_decide_eq_true_2.
  - intros i. destruct (TSM.strValueMatch value); [now intros [= <-]|].
    case_bool_decide; [now intros [= <-]|].
    case_bool_decide.
    + destruct (tblValue children); simpl; [now intros [= <-]|discriminate].
    + auto.
Qed.

Lemma parseLocalVar_rule_order_witness :
  TSM.parseLocalVar (Node "t = {" [Node "k = 2" []])
  = (tbl ←R tblValue [Node "k = 2" []]; Ok (Some (TSM.mkLocalInfo "t" tbl "table"))).
Proof.
  refine (proj1 (proj1 (parseLocalVar_rule_order "t = {" [Node "k = 2" []] "t" "{" _) _ _) _);
    vm_compute; (reflexivity || discriminate).
Defined.

(** ** The sections of a crash file *)

Lemma headingType_Some n ty :
  headingType n = Some ty ↔ ∃ rest, sectionMatch (text n) = Some (ty, rest).
Proof.
  unfold headingType. destruct (sectionMatch (text n)) as [[ty' rest]|]; simpl; split.
  - intros [= ->]. eauto.
  - intros (r & [= -> _]). reflexivity.
  - discriminate.
  - intros (r & H). discriminate.
Qed.

Lemma setErrMsg_id ci : setErrMsg (errMsg ci) ci = ci.
Proof. destruct ci; reflexivity. Qed.

(** What the two interpreters share: a [Message] heading overwrites
    the recorded message, and no other heading reads or writes it. *)
Section MessageHeadings.
Variable addHeading : CrashInfo → Tree → Result CrashInfo.

Hypothesis message_sets : ∀ ci n rest,
  sectionMatch (text n) = Some ("Message", rest) →
  addHeading ci n = Ok (setErrMsg (stripTSM rest) ci).

Hypothesis other_keeps : ∀ ci n x,
  headingType n ≠ Some "Message" →
  addHeading (setErrMsg x ci) n = (c ←R addHeading ci n; Ok (setErrMsg x c)).

Lemma other_errMsg ci n ci' :
  headingType n ≠ Some "Message" → addHeading ci n = Ok ci' → errMsg ci' = errMsg ci.
Proof.
  intros Hn H. pose proof (other_keeps ci n (errMsg ci) Hn) as Hk.
  rewrite setErrMsg_id, H in Hk. simpl in Hk. injection Hk as ->.
  reflexivity.
Qed.

Lemma others_errMsg post : ∀ ci ci',
  Forall (fun n => headingType n ≠ Some "Message") post →
  forEachR addHeading post ci = Ok ci' → errMsg ci' = errMsg ci.
Proof.
  induction post as [|n post IH]; intros ci ci' Hall H.
  - now injection H as <-.
  - apply Forall_cons in Hall as [Hn Hall]. simpl in H.
    destruct (addHeading ci n) as [c|] eqn:E; simpl in H; [|discriminate].
    rewrite (IH _ _ Hall H). eapply other_errMsg; eauto.
Qed.

(** After the last [Message] heading the message is its content. *)
Lemma last_message pre h post rest ci :
  sectionMatch (text h) = Some ("Message", rest) →
  Forall (fun n => headingType n ≠ Some "Message") post →
  forEachR addHeading (pre ++ h :: post) emptyCrashInfo = Ok ci →
  errMsg ci = stripTSM rest.
Proof.
  intros Hh Hpost H. rewrite forEachR_app in H.
  destruct (forEachR addHeading pre emptyCrashInfo) as [c|]; simpl in H; [|discriminate].
  rewrite (message_sets _ _ _ Hh) in H. simpl in H.
  now rewrite (others_errMsg _ _ _ Hpost H).
Qed.

(** A recorded message is forgotten at the next [Message] heading. *)
Lemma message_forgotten mid h post rest : ∀ ci x,
  sectionMatch (text h) = Some ("Message", rest) →
  forEachR addHeading (mid ++ h :: post) (setErrMsg x ci)
  = forEachR addHeading (mid ++ h :: post) ci.
Proof.
  induction mid as [|n mid IH]; intros ci x Hh; simpl.
  - rewrite !(message_sets _ _ _ Hh). reflexivity.
  - destruct (decide (headingType n = Some "Message")) as [Hn|Hn].
    + apply headingType_Some in Hn as (r & Hn).
      rewrite !(message_sets _ _ _ Hn). reflexivity.
    + rewrite (other_keeps _ _ _ Hn).
      destruct (addHeading ci n) as [c|e]; simpl; [now apply IH|reflexivity].
Qed.

(** An earlier [Message] heading leaves no trace in the result. *)
Lemma earlier_message_dropped pre m mid h post rest rest' :
  sectionMatch (text m) = Some ("Message", rest') →
  sectionMatch (text h) = Some ("Message", rest) →
  forEachR addHeading (pre ++ m :: mid ++ h :: post) emptyCrashInfo
  = forEachR addHeading (pre ++ mid ++ h :: post) emptyCrashInfo.
Proof.
  intros Hm Hh. rewrite !forEachR_app.
  destruct (forEachR addHeading pre emptyCrashInfo) as [c|]; simpl; [|reflexivity].
  rewrite (message_sets _ _ _ Hm). simpl. now apply message_forgotten with rest.
Qed.
End MessageHeadings.

Lemma sectionMatch_type n ty rest :
  sectionMatch (text n) = Some (ty, rest) → headingType n = Some ty.
Proof. intros H. apply headingType_Some. eauto. Qed.

Lemma tsm_message_sets ci n rest :
  sectionMatch (text n) = Some ("Message", rest) →
  TSM.addHeading ci n = Ok (setErrMsg (stripTSM rest) ci).
Proof. intros H. unfold TSM.addHeading. now rewrite H. Qed.

Lemma tsm_addFrame_keeps ci f x :
  TSM.addFrame (setErrMsg x ci) f = (c ←R TSM.addFrame ci f; Ok (setErrMsg x c)).
Proof.
  unfold TSM.addFrame. destruct (TSM.frameMatch (text f)) as [[loc nm]|]; [|reflexivity].
  destruct (TSM.locationMatch loc) as [[fl ln]|];
    destruct (forEachR TSM.addLocal (kids f) []); reflexivity.
Qed.

Lemma tsm_addFrames_keeps fs : ∀ ci x,
  forEachR TSM.addFrame fs (setErrMsg x ci)
  = (c ←R forEachR TSM.addFrame fs ci; Ok (setErrMsg x c)).
Proof.
  induction fs as [|f fs IH]; intros ci x; [reflexivity|].
  simpl. rewrite tsm_addFrame_keeps.
  destruct (TSM.addFrame ci f); simpl; [apply IH|reflexivity].
Qed.

Lemma tsm_other_keeps ci n x :
  headingType n ≠ Some "Message" →
  TSM.addHeading (setErrMsg x ci) n
  = (c ←R TSM.addHeading ci n; Ok (setErrMsg x c)).
Proof.
  intros Hn. unfold TSM.addHeading.
  destruct (sectionMatch (text n)) as [[ty rest]|] eqn:E; [|reflexivity].
  apply sectionMatch_type in E. unfold Str.eqb. case_bool_decide; [congruence|].
  repeat (case_bool_decide || destruct (TSM.inTable _ _));
    try reflexivity; apply tsm_addFrames_keeps.
Qed.

Lemma blizzard_message_sets ci n rest :
  sectionMatch (text n) = Some ("Message", rest) →
  Blizzard.addHeading ci n = Ok (setErrMsg (stripTSM rest) ci).
Proof. intros H. unfold Blizzard.addHeading. now rewrite H. Qed.

Lemma blizzard_addFrames_keeps addonPath fs : ∀ ci x,
  Blizzard.addFrames addonPath fs (setErrMsg x ci)
  = (c ←R Blizzard.addFrames addonPath fs ci; Ok (setErrMsg x c)).
Proof.
  induction fs as [|f fs IH]; intros ci x; [reflexivity|].
  simpl. destruct (Str.eqb (text f) "..."); [reflexivity|].
  destruct (Blizzard.frameMatch (text f)) as [[[loc ln] nm]|]; [|reflexivity].
  apply (IH (pushFrame _ ci)).
Qed.

Lemma blizzard_other_keeps ci n x :
  headingType n ≠ Some "Message" →
  Blizzard.addHeading (setErrMsg x ci) n
  = (c ←R Blizzard.addHeading ci n; Ok (setErrMsg x c)).
Proof.
  intros Hn. unfold Blizzard.addHeading.
  destruct (sectionMatch (text n)) as [[ty rest]|] eqn:E; [|reflexivity].
  apply sectionMatch_type in E. unfold Str.eqb. case_bool_decide; [congruence|].
  repeat case_bool_decide; try reflexivity.
  unfold Blizzard.addStack. destruct (kids n) as [|first others]; [reflexivity|].
  destruct (Blizzard.firstStackFrameMatch _) as [[[ap fp] fl]|]; [|reflexivity].
  apply (blizzard_addFrames_keeps ap others (pushFrame _ ci)).
Qed.

(** C10 (amended): several [Message] headings.  For both
    interpreters, an earlier [Message] heading is overwritten by a
    later one: the interpretation gives what it gives without the
    earlier heading, so that the repetition itself causes no failure,
    and the message of a result is the content of the last [Message]
    heading without the path prefix. *)
Theorem last_message_wins root pre m mid h post rest rest' :
  sectionMatch (text m) = Some ("Message", rest') →
  sectionMatch (text h) = Some ("Message", rest) →
  Forall (fun n => headingType n ≠ Some "Message") post →
  (TSM.getCrashInfo (Node root (pre ++ m :: mid ++ h :: post))
   = TSM.getCrashInfo (Node root (pre ++ mid ++ h :: post))
   ∧ ∀ ci, TSM.getCrashInfo (Node root (pre ++ m :: mid ++ h :: post)) = Ok ci →
           errMsg ci = stripTSM rest)
  ∧
  (Blizzard.getCrashInfo (Node root (pre ++ m :: mid ++ h :: post))
   = Blizzard.getCrashInfo (Node root (pre ++ mid ++ h :: post))
   ∧ ∀ ci, Blizzard.getCrashInfo (Node root (pre ++ m :: mid ++ h :: post)) = Ok ci →
           errMsg ci = stripTSM rest).
Proof.
  intros Hm Hh Hpost. split; split.
  - unfold TSM.getCrashInfo. simpl kids.
    now rewrite (earlier_message_dropped _ tsm_message_sets tsm_other_keeps
                   pre m mid h post rest rest' Hm Hh).
  - unfold TSM.getCrashInfo. simpl kids. intros ci H.
    destruct (forEachR TSM.addHeading _ _) as [c|] eqn:E; simpl in H; [|discriminate].
    destruct (Str.eqb (errMsg c) EmptyString); [discriminate|].
    destruct (length (frames c) =? 0); [discriminate|]. injection H as <-.
    change (pre ++ m :: mid ++ h :: post) with (pre ++ (m :: mid) ++ h :: post) in E.
    rewrite app_assoc in E.
    exact (last_message _ tsm_message_sets tsm_other_keeps _ _ _ _ _ Hh Hpost E).
  - unfold Blizzard.getCrashInfo. simpl kids.
    exact (earlier_message_dropped _ blizzard_message_sets blizzard_other_keeps
             pre m mid h post rest rest' Hm Hh).
  - unfold Blizzard.getCrashInfo. simpl kids. intros ci E.
    change (pre ++ m :: mid ++ h :: post) with (pre ++ (m :: mid) ++ h :: post) in E.
    rewrite app_assoc in E.
    exact (last_message _ blizzard_message_sets blizzard_other_keeps _ _ _ _ _ Hh Hpost E).
Qed.

Lemma last_message_wins_witness :
  TSM.getCrashInfo
    (Node "" [Node "Message: first" []; Node "Time: now" [];
              Node "Message: TSM/second" [];
              Node "Stack Trace:" [Node "TSM/Foo.lua:10 <f>" []]])
  = Ok (mkCrashInfo "second"
          [mkFrameInfo (Some "f") (Some "Foo.lua") (Some (Fin 10 0)) (Some "TSM/Foo.lua:10") []] [])
  ∧ ∀ ci, Blizzard.getCrashInfo
            (Node "" [Node "Message: first" []; Node "Locals:" [];
                      Node "Message: TSM/second" [];
                      Node "Stack:" [Node "Interface/AddOns/Foo/Core.lua:12: boom" []]])
          = Ok ci → errMsg ci = "second".
Proof.
  split; [vm_compute; reflexivity|].
  refine (proj2 (proj2 (last_message_wins ""
            [] (Node "Message: first" []) [Node "Locals:" []]
            (Node "Message: TSM/second" [])
            [Node "Stack:" [Node "Interface/AddOns/Foo/Core.lua:12: boom" []]]
            "TSM/second" "first" _ _ _)));
    [vm_compute; reflexivity | vm_compute; reflexivity |].
  repeat constructor; vm_compute; discriminate.
Defined.

(** C10 as stated fails for the TSM interpreter: the interpretation
    of a file with two [Message] headings fails when the last one is
    empty, because the empty message overwrites the first and a result
    without a message is refused; with the first heading alone the
    file is interpreted. *)
Lemma last_message_counterexample :
  TSM.parse ["Message: first"; "Message:"; "Stack Trace:"; "  TSM/Foo.lua:10 <f>"]
  = Err NoErrorMessage ∧
  TSM.parse ["Message: first"; "Stack Trace:"; "  TSM/Foo.lua:10 <f>"]
  = Ok (mkCrashInfo "first"
          [mkFrameInfo (Some "f") (Some "Foo.lua") (Some (Fin 10 0))
             (Some "TSM/Foo.lua:10") []] []).
Proof. vm_compute. split; reflexivity. Qed.

(** ** The debug log of a TSM crash file *)

Lemma tsm_addFrames_logLines fs : ∀ ci ci',
  forEachR TSM.addFrame fs ci = Ok ci' → logLines ci' = logLines ci.
Proof.
  induction fs as [|f fs IH]; intros ci ci' H; [now injection H as <-|].
  simpl in H. destruct (TSM.addFrame ci f) as [c|] eqn:E; simpl in H; [|discriminate].
  rewrite (IH _ _ H). unfold TSM.addFrame in E.
  destruct (TSM.frameMatch (text f)) as [[loc nm]|]; [|discriminate].
  destruct (TSM.locationMatch loc) as [[fl ln]|];
    destruct (forEachR TSM.addLocal (kids f) []); simpl in E;
    try discriminate; now injection E as <-.
Qed.

Lemma tsm_other_logLines ci n ci' :
  headingType n ≠ Some "Debug Log" →
  TSM.addHeading ci n = Ok ci' → logLines ci' = logLines ci.
Proof.
  intros Hn. unfold TSM.addHeading.
  destruct (sectionMatch (text n)) as [[ty rest]|] eqn:E; [|discriminate].
  apply sectionMatch_type in E. unfold Str.eqb.
  case_bool_decide; [now intros [= <-]|].
  case_bool_decide; [apply tsm_addFrames_logLines|].
  case_bool_decide; [congruence|].
  destruct (TSM.inTable _ _); [now intros [= <-]|discriminate].
Qed.

Lemma tsm_others_logLines post : ∀ ci ci',
  Forall (fun n => headingType n ≠ Some "Debug Log") post →
  forEachR TSM.addHeading post ci = Ok ci' → logLines ci' = logLines ci.
Proof.
  induction post as [|n post IH]; intros ci ci' Hall H; [now injection H as <-|].
  apply Forall_cons in Hall as [Hn Hall]. simpl in H.
  destruct (TSM.addHeading ci n) as [c|] eqn:E; simpl in H; [|discriminate].
  rewrite (IH _ _ Hall H). eapply tsm_other_logLines; eauto.
Qed.

(** C8: the log lines of a TSM crash file are the contents of the
    children of its [Debug Log] heading (the last one, should there be
    several) in reverse order. *)
Theorem tsm_logLines_reversed root pre h post rest ci :
  sectionMatch (text h) = Some ("Debug Log", rest) →
  Forall (fun n => headingType n ≠ Some "Debug Log") post →
  TSM.getCrashInfo (Node root (pre ++ h :: post)) = Ok ci →
  logLines ci = reverse (map text (kids h)).
Proof.
  intros Hh Hpost H. unfold TSM.getCrashInfo in H. simpl kids in H.
  destruct (forEachR TSM.addHeading _ _) as [c|] eqn:E; simpl in H; [|discriminate].
  destruct (Str.eqb (errMsg c) EmptyString); [discriminate|].
  destruct (length (frames c) =? 0); [discriminate|]. injection H as <-.
  rewrite forEachR_app in E.
  destruct (forEachR TSM.addHeading pre emptyCrashInfo) as [c0|]; simpl in E; [|discriminate].
  unfold TSM.addHeading at 1 in E. rewrite Hh in E. simpl in E.
  rewrite (tsm_others_logLines _ _ _ Hpost E). simpl.
  apply (fmap_reverse text).
Qed.

Lemma tsm_logLines_reversed_witness :
  TSM.getCrashInfo
    (Node "" [Node "Message: boom" [];
              Node "Debug Log:" [Node "newest" []; Node "older" []; Node "oldest" []];
              Node "Stack Trace:" [Node "TSM/Foo.lua:10 <f>" []]])
  = Ok (mkCrashInfo "boom"
          [mkFrameInfo (Some "f") (Some "Foo.lua") (Some (Fin 10 0)) (Some "TSM/Foo.lua:10") []]
          ["oldest"; "older"; "newest"])
  ∧ logLines (mkCrashInfo "boom"
          [mkFrameInfo (Some "f") (Some "Foo.lua") (Some (Fin 10 0)) (Some "TSM/Foo.lua:10") []]
          ["oldest"; "older"; "newest"])
    = reverse (map text [Node "newest" []; Node "older" []; Node "oldest" []]).
Proof.
  assert (H : TSM.getCrashInfo
    (Node "" [Node "Message: boom" [];
              Node "Debug Log:" [Node "newest" []; Node "older" []; Node "oldest" []];
              Node "Stack Trace:" [Node "TSM/Foo.lua:10 <f>" []]])
  = Ok (mkCrashInfo "boom"
          [mkFrameInfo (Some "f") (Some "Foo.lua") (Some (Fin 10 0)) (Some "TSM/Foo.lua:10") []]
          ["oldest"; "older"; "newest"])) by (vm_compute; reflexivity).
  split; [exact H|].
  refine (tsm_logLines_reversed "" [Node "Message: boom" []]
            (Node "Debug Log:" [Node "newest" []; Node "older" []; Node "oldest" []])
            [Node "Stack Trace:" [Node "TSM/Foo.lua:10 <f>" []]] "" _ _ _ H);
    [vm_compute; reflexivity|].
  repeat constructor; vm_compute; discriminate.
Defined.

(** ** Incomplete results *)

(** The TSM interpreter never returns a result without a message or
    without frames: both ends are [IncompleteCrashInfo] failures. *)
Lemma tsm_getCrashInfo_complete tree :
  match TSM.getCrashInfo tree with
  | Ok ci => errMsg ci ≠ EmptyString ∧ frames ci ≠ []
  | Err e =>
      ∀ ci, forEachR TSM.addHeading (kids tree) emptyCrashInfo = Ok ci →
            (errMsg ci = EmptyString ∨ frames ci = []) ∧ errorKind e = IncompleteCrashInfo
  end.
Proof.
  unfold TSM.getCrashInfo.
  destruct (forEachR TSM.addHeading (kids tree) emptyCrashInfo) as [c|e]; simpl;
    [|discriminate].
  unfold Str.eqb. case_bool_decide as Hm.
  - intros ci [= <-]. auto.
  - destruct (frames c) as [|f fs] eqn:Hf; simpl.
    + intros ci [= <-]. auto.
    + split; [exact Hm|]. rewrite Hf. discriminate.
Qed.

(** C3: the Blizzard interpreter has no such check.  A crash file with
    a message and no [Stack] section is returned with zero frames, and
    an empty file is returned with an empty message. *)
Theorem blizzard_incomplete_accepted :
  Blizzard.parse ["Message: boom"] = Ok (mkCrashInfo "boom" [] []) ∧
  Blizzard.getCrashInfo (Node "" [Node "Message: boom" []])
    = Ok (mkCrashInfo "boom" [] []) ∧
  Blizzard.parse [] = Ok (mkCrashInfo "" [] []) ∧
  TSM.parse ["Message: boom"] = Err NoFrames ∧
  TSM.parse [] = Err NoErrorMessage.
Proof. vm_compute. repeat split. Qed.

(** ** The variable reference registry *)

Lemma issued_above restart bound ops : ∀ h,
  bound < restart → bound < nextHandle h →
  Forall (fun k => bound < k) (issued restart ops h).
Proof.
  induction ops as [|[p|] ops IH]; intros h Hr Hh; simpl.
  - constructor.
  - constructor; [exact Hh|]. apply IH; [exact Hr|simpl; lia].
  - apply IH; [exact Hr|exact Hr].
Qed.

(** C7: the registry.  Resolving the handle of a fresh [create] gives
    the path back; after [reset] no handle resolves, and a variables
    request for a nested value then fails as an
    [InvalidVariableReference]; the handles of the session's registry
    all lie above the identifier of the Locals scope, whatever the
    sequence of creations and resets, provided numbering restarts
    above it. *)
Theorem registry_roundtrip_reset_bounds (restart : nat) :
  ScopeType_Local < restart →
  (∀ p h, Registry.get (Registry.create p h).1 (Registry.create p h).2 = Some p)
  ∧ (∀ h k, Registry.get k (Registry.reset restart h) = None)
  ∧ (∀ s ci args,
       Session.crashInfo s = Some ci →
       Session.variablesReference args ≠ ScopeType_Local →
       ∃ e, Session.variablesRequest (Session.continueRequest restart s) args = Err e ∧
            errorKind e = InvalidVariableReference)
  ∧ (∀ ops, Forall (fun k => ScopeType_Local < k) (issued restart ops initialHandles)).
Proof.
  intros Hr. split; [|split; [|split]].
  - intros p h. unfold Registry.get, Registry.create. simpl. apply lookup_insert_eq.
  - intros h k. apply lookup_empty.
  - intros s ci args Hci Href. exists TypeError. split; [|reflexivity].
    unfold Session.variablesRequest, Session.continueRequest. simpl. rewrite Hci.
    unfold Session.collectVariables. simpl.
    apply Nat.eqb_neq in Href. rewrite Href.
    unfold Registry.get. simpl. now rewrite lookup_empty.
  - intros ops. apply issued_above; [exact Hr|]. unfold initialHandles, ScopeType_Local.
    simpl. lia.
Qed.

Lemma registry_roundtrip_reset_bounds_witness :
  Registry.get (Registry.create "0:t" initialHandles).1
               (Registry.create "0:t" initialHandles).2 = Some "0:t"
  ∧ Registry.get 2 (Registry.reset 1000 (Registry.create "0:t" initialHandles).2) = None
  ∧ Forall (fun k => ScopeType_Local < k)
      (issued 1000 [OpCreate "0:t"; OpCreate "0:t:1"; OpReset; OpCreate "1:u"] initialHandles).
Proof.
  assert (H : ScopeType_Local < 1000) by (unfold ScopeType_Local; lia).
  destruct (registry_roundtrip_reset_bounds 1000 H) as (H1 & H2 & _ & H4).
  split; [apply H1|]. split; [apply H2|apply H4].
Defined.

(** ** The [indexedVariables] hint *)

Lemma isRun_unique o n m : isRun o n → isRun o m → n = m.
Proof.
  intros [Hn Hn'] [Hm Hm'].
  destruct (Nat.lt_trichotomy n m) as [H | [H | H]]; [|exact H|].
  - rewrite Hm in Hn' by lia. discriminate.
  - rewrite Hn in Hm' by lia. discriminate.
Qed.

Lemma to_uint_nonnil n : Nat.to_uint n ≠ Decimal.Nil.
Proof.
  rewrite <- (DecimalNat.Unsigned.of_to n) at 1.
  rewrite DecimalNat.Unsigned.to_of. apply DecimalFacts.unorm_nonnil.
Qed.

Lemma natToString_inj : Inj eq eq Num.natToString.
Proof.
  intros n m H. unfold Num.natToString in H.
  apply (f_equal NilZero.uint_of_string) in H.
  rewrite !NilZero.usu in H by apply to_uint_nonnil.
  injection H as H. now apply DecimalNat.Unsigned.to_uint_inj.
Qed.

Lemma has_key {V} k (o : list (string * V)) : Obj.has k o = true → k ∈ o.*1.
Proof.
  unfold Obj.has. induction o as [|[k' v] o IH]; simpl; [discriminate|].
  unfold Str.eqb. case_bool_decide as E.
  - intros _. rewrite E. left.
  - intros H. right. now apply IH.
Qed.

(** No more indices in a run than the object has properties. *)
Lemma run_bound (o : list (string * JSVal)) n :
  (∀ i, 1 ≤ i ≤ n → Obj.has (Num.natToString i) o = true) → n ≤ length o.
Proof.
  intros H.
  assert (Hsub : Num.natToString <$> seq 1 n ⊆+ o.*1).
  { apply NoDup_submseteq.
    - apply (@NoDup_fmap_2 _ _ Num.natToString natToString_inj), NoDup_seq.
    - intros k Hk. apply list_elem_of_fmap in Hk as (i & -> & Hi).
      apply elem_of_seq in Hi. apply has_key, H. lia. }
  apply submseteq_length in Hsub.
  now rewrite !length_fmap, length_seq in Hsub.
Qed.

(** The probing loop ends, on the length of the run. *)
Lemma probe_run (o : list (string * JSVal)) fuel : ∀ n,
  (∀ i, 1 ≤ i ≤ n → Obj.has (Num.natToString i) o = true) →
  length o < n + fuel →
  ∃ m, Session.probe fuel o n = Some m ∧ isRun o m.
Proof.
  induction fuel as [|fuel IH]; intros n Hn Hfuel.
  - apply run_bound in Hn. lia.
  - simpl. destruct (Obj.has (Num.natToString (n + 1)) o) eqn:E.
    + apply IH; [|lia]. intros i Hi.
      destruct (decide (i = S n)) as [-> | Hne]; [|apply Hn; lia].
      now replace (S n) with (n + 1) by lia.
    + exists n. split; [reflexivity|]. split; assumption.
Qed.

Lemma indexedHint_run (o : list (string * JSVal)) :
  ∃ n, isRun o n ∧ Session.indexedHint o = Some (if 0 <? n then n + 1 else n).
Proof.
  destruct (probe_run o (S (length o)) 0) as (m & Hm & Hrun); [intros i Hi; lia|lia|].
  exists m. split; [exact Hrun|]. unfold Session.indexedHint. now rewrite Hm.
Qed.

(** C5 as stated fails: for a table with the keys 1, 2 and 5 the run
    of indices from 1 has length 2, and the reported hint is 3. *)
Lemma indexedVariables_counterexample :
  isRun [("1", VStr "a"); ("2", VStr "b"); ("5", VStr "e")] 2 ∧
  Session.handleVariable (VObj [("1", VStr "a"); ("2", VStr "b"); ("5", VStr "e")])
    "t" "0:x" initialHandles
  = Ok (mkVariable "t" "<table>" (Some 2) (Some 3) (Some 1),
        mkHandles 3 (<[2 := "0:x:t"]> ∅)) ∧
  ¬ ∃ r, Session.handleVariable (VObj [("1", VStr "a"); ("2", VStr "b"); ("5", VStr "e")])
           "t" "0:x" initialHandles = Ok r ∧
         indexedVariables r.1 = Some 2.
Proof.
  assert (H : Session.handleVariable
                (VObj [("1", VStr "a"); ("2", VStr "b"); ("5", VStr "e")])
                "t" "0:x" initialHandles
              = Ok (mkVariable "t" "<table>" (Some 2) (Some 3) (Some 1),
                    mkHandles 3 (<[2 := "0:x:t"]> ∅))) by reflexivity.
  split; [|split; [exact H|]].
  - split; [|reflexivity]. intros i Hi.
    assert (Hc : i = 1 ∨ i = 2) by lia. destruct Hc as [-> | ->]; reflexivity.
  - intros (r & Hr & Hi). rewrite H in Hr. injection Hr as <-. discriminate Hi.
Qed.

(** C5 (amended): the hint of a table.  Probing the indices 1, 2, ...
    ends at the length [n] of the contiguous run from 1; the reported
    [indexedVariables] is 0 when the run is empty and [n + 1]
    otherwise, both for a nested table ([handleVariable]) and for a
    local of type table. *)
Theorem indexedVariables_hint (o : list (string * JSVal)) :
  ∃ n, isRun o n ∧
    (∀ key ref h, ∃ v h',
       Session.handleVariable (VObj o) key ref h = Ok (v, h') ∧
       indexedVariables v = Some (if 0 <? n then n + 1 else n)) ∧
    (∀ frame luaName vars h, ∃ v h',
       Session.handleLocal frame (vars, h) (luaName, mkLocalVar (VObj o) "table")
       = Ok (vars ++ [v], h') ∧
       indexedVariables v = Some (if 0 <? n then n + 1 else n)).
Proof.
  destruct (indexedHint_run o) as (n & Hrun & Hhint).
  exists n. split; [exact Hrun|]. split.
  - intros key ref h. unfold Session.handleVariable. rewrite Hhint.
    eexists _, _. split; reflexivity.
  - intros frame luaName vars h. unfold Session.handleLocal.
    cbn [val type]. replace (Str.eqb "table" "table") with true by reflexivity.
    rewrite Hhint. eexists _, _. split; reflexivity.
Qed.

(** ** The order of the variables view *)

Lemma strLe_refl a : strLe a a.
Proof.
  unfold strLe, String.leb. pose proof (String.compare_antisym a a) as H.
  destruct (String.compare a a); simpl in H; congruence.
Qed.

Lemma strLe_trans a b c : strLe a b → strLe b c → strLe a c.
Proof.
  unfold strLe. intros H1 H2.
  pose proof (@transitivity _ String.le _ a b c) as Ht.
  unfold String.le in Ht. apply Is_true_true. apply Ht; now apply Is_true_true.
Qed.

Lemma strLe_total a b : strLe a b ∨ strLe b a.
Proof. apply String.leb_total. Qed.

Lemma strLe_antisym a b : strLe a b → strLe b a → a = b.
Proof. apply String.leb_antisym. Qed.

Lemma strCmp_le a b : Num.sign (strCmp a b) ≠ Gt ↔ strLe a b.
Proof.
  unfold strCmp, Str.eqb, Str.lt, strLe, String.ltb, String.leb.
  case_bool_decide as E.
  - subst. pose proof (strLe_refl b) as H. unfold strLe, String.leb in H.
    simpl. split; [intros _; exact H|discriminate].
  - destruct (String.compare a b) eqn:C; simpl; split; try discriminate; try congruence.
    apply String.compare_eq_iff in C. contradiction.
Qed.

Lemma sign_sub_fin m1 e1 m2 e2 :
  Num.sign (Num.sub (Fin m1 e1) (Fin m2 e2))
  = (m1 * 10 ^ (e1 - Z.min e1 e2) ?= m2 * 10 ^ (e2 - Z.min e1 e2))%Z.
Proof. simpl. symmetry. apply Z.compare_sub. Qed.

(** Comparing two decimals on any common exponent below both. *)
Lemma fin_le_scale m1 e1 m2 e2 E :
  (E ≤ Z.min e1 e2)%Z →
  (m1 * 10 ^ (e1 - Z.min e1 e2) ≤ m2 * 10 ^ (e2 - Z.min e1 e2))%Z
  ↔ (m1 * 10 ^ (e1 - E) ≤ m2 * 10 ^ (e2 - E))%Z.
Proof.
  intros HE. set (e := Z.min e1 e2) in *.
  assert (He1 : (e ≤ e1)%Z) by (subst e; lia).
  assert (He2 : (e ≤ e2)%Z) by (subst e; lia).
  replace (e1 - E)%Z with ((e1 - e) + (e - E))%Z by lia.
  replace (e2 - E)%Z with ((e2 - e) + (e - E))%Z by lia.
  rewrite !Z.pow_add_r by lia. rewrite !Z.mul_assoc.
  assert (Hp : (0 < 10 ^ (e - E))%Z) by (apply Z.pow_pos_nonneg; lia).
  split; intros H; nia.
Qed.

Lemma numLe_fin m1 e1 m2 e2 E :
  (E ≤ Z.min e1 e2)%Z →
  numLe (Fin m1 e1) (Fin m2 e2) ↔ (m1 * 10 ^ (e1 - E) ≤ m2 * 10 ^ (e2 - E))%Z.
Proof.
  intros HE. unfold numLe. rewrite sign_sub_fin, <- (fin_le_scale _ _ _ _ E HE).
  apply Z.compare_le_iff.
Qed.

Lemma numLe_trans x y z :
  Num.isNaN y = false → numLe x y → numLe y z → numLe x z.
Proof.
  destruct x as [|[]|m1 e1], y as [|[]|m2 e2], z as [|[]|m3 e3];
    intros Hy; try discriminate Hy; try (unfold numLe; simpl; congruence).
  set (E := Z.min e1 (Z.min e2 e3)).
  rewrite (numLe_fin m1 e1 m2 e2 E), (numLe_fin m2 e2 m3 e3 E), (numLe_fin m1 e1 m3 e3 E)
    by (subst E; lia).
  lia.
Qed.

Lemma numLe_total x y :
  Num.isNaN x = false → Num.isNaN y = false → numLe x y ∨ numLe y x.
Proof.
  destruct x as [|[]|m1 e1], y as [|[]|m2 e2];
    intros Hx Hy; try discriminate;
    try (unfold numLe; simpl; left; congruence);
    try (unfold numLe; simpl; right; congruence).
  set (E := Z.min e1 e2).
  rewrite (numLe_fin m1 e1 m2 e2 E), (numLe_fin m2 e2 m1 e1 E) by (subst E; lia).
  lia.
Qed.

Lemma keyLe_total a b : keyLe a b ∨ keyLe b a.
Proof.
  unfold keyLe, Str.eqb. repeat case_bool_decide; try congruence; apply strLe_total.
Qed.

Lemma keyLe_trans a b c : keyLe a b → keyLe b c → keyLe a c.
Proof.
  unfold keyLe, Str.eqb.
  destruct (decide (Str.toLowerCase a = Str.toLowerCase b)) as [Eab|Eab];
    destruct (decide (Str.toLowerCase b = Str.toLowerCase c)) as [Ebc|Ebc];
    destruct (decide (Str.toLowerCase a = Str.toLowerCase c)) as [Eac|Eac];
    rewrite ?(bool_decide_eq_true_2 _ Eab), ?(bool_decide_eq_false_2 _ Eab),
            ?(bool_decide_eq_true_2 _ Ebc), ?(bool_decide_eq_false_2 _ Ebc),
            ?(bool_decide_eq_true_2 _ Eac), ?(bool_decide_eq_false_2 _ Eac);
    intros Hab Hbc; try congruence.
  - eapply strLe_trans; eauto.
  - exfalso. apply Eab. apply strLe_antisym; [exact Hab|]. now rewrite Eac.
  - eapply strLe_trans; eauto.
Qed.

Lemma sortVariables_keys (ka kb : string) :
  Num.sign
    (let '(aName, bName) :=
       if negb (Str.eqb (Str.toLowerCase ka) (Str.toLowerCase kb))
       then (Str.toLowerCase ka, Str.toLowerCase kb) else (ka, kb) in
     if Str.eqb aName bName then Fin 0 0
     else if Str.lt aName bName then Fin (-1) 0 else Fin 1 0) ≠ Gt
  ↔ keyLe ka kb.
Proof.
  unfold keyLe.
  destruct (Str.eqb (Str.toLowerCase ka) (Str.toLowerCase kb)); simpl; apply strCmp_le.
Qed.

Lemma sortVariables_precedes a b : leBy Session.sortVariables a b ↔ precedes a b.
Proof.
  unfold leBy, precedes, Session.sortVariables.
  fold (bracketed a) (bracketed b). fold (asNumber a) (asNumber b).
  fold (numeric a) (numeric b). fold (sortKey a) (sortKey b).
  destruct (bracketed a), (bracketed b); simpl;
    try (split; intros; congruence);
    (destruct (numeric a), (numeric b); simpl;
     try (split; intros; congruence);
     try reflexivity; apply sortVariables_keys).
Qed.

Lemma precedes_total a b : precedes a b ∨ precedes b a.
Proof.
  unfold precedes, numeric.
  destruct (bracketed a), (bracketed b); simpl; auto;
    destruct (Num.isNaN (asNumber a)) eqn:Ea, (Num.isNaN (asNumber b)) eqn:Eb;
    simpl; auto; try apply keyLe_total; now apply numLe_total.
Qed.

Lemma precedes_trans a b c : precedes a b → precedes b c → precedes a c.
Proof.
  unfold precedes, numeric.
  destruct (bracketed a), (bracketed b), (bracketed c); simpl; try congruence;
    destruct (Num.isNaN (asNumber a)) eqn:Ea, (Num.isNaN (asNumber b)) eqn:Eb,
             (Num.isNaN (asNumber c)) eqn:Ec; simpl; try congruence;
    try apply keyLe_trans; now apply numLe_trans.
Qed.

(** The insertion sort behind [Array.prototype.sort], for a comparator
    that is total and transitive. *)
Section SortCorrect.
Context {A : Type} (cmp : A → A → JSNum).
Hypothesis le_total : ∀ a b, leBy cmp a b ∨ leBy cmp b a.
Hypothesis le_trans : ∀ a b c, leBy cmp a b → leBy cmp b c → leBy cmp a c.

Lemma insertSorted_perm x l : Session.insertSorted cmp x l ≡ₚ x :: l.
Proof.
  induction l as [|y l IH]; simpl; [reflexivity|].
  destruct (Num.sign (cmp x y)); try reflexivity.
  rewrite IH. apply Permutation_swap.
Qed.

Lemma sort_perm l : Session.sort cmp l ≡ₚ l.
Proof.
  induction l as [|x l IH]; simpl; [reflexivity|].
  fold (Session.sort cmp l). rewrite insertSorted_perm. now rewrite IH.
Qed.

Lemma insertSorted_sorted x l :
  StronglySorted (leBy cmp) l → StronglySorted (leBy cmp) (Session.insertSorted cmp x l).
Proof.
  induction l as [|y l IH]; intros Hs; simpl.
  - constructor; constructor.
  - apply StronglySorted_inv in Hs as [Hs Hy].
    assert (Hle : Num.sign (cmp x y) ≠ Gt →
                  StronglySorted (leBy cmp) (x :: y :: l)).
    { intros Hxy. constructor; [constructor; assumption|].
      constructor; [exact Hxy|].
      eapply Forall_impl; [exact Hy|]. intros z Hz. now apply le_trans with y. }
    destruct (Num.sign (cmp x y)) eqn:E; try (apply Hle; congruence).
    constructor; [now apply IH|].
    rewrite insertSorted_perm. constructor; [|exact Hy].
    destruct (le_total x y) as [H|H]; [|exact H]. unfold leBy in H. congruence.
Qed.

Lemma sort_sorted l : StronglySorted (leBy cmp) (Session.sort cmp l).
Proof.
  induction l as [|x l IH]; simpl; [constructor|].
  now apply insertSorted_sorted.
Qed.
End SortCorrect.

Lemma StronglySorted_weaken {A} (R S : A → A → Prop) l :
  (∀ a b, R a b → S a b) → StronglySorted R l → StronglySorted S l.
Proof.
  intros HRS. induction 1 as [|a l Hs IH Hall]; constructor; [exact IH|].
  eapply Forall_impl; eauto.
Qed.

Lemma keyLe_lower a b :
  keyLe a b ↔
  strLe (Str.toLowerCase a) (Str.toLowerCase b) ∧
  (Str.toLowerCase a = Str.toLowerCase b → strLe a b).
Proof.
  unfold keyLe, Str.eqb. case_bool_decide as E.
  - split; [|intros [_ H]; auto]. intros H. split; [|auto]. rewrite E. apply strLe_refl.
  - split; [|intros [H _]; exact H]. intros H. split; [exact H|]. contradiction.
Qed.

Lemma precedes_viewOrder a b : precedes a b → viewOrder a b.
Proof.
  unfold precedes, viewOrder, rank, lowerKey.
  destruct (bracketed a), (bracketed b), (numeric a), (numeric b); simpl; intros H;
    try discriminate H;
    (split; [lia|split; intros Ha Hb; try discriminate Ha; try discriminate Hb;
                 try exact H; now apply keyLe_lower]).
Qed.

(** C9 (amended): a variables response is sorted.  The returned
    variables are those collected from the locals or table members,
    in some order, and in the response names that start with two
    opening brackets come first, then the names that read as numbers
    in ascending order of the doubles they read as, then the other
    names in the lexicographic order of the lower-cased name in which
    the first opening bracket is replaced by a space, two names that
    are then equal being in the order of the names with that bracket
    replaced. *)
Theorem variables_sorted s args s' resp :
  Session.variablesRequest s args = Ok (s', resp) →
  match Session.body resp with
  | Some vs =>
      StronglySorted viewOrder vs ∧
      ∃ ci r, Session.crashInfo s = Some ci ∧
              Session.collectVariables s ci args = Ok r ∧ vs ≡ₚ r.1
  | None => Session.success resp = false
  end.
Proof.
  unfold Session.variablesRequest. destruct (Session.crashInfo s) as [ci|].
  - destruct (Session.collectVariables s ci args) as [r|] eqn:E; simpl; [|discriminate].
    intros [= <- <-]. simpl. split.
    + apply (StronglySorted_weaken (leBy Session.sortVariables)).
      * intros a b H. now apply precedes_viewOrder, sortVariables_precedes.
      * apply sort_sorted.
        -- intros a b. rewrite !sortVariables_precedes. apply precedes_total.
        -- intros a b c. rewrite !sortVariables_precedes. apply precedes_trans.
    + exists ci, r. split; [reflexivity|]. split; [exact E|]. apply sort_perm.
  - intros [= <- <-]. reflexivity.
Qed.

Lemma variables_sorted_witness :
  StronglySorted viewOrder
    [mkVariable "[[m]]" "5" None (Some 0) None; mkVariable "9" "3" None (Some 0) None;
     mkVariable "10" "2" None (Some 0) None; mkVariable "A" "4" None (Some 0) None;
     mkVariable "b" "1" None (Some 0) None].
Proof.
  assert (H : ∃ ci, sortedDemo = Ok ci ∧
    Session.variablesRequest (Session.mkSession (Some ci) 0 initialHandles)
      (Session.mkVariablesArguments ScopeType_Local None None None)
    = Ok (Session.mkSession (Some ci) 0 initialHandles,
          Session.mkVariablesResponse true
            (Some [mkVariable "[[m]]" "5" None (Some 0) None;
                   mkVariable "9" "3" None (Some 0) None;
                   mkVariable "10" "2" None (Some 0) None;
                   mkVariable "A" "4" None (Some 0) None;
                   mkVariable "b" "1" None (Some 0) None]))).
  { eexists. split; [vm_compute; reflexivity|]. vm_compute. reflexivity. }
  destruct H as (ci & _ & H).
  exact (proj1 (variables_sorted _ _ _ _ H)).
Defined.

(** C9 as stated fails for the names that are neither bracketed nor
    numbers: the comparator replaces the first opening bracket of a
    name by a space, so the local [a[] is listed before the local
    [a!], although [a!] is the smaller of the two lower-cased names. *)
Lemma variables_order_counterexample :
  ∃ ci,
    TSM.parse ["Message: boom"; "Stack Trace:"; "  TSM/Foo.lua:10 <f>";
                   "    a! = 1"; "    a[ = 2"] = Ok ci ∧
    Session.variablesRequest (Session.mkSession (Some ci) 0 initialHandles)
      (Session.mkVariablesArguments ScopeType_Local None None None)
    = Ok (Session.mkSession (Some ci) 0 initialHandles,
          Session.mkVariablesResponse true
            (Some [mkVariable "a[" "2" None (Some 0) None;
                   mkVariable "a!" "1" None (Some 0) None])) ∧
    Str.startsWith "[[" "a[" = false ∧ Str.startsWith "[[" "a!" = false ∧
    Num.Number "a[" = NaN ∧ Num.Number "a!" = NaN ∧
    Str.lt (Str.toLowerCase "a!") (Str.toLowerCase "a[") = true.
Proof.
  eexists. split; [vm_compute; reflexivity|].
  repeat split; vm_compute; reflexivity.
Qed.

(** * Further properties *)

(** ** Loops and strings *)

Lemma forEachR_cons {A S} (body : S → A → Result S) x xs s :
  forEachR body (x :: xs) s = (s' ←R body s x; forEachR body xs s').
Proof. reflexivity. Qed.

Lemma append_nil_r (s : string) : s +:+ EmptyString = s.
Proof. induction s as [|c s IH]; [reflexivity|]. now rewrite append_cons, IH. Qed.

Lemma append_assoc (a b c : string) : (a +:+ b) +:+ c = a +:+ (b +:+ c).
Proof. induction a as [|x a IH]; [reflexivity|]. now rewrite !append_cons, IH. Qed.

(** ** The line pattern of the TSM tree builder *)

Lemma rep_sound {A} p min (k : string → option A) s : ∀ n r,
  rep p min k n s = Some r →
  ∃ s1 s2, s = s1 +:+ s2 ∧ Str.forallb p s1 = true ∧ min ≤ n + String.length s1 ∧
           k s2 = Some r.
Proof.
  induction s as [|c s IH]; intros n r; simpl.
  - destruct (min <=? n) eqn:E; [|discriminate]. apply Nat.leb_le in E.
    intros H. exists EmptyString, EmptyString. repeat split; auto. simpl. lia.
  - assert (Hstop : (if min <=? n then k (String c s) else None) = Some r →
      ∃ s1 s2, String c s = s1 +:+ s2 ∧ Str.forallb p s1 = true ∧
               min ≤ n + String.length s1 ∧ k s2 = Some r).
    { destruct (min <=? n) eqn:E; [|discriminate]. apply Nat.leb_le in E.
      intros H. exists EmptyString, (String c s). repeat split; auto. simpl. lia. }
    destruct (p c) eqn:Hc; [|exact Hstop].
    destruct (rep p min k (S n) s) as [r'|] eqn:E; [|exact Hstop].
    intros [= ->]. destruct (IH _ _ E) as (s1 & s2 & -> & Hall & Hmin & Hk).
    exists (String c s1), s2. repeat split; auto.
    + simpl. now rewrite Hc, Hall.
    + simpl. lia.
Qed.

Lemma rep_none {A} p min (k : string → option A) s1 : ∀ n s2,
  rep p min k n (s1 +:+ s2) = None →
  Str.forallb p s1 = true → min ≤ n + String.length s1 → k s2 = None.
Proof.
  induction s1 as [|c s1 IH]; intros n s2 H Hall Hmin.
  - simpl in Hmin. assert (E : (min <=? n) = true) by (apply Nat.leb_le; lia).
    change (EmptyString +:+ s2) with s2 in H.
    destruct s2 as [|c s2]; simpl in H; rewrite E in H; [exact H|].
    destruct (p c); [|exact H]. destruct (rep p min k (S n) s2); [discriminate|exact H].
  - simpl in Hall. apply andb_prop in Hall as [Hc Hall].
    change (String c s1 +:+ s2) with (String c (s1 +:+ s2)) in H. simpl in H.
    rewrite Hc in H. destruct (rep p min k (S n) (s1 +:+ s2)) eqn:E; [discriminate|].
    apply (IH (S n)); auto. simpl in Hmin. lia.
Qed.

Lemma lineMatch_sound line sp c :
  TSM.lineMatch line = Some (sp, c) →
  ∃ rest, line = sp +:+ c +:+ rest ∧ Str.forallb Str.isSpace sp = true ∧
          c ≠ EmptyString ∧ Str.forallb Str.notLT c = true.
Proof.
  unfold TSM.lineMatch, execAnchored, matchHere, TSM.lineRe. simpl run.
  destruct (rep Str.isSpace 0 _ 0 line) as [[caps rest]|] eqn:E; [|discriminate].
  apply rep_sound in E as (s1 & s2 & -> & Hsp & _ & E).
  apply rep_sound in E as (c1 & s3 & -> & Hc & Hlen & E).
  injection E as <- <-. simpl. intros [= <- <-].
  rewrite !length_append.
  replace (String.length s1 + (String.length c1 + String.length s3)
           - (String.length c1 + String.length s3)) with (String.length s1) by lia.
  replace (String.length c1 + String.length s3 - String.length s3)
    with (String.length c1) by lia.
  unfold cap1, cap2. simpl. rewrite !take_append.
  exists s3. repeat split; auto. intros ->. simpl in Hlen. lia.
Qed.

Lemma lineMatch_None line :
  TSM.lineMatch line = None ↔
  match line with
  | EmptyString => True
  | String a _ => Str.isLineTerminator a = true
  end.
Proof.
  unfold TSM.lineMatch, execAnchored, matchHere, TSM.lineRe. simpl run.
  match goal with |- context [rep Str.isSpace 0 ?k 0 _] => set (K := k) end.
  split.
  - intros H. destruct (rep Str.isSpace 0 K 0 line) as [r|] eqn:E; [discriminate|].
    destruct line as [|a line]; [exact I|].
    pose proof (rep_none Str.isSpace 0 K EmptyString 0 (String a line) E eq_refl
                  (Nat.le_0_l _)) as HK.
    subst K. cbv beta in HK.
    destruct (Str.isLineTerminator a) eqn:Ha; [reflexivity|].
    pose proof (rep_none Str.notLT 1 _ (String a EmptyString) 0 line HK) as H2.
    simpl in H2. unfold Str.notLT in H2. rewrite Ha in H2. simpl in H2.
    specialize (H2 eq_refl (Nat.le_refl 1)). discriminate.
  - destruct line as [|a line]; intros Ha; [reflexivity|].
    simpl. assert (Hs : Str.isSpace a = false).
    { unfold Str.isLineTerminator, Str.isSpace in *.
      repeat case_bool_decide; subst; try discriminate; reflexivity. }
    rewrite Hs. subst K. simpl. unfold Str.notLT. rewrite Ha. reflexivity.
Qed.

Lemma rep_total {A} p min (k : string → option A) s : ∀ n,
  (∀ s', k s' ≠ None) →
  rep p min k n s =
    if min <=? n + String.length (Str.takeWhile p s) then k (Str.dropWhile p s) else None.
Proof.
  intros n Hk. revert n. induction s as [|c s IH]; intros n; simpl.
  - now rewrite Nat.add_0_r.
  - destruct (p c) eqn:Hc; simpl; [|now rewrite Nat.add_0_r].
    rewrite IH. replace (n + S (String.length (Str.takeWhile p s)))
      with (S n + String.length (Str.takeWhile p s)) by lia.
    destruct (min <=? S n + _) eqn:E.
    + destruct (k (Str.dropWhile p s)) eqn:E'; [reflexivity|]. now apply Hk in E'.
    + apply Nat.leb_gt in E.
      destruct (min <=? n) eqn:E'; [apply Nat.leb_le in E'; lia|reflexivity].
Qed.

Lemma takeWhile_dropWhile p s : Str.takeWhile p s +:+ Str.dropWhile p s = s.
Proof.
  induction s as [|c s IH]; [reflexivity|]. simpl.
  destruct (p c); [|reflexivity]. rewrite append_cons. now rewrite IH.
Qed.

Lemma forallb_takeWhile p s : Str.forallb p (Str.takeWhile p s) = true.
Proof.
  induction s as [|c s IH]; [reflexivity|]. simpl.
  destruct (p c) eqn:E; [|reflexivity]. simpl. now rewrite E.
Qed.

Lemma dropWhile_head p s :
  match Str.dropWhile p s with
  | EmptyString => True
  | String a _ => p a = false
  end.
Proof.
  induction s as [|c s IH]; [exact I|]. simpl.
  destruct (p c) eqn:E; [exact IH|exact E].
Qed.

(** X1: the line pattern of the TSM tree builder.  When it matches,
    the line is the captured spaces, the captured content and a rest;
    the content is not empty and free of line terminators, and the
    rest is empty or starts with a line terminator.  It fails exactly
    on the empty line and on a line that starts with a line
    terminator. *)
Theorem tsm_lineMatch_shape (line : string) :
  (TSM.lineMatch line = None ↔
   match line with
   | EmptyString => True
   | String a _ => Str.isLineTerminator a = true
   end) ∧
  match TSM.lineMatch line with
  | Some (spaces, c) =>
      ∃ rest, line = spaces +:+ c +:+ rest ∧
              Str.forallb Str.isSpace spaces = true ∧
              c ≠ EmptyString ∧ Str.forallb Str.notLT c = true ∧
              match rest with
              | EmptyString => True
              | String a _ => Str.isLineTerminator a = true
              end
  | None => True
  end.
Proof.
  split; [apply lineMatch_None|].
  destruct (TSM.lineMatch line) as [[sp c]|] eqn:E; [|exact I].
  revert E. unfold TSM.lineMatch, execAnchored, matchHere, TSM.lineRe. simpl run.
  destruct (rep Str.isSpace 0 _ 0 line) as [[caps rest]|] eqn:E; [|discriminate].
  apply rep_sound in E as (s1 & s2 & -> & Hsp & _ & E).
  rewrite rep_total in E by discriminate.
  destruct (1 <=? _) eqn:Hlen; [|discriminate]. apply Nat.leb_le in Hlen. simpl in Hlen.
  injection E as <- <-. simpl. intros [= <- <-].
  rewrite length_append.
  replace (String.length s1 + String.length s2 - String.length s2)
    with (String.length s1) by lia.
  assert (Hl : String.length s2 - String.length (Str.dropWhile Str.notLT s2)
               = String.length (Str.takeWhile Str.notLT s2)).
  { rewrite <- (takeWhile_dropWhile Str.notLT s2) at 1. rewrite length_append. lia. }
  rewrite Hl. unfold cap1, cap2. simpl. rewrite take_append.
  assert (Ht : Str.take (String.length (Str.takeWhile Str.notLT s2)) s2
               = Str.takeWhile Str.notLT s2).
  { rewrite <- (takeWhile_dropWhile Str.notLT s2) at 2. apply take_append. }
  rewrite Ht.
  exists (Str.dropWhile Str.notLT s2). rewrite takeWhile_dropWhile.
  repeat split; auto.
  - intros Heq. rewrite Heq in Hlen. simpl in Hlen. lia.
  - apply forallb_takeWhile.
  - pose proof (dropWhile_head Str.notLT s2) as H.
    destruct (Str.dropWhile Str.notLT s2); [exact I|].
    unfold Str.notLT in H. now apply negb_false_iff in H.
Qed.

(** ** The TSM tree builder on any input *)

Lemma addLine_lineLevel s line v c :
  lineLevel line = Some (v, c) →
  TSM.addLine s line =
    (node' ←R
       (if v =? 0 then Ok (setParent (Some 0) (mkLineInfo c [] None))
        else if v =? TSM.currentLevel s then
          Ok (setParent (parentOf (TSM.store s) (TSM.currentNode s)) (mkLineInfo c [] None))
        else if v =? TSM.currentLevel s + 1 then
          Ok (setParent (Some (TSM.currentNode s)) (mkLineInfo c [] None))
        else if v <? TSM.currentLevel s then
          cur ←R TSM.walkBack (TSM.store s) (TSM.currentLevel s - v) (TSM.currentNode s);
          Ok (setParent (parentOf (TSM.store s) cur) (mkLineInfo c [] None))
        else Err (InvalidLineLevel line));
     match parent node' with
     | None => Err MissingParent
     | Some p =>
         Ok (TSM.mkBuildState
               (alter (pushChild (length (TSM.store s))) p (TSM.store s ++ [node']))
               (length (TSM.store s)) v)
     end).
Proof.
  unfold lineLevel, TSM.addLine.
  destruct (TSM.lineMatch line) as [[sp c']|]; [|discriminate].
  destruct (String.length sp mod 2 =? 0); [|discriminate].
  intros [= <- <-]. reflexivity.
Qed.

Lemma addLine_unread s line :
  lineLevel line = None →
  ∃ e, TSM.addLine s line = Err e ∧ e ≠ MissingParent.
Proof.
  unfold lineLevel, TSM.addLine.
  destruct (TSM.lineMatch line) as [[sp c']|]; [|eexists; split; [reflexivity|discriminate]].
  destruct (String.length sp mod 2 =? 0); [discriminate|].
  eexists; split; [reflexivity|discriminate].
Qed.

Lemma Follows_root s t d : Follows s t d → lid t = 0.
Proof.
  intros [_ Hids _ _]. destruct t as [i c ks]. simpl in *.
  destruct (length (TSM.store s)); simpl in Hids; congruence.
Qed.

(** One line, in any state the builder reaches. *)
Lemma addLine_follows s t d line v c :
  Follows s t d → lineLevel line = Some (v, c) →
  if v <=? TSM.currentLevel s + 1 then
    ∃ s' p, TSM.addLine s line = Ok s' ∧
            Follows s' (addAt p (LNode (length (TSM.store s)) c []) t) (S p) ∧
            (∃ q, rnode p t = Some q) ∧
            TSM.currentLevel s' = v ∧
            (d = TSM.currentLevel s + 1 ∨ v = 0 → p = v)
  else TSM.addLine s line = Err (InvalidLineLevel line).
Proof.
  intros Hfo Hline. pose proof (Follows_root _ _ _ Hfo) as Hroot.
  destruct Hfo as [Hh Hids (cc & Hcur) Hd].
  rewrite (addLine_lineLevel _ _ _ _ Hline).
  set (L := TSM.currentLevel s) in *.
  destruct (v <=? L + 1) eqn:Hv.
  - apply Nat.leb_le in Hv.
    assert (Hq : ∃ p q, rnode p t = Some q ∧ v ≤ S p ≤ v + 1 ∧
      (d = L + 1 ∨ v = 0 → p = v) ∧
      (if v =? 0 then Ok (setParent (Some 0) (mkLineInfo c [] None))
       else if v =? L then
         Ok (setParent (parentOf (TSM.store s) (TSM.currentNode s)) (mkLineInfo c [] None))
       else if v =? L + 1 then
         Ok (setParent (Some (TSM.currentNode s)) (mkLineInfo c [] None))
       else if v <? L then
         cur ←R TSM.walkBack (TSM.store s) (L - v) (TSM.currentNode s);
         Ok (setParent (parentOf (TSM.store s) cur) (mkLineInfo c [] None))
       else Err (InvalidLineLevel line))
      = Ok (mkLineInfo c [] (Some (lid q)))).
    { destruct (v =? 0) eqn:E0.
      { apply Nat.eqb_eq in E0 as ->. exists 0, t. rewrite Hroot.
        repeat split; auto; lia. }
      apply Nat.eqb_neq in E0.
      destruct (v =? L) eqn:E1.
      { apply Nat.eqb_eq in E1. destruct d as [|d0]; [lia|].
        destruct (rnode_prefix _ _ _ Hcur) as (q & Hq & _).
        exists d0, q. split; [exact Hq|]. split; [lia|]. split; [lia|].
        pose proof (parentOf_rnode _ _ _ _ _ _ Hh Hcur Hq) as Hp. simpl in Hp.
        now rewrite Hp. }
      apply Nat.eqb_neq in E1.
      destruct (v =? L + 1) eqn:E2.
      { apply Nat.eqb_eq in E2. exists d, (LNode (TSM.currentNode s) cc []).
        split; [exact Hcur|]. split; [lia|]. split; [lia|]. reflexivity. }
      apply Nat.eqb_neq in E2.
      assert (Hlt : v < L) by lia. apply Nat.ltb_lt in Hlt as Hlt'. rewrite Hlt'.
      destruct v as [|v0]; [lia|].
      set (e := d - (L - S v0)).
      assert (He : e = S (e - 1)) by (unfold e; lia).
      assert (Hle : e ≤ d) by (unfold e; lia).
      destruct (rnode_le _ e _ _ Hle Hcur) as (x & Hx).
      assert (Hcur' : rnode (e + (L - S v0)) t = Some (LNode (TSM.currentNode s) cc []))
        by (replace (e + (L - S v0)) with d by (unfold e; lia); exact Hcur).
      pose proof (walkBack_rnode _ _ _ _ Hh _ _ _ Hcur' Hx) as Hw. simpl in Hw.
      rewrite He in Hx. destruct (rnode_prefix _ _ _ Hx) as (q & Hq & _).
      exists (e - 1), q. split; [exact Hq|]. split; [unfold e; lia|].
      split; [unfold e; lia|].
      rewrite Hw. simpl. now rewrite (parentOf_rnode _ _ _ _ _ _ Hh Hx Hq). }
    destruct Hq as (p & q & Hq & Hp & Hpv & Hsel). rewrite Hsel. simpl.
    eexists. exists p. split; [reflexivity|]. split; [|split; [eauto|split; [reflexivity|exact Hpv]]].
    constructor; simpl.
    + apply store_addAt; [exact Hh | rewrite Hids; apply NoDup_seq | exact Hq].
    + rewrite (ids_addAt _ _ _ _ _ Hq), Hids. simpl.
      rewrite length_alter, length_app, Nat.add_1_r, seq_S. reflexivity.
    + exists c. eapply rnode_addAt; eauto.
    + lia.
  - apply Nat.leb_gt in Hv.
    destruct (v =? 0) eqn:E0; [apply Nat.eqb_eq in E0; lia|].
    destruct (v =? L) eqn:E1; [apply Nat.eqb_eq in E1; lia|].
    destruct (v =? L + 1) eqn:E2; [apply Nat.eqb_eq in E2; lia|].
    destruct (v <? L) eqn:E3; [apply Nat.ltb_lt in E3; lia|]. reflexivity.
Qed.

Lemma readAs_cons_inv line lines ls :
  readAs (line :: lines) ls →
  ∃ l ls', ls = l :: ls' ∧ lineLevel line = Some l ∧ readAs lines ls'.
Proof. intros H. inversion H; subst. eauto. Qed.

Lemma accepted_cons L v (c : string) ls :
  accepted L ((v, c) :: ls).*1 = (v <=? L + 1) && accepted v ls.*1.
Proof. reflexivity. Qed.

Lemma build_follows lines : ∀ s t d,
  Follows s t d →
  match forEachR TSM.addLine lines s with
  | Ok s' =>
      ∃ ls t' d',
        readAs lines ls ∧ accepted (TSM.currentLevel s) ls.*1 = true ∧
        Follows s' t' d' ∧
        (traversal (erase t')).*2 = (traversal (erase t)).*2 ++ ls.*2 ∧
        (d = TSM.currentLevel s + 1 ∨ head ls.*1 = Some 0 →
         traversal (erase t') = traversal (erase t) ++ ls)
  | Err e =>
      e ≠ MissingParent ∧
      ∀ ls, readAs lines ls → accepted (TSM.currentLevel s) ls.*1 = false
  end.
Proof.
  induction lines as [|line lines IH]; intros s t d Hfo.
  - simpl. exists [], t, d. rewrite !app_nil_r.
    split; [constructor|]. split; [reflexivity|]. split; [exact Hfo|]. now split.
  - simpl. destruct (lineLevel line) as [[v c]|] eqn:Hline.
    + pose proof (addLine_follows _ _ _ _ _ _ Hfo Hline) as Hstep.
      destruct (v <=? TSM.currentLevel s + 1) eqn:Hv.
      * destruct Hstep as (s1 & p & -> & Hfo1 & (q & Hq) & Hlev & Hp). simpl.
        specialize (IH _ _ _ Hfo1). rewrite Hlev in IH.
        pose proof (traversal_addAt p (LNode (length (TSM.store s)) c []) t q Hq) as Htr.
        simpl in Htr.
        destruct (forEachR TSM.addLine lines s1) as [s'|e].
        -- destruct IH as (ls & t' & d' & Hread & Hacc & Hfo' & Hcont & Hdepth).
           exists ((v, c) :: ls), t', d'. split; [now constructor|].
           split; [now rewrite accepted_cons, Hv|]. split; [exact Hfo'|]. split.
           ++ rewrite Hcont, Htr, fmap_app. simpl. now rewrite <- app_assoc.
           ++ intros Hd. assert (Hpv : p = v).
              { apply Hp. destruct Hd as [Hd|Hd]; [now left|right].
                simpl in Hd. congruence. }
              rewrite Hdepth by (left; lia). rewrite Htr, Hpv.
              now rewrite <- app_assoc.
        -- destruct IH as (He & Hno). split; [exact He|].
           intros ls Hread. apply readAs_cons_inv in Hread as (l & ls' & -> & Hl & Hread).
           rewrite Hline in Hl. injection Hl as <-.
           rewrite accepted_cons, (Hno _ Hread). apply andb_false_r.
      * rewrite Hstep. simpl. split; [discriminate|].
        intros ls Hread. apply readAs_cons_inv in Hread as (l & ls' & -> & Hl & Hread).
        rewrite Hline in Hl. injection Hl as <-. now rewrite accepted_cons, Hv.
    + destruct (addLine_unread s _ Hline) as (e & -> & He). simpl.
      split; [exact He|]. intros ls Hread.
      apply readAs_cons_inv in Hread as (l & ls' & -> & Hl & Hread). congruence.
Qed.

Lemma Follows_initial : Follows (TSM.mkBuildState [rootNode] 0 0) (LNode 0 "" []) 0.
Proof.
  constructor; simpl; [|reflexivity|eauto|lia].
  intros x Hx. apply list_elem_of_singleton in Hx as ->. reflexivity.
Qed.

Lemma treeOf_follows s t d : Follows s t d → treeOf (TSM.store s) = erase t.
Proof.
  intros Hfo. pose proof (Follows_root _ _ _ Hfo) as Hroot.
  destruct Hfo as [Hh Hids _ _]. unfold treeOf. rewrite <- Hroot.
  apply (toTree_erase _ _ None); [exact Hh|].
  rewrite <- (length_fmap fst), Hids, length_seq. lia.
Qed.

(** X2: the two bare [throw Error()] of the TSM tree builder are dead
    code.  Whatever the lines, [createTree] never fails for a missing
    parent: the node the walk back reaches always has one. *)
Theorem tsm_createTree_guards_dead (lines : list string) :
  TSM.createTree lines ≠ Err MissingParent.
Proof.
  unfold TSM.createTree, TSM.build.
  pose proof (build_follows lines _ _ _ Follows_initial) as H.
  destruct (forEachR TSM.addLine lines _) as [s'|e]; simpl; [discriminate|].
  destruct H as [He _]. congruence.
Qed.

(** X3: the inputs the TSM tree builder accepts.  [createTree]
    returns a tree exactly when every line reads as a level and a
    content (the pattern matches and the number of spaces is even) and
    every level is at most one more than the level of the line before
    it, 0 being the level before the first line. *)
Theorem tsm_createTree_accepts (lines : list string) :
  isOk (TSM.createTree lines) = true ↔
  ∃ ls, readAs lines ls ∧ accepted 0 ls.*1 = true.
Proof.
  unfold TSM.createTree, TSM.build.
  pose proof (build_follows lines _ _ _ Follows_initial) as H.
  destruct (forEachR TSM.addLine lines _) as [s'|e]; simpl in *.
  - split; [|reflexivity]. intros _.
    destruct H as (ls & _ & _ & Hread & Hacc & _). eauto.
  - split; [discriminate|]. intros (ls & Hread & Hacc).
    destruct H as [_ H]. rewrite (H _ Hread) in Hacc. discriminate.
Qed.

(** X4: the tree of any accepted input.  Whenever [createTree]
    returns a tree, its depth-first traversal lists the contents the
    line pattern captured, one node per line and in the order of the
    lines; when the first line is at level 0, every node lies at the
    depth of its level. *)
Theorem tsm_createTree_order (lines : list string) (t : Tree) :
  TSM.createTree lines = Ok t →
  ∃ ls, readAs lines ls ∧ (traversal t).*2 = ls.*2 ∧
        (head ls.*1 = Some 0 → traversal t = ls).
Proof.
  unfold TSM.createTree, TSM.build.
  pose proof (build_follows lines _ _ _ Follows_initial) as H.
  destruct (forEachR TSM.addLine lines _) as [s'|e]; simpl in *; [|discriminate].
  destruct H as (ls & t' & d' & Hread & _ & Hfo & Hcont & Hdepth).
  intros [= <-]. rewrite (treeOf_follows _ _ _ Hfo).
  exists ls. split; [exact Hread|]. split; [exact Hcont|].
  intros Hd. apply Hdepth. now right.
Qed.

Lemma tsm_createTree_order_witness :
  ∃ ls, readAs ["  a"; "    b"; "c"; "  d"] ls ∧
        (traversal (Node "" [Node "a" [Node "b" []]; Node "c" [Node "d" []]])).*2 = ls.*2 ∧
        (head ls.*1 = Some 0 →
         traversal (Node "" [Node "a" [Node "b" []]; Node "c" [Node "d" []]]) = ls).
Proof.
  apply (tsm_createTree_order ["  a"; "    b"; "c"; "  d"]). vm_compute. reflexivity.
Defined.

(** ** The sections of a TSM crash file *)

Lemma tsm_addFrame_frames ci n ci' :
  TSM.addFrame ci n = Ok ci' → ∃ f, frames ci' = frames ci ++ [f] ∧ frameOf f n.
Proof.
  unfold TSM.addFrame, frameOf.
  destruct (TSM.frameMatch (text n)) as [[loc nm]|]; [|discriminate].
  destruct (TSM.locationMatch loc) as [[fl ln]|];
    destruct (forEachR TSM.addLocal (kids n) []) as [ls|]; simpl; try discriminate;
    intros [= <-]; eexists; (split; [reflexivity|]); simpl; eauto 10.
Qed.

Lemma tsm_addFrames_frames ns : ∀ ci ci',
  forEachR TSM.addFrame ns ci = Ok ci' →
  ∃ fs, frames ci' = frames ci ++ fs ∧ Forall2 frameOf fs ns.
Proof.
  induction ns as [|n ns IH]; intros ci ci' H.
  - injection H as <-. exists []. now rewrite app_nil_r.
  - simpl in H. destruct (TSM.addFrame ci n) as [c|] eqn:E; simpl in H; [|discriminate].
    apply tsm_addFrame_frames in E as (f & Hf & Hof).
    apply IH in H as (fs & Hfs & Hall). exists (f :: fs).
    split; [|now constructor]. rewrite Hfs, Hf. now rewrite <- app_assoc.
Qed.

Lemma tsm_addHeading_frames ci h ci' :
  TSM.addHeading ci h = Ok ci' →
  ∃ fs, frames ci' = frames ci ++ fs ∧
        Forall2 frameOf fs
          (if bool_decide (headingType h = Some "Stack Trace") then kids h else []).
Proof.
  unfold TSM.addHeading, headingType.
  destruct (sectionMatch (text h)) as [[ty rest]|]; [|discriminate].
  change (fst <$> Some (ty, rest)) with (Some ty).
  unfold Str.eqb. case_bool_decide as E1.
  { subst ty. intros [= <-]. exists []. rewrite app_nil_r. split; [reflexivity|].
    rewrite bool_decide_eq_false_2 by discriminate. constructor. }
  case_bool_decide as E2.
  { subst ty. rewrite bool_decide_eq_true_2 by reflexivity. apply tsm_addFrames_frames. }
  rewrite (bool_decide_eq_false_2 (Some ty = Some "Stack Trace")) by congruence.
  case_bool_decide as E3.
  { intros [= <-]. exists []. rewrite app_nil_r. split; [reflexivity|constructor]. }
  destruct (TSM.inTable _ _); [|discriminate].
  intros [= <-]. exists []. rewrite app_nil_r. split; [reflexivity|constructor].
Qed.

Lemma tsm_addHeadings_frames hs : ∀ ci ci',
  forEachR TSM.addHeading hs ci = Ok ci' →
  ∃ fs, frames ci' = frames ci ++ fs ∧ Forall2 frameOf fs (frameLines (Node "" hs)).
Proof.
  induction hs as [|h hs IH]; intros ci ci' H.
  - injection H as <-. exists []. rewrite app_nil_r. split; [reflexivity|constructor].
  - simpl in H. destruct (TSM.addHeading ci h) as [c|] eqn:E; simpl in H; [|discriminate].
    apply tsm_addHeading_frames in E as (f1 & Hf1 & H1).
    apply IH in H as (f2 & Hf2 & H2). exists (f1 ++ f2). split.
    + rewrite Hf2, Hf1. now rewrite <- app_assoc.
    + unfold frameLines. simpl. now apply Forall2_app.
Qed.

(** X5: the frames of a TSM crash file.  A result of [getCrashInfo]
    has a message and at least one frame, and its frames are the
    children of all the [Stack Trace] headings, in order: each frame
    has the name and the location its line captures, and the locals
    read off the children of that line. *)
Theorem tsm_frames_in_order (tree : Tree) (ci : CrashInfo) :
  TSM.getCrashInfo tree = Ok ci →
  errMsg ci ≠ EmptyString ∧ frames ci ≠ [] ∧
  Forall2 frameOf (frames ci) (frameLines tree).
Proof.
  intros H. pose proof (tsm_getCrashInfo_complete tree) as Hc. rewrite H in Hc.
  destruct Hc as [Hm Hf]. split; [exact Hm|]. split; [exact Hf|].
  unfold TSM.getCrashInfo in H.
  destruct (forEachR TSM.addHeading (kids tree) emptyCrashInfo) as [c|] eqn:E;
    simpl in H; [|discriminate].
  destruct (Str.eqb (errMsg c) EmptyString); [discriminate|].
  destruct (length (frames c) =? 0); [discriminate|]. injection H as <-.
  apply tsm_addHeadings_frames in E as (fs & Hfs & Hall). simpl in Hfs. rewrite Hfs.
  destruct tree as [r hs]. exact Hall.
Qed.

Lemma tsm_frames_in_order_witness :
  ∃ tree ci, TSM.createTree walkDemo = Ok tree ∧ TSM.getCrashInfo tree = Ok ci ∧
             Forall2 frameOf (frames ci) (frameLines tree).
Proof.
  assert (H : ∃ tree ci, TSM.createTree walkDemo = Ok tree ∧ TSM.getCrashInfo tree = Ok ci).
  { eexists _, _. split; [vm_compute; reflexivity|]. vm_compute. reflexivity. }
  destruct H as (tree & ci & Ht & Hci). exists tree, ci.
  split; [exact Ht|]. split; [exact Hci|].
  exact (proj2 (proj2 (tsm_frames_in_order tree ci Hci))).
Defined.

Lemma inTable_elem s tbl : TSM.inTable s tbl = true ↔ s ∈ tbl.
Proof.
  induction tbl as [|x tbl IH]; simpl.
  - split; [discriminate|]. intros H. inversion H.
  - unfold Str.eqb. case_bool_decide as E.
    + subst. split; [left|reflexivity].
    + rewrite IH. split; [now right|].
      intros H. apply elem_of_cons in H as [->|H]; [congruence|exact H].
Qed.

(** X6: a section of [IGNORED_HEADING_SECTIONS] is skipped with all
    that hangs below it: the interpretation gives what it gives
    without the heading. *)
Theorem tsm_ignored_section root pre h post ty :
  headingType h = Some ty → ty ∈ TSM.IGNORED_HEADING_SECTIONS →
  TSM.getCrashInfo (Node root (pre ++ h :: post)) = TSM.getCrashInfo (Node root (pre ++ post)).
Proof.
  intros Hh Hty. unfold TSM.getCrashInfo. simpl kids. rewrite !forEachR_app.
  destruct (forEachR TSM.addHeading pre emptyCrashInfo) as [c|]; simpl; [|reflexivity].
  apply headingType_Some in Hh as (rest & Hh).
  unfold TSM.addHeading at 1. rewrite Hh.
  assert (Hin := proj2 (inTable_elem _ _) Hty). rewrite Hin.
  unfold TSM.IGNORED_HEADING_SECTIONS in Hty.
  repeat (apply elem_of_cons in Hty as [->|Hty]); try reflexivity.
  inversion Hty.
Qed.

Lemma tsm_ignored_section_witness :
  TSM.getCrashInfo
    (Node "" ([Node "Message: boom" []]
              ++ Node "Addons:" [Node "TradeSkillMaster" [Node "  v4" []]]
              :: [Node "Stack Trace:" [Node "TSM/Foo.lua:10 <f>" []]]))
  = TSM.getCrashInfo
      (Node "" ([Node "Message: boom" []]
                ++ [Node "Stack Trace:" [Node "TSM/Foo.lua:10 <f>" []]])).
Proof.
  apply (tsm_ignored_section "" [Node "Message: boom" []]
           (Node "Addons:" [Node "TradeSkillMaster" [Node "  v4" []]])
           [Node "Stack Trace:" [Node "TSM/Foo.lua:10 <f>" []]] "Addons").
  - vm_compute. reflexivity.
  - vm_compute. repeat constructor.
Defined.

(** X7: a top-level line that is not a heading of the TSM grammar
    stops the interpretation, whatever the rest of the file holds:
    with [Invalid crash file heading line] when it has not the shape of
    a heading, with [Invalid crash file line] when its type is
    unknown. *)
Theorem tsm_unknown_section root pre h post c :
  forEachR TSM.addHeading pre emptyCrashInfo = Ok c →
  (∀ ty, headingType h = Some ty → ty ∉ tsmSections) →
  TSM.getCrashInfo (Node root (pre ++ h :: post))
  = Err (match headingType h with
         | Some _ => InvalidHeading (text h)
         | None => InvalidHeadingLine (text h)
         end).
Proof.
  intros Hpre Hh. unfold TSM.getCrashInfo. simpl kids. rewrite forEachR_app, Hpre. simpl.
  unfold TSM.addHeading, headingType in *.
  destruct (sectionMatch (text h)) as [[ty rest]|]; [|reflexivity].
  specialize (Hh ty eq_refl).
  change (fst <$> Some (ty, rest)) with (Some ty). cbv iota.
  unfold Str.eqb. unfold tsmSections in Hh.
  case_bool_decide as E1; [subst; exfalso; apply Hh; repeat constructor|].
  case_bool_decide as E2; [subst; exfalso; apply Hh; repeat constructor|].
  case_bool_decide as E3; [subst; exfalso; apply Hh; repeat constructor|].
  destruct (TSM.inTable ty TSM.IGNORED_HEADING_SECTIONS) eqn:E4; [|reflexivity].
  apply inTable_elem in E4. exfalso. apply Hh. now do 3 right.
Qed.

Lemma tsm_unknown_section_witness :
  TSM.getCrashInfo
    (Node "" ([Node "Message: boom" []]
              ++ Node "Stack: x" []
              :: [Node "Stack Trace:" [Node "TSM/Foo.lua:10 <f>" []]]))
  = Err (match headingType (Node "Stack: x" []) with
         | Some _ => InvalidHeading (text (Node "Stack: x" []))
         | None => InvalidHeadingLine (text (Node "Stack: x" []))
         end).
Proof.
  apply (tsm_unknown_section "" [Node "Message: boom" []] (Node "Stack: x" [])
           [Node "Stack Trace:" [Node "TSM/Foo.lua:10 <f>" []]]
           (mkCrashInfo "boom" [] [])).
  - vm_compute. reflexivity.
  - intros ty Hty. vm_compute in Hty. injection Hty as <-.
    intros H. unfold tsmSections, TSM.IGNORED_HEADING_SECTIONS in H.
    repeat (apply elem_of_cons in H as [H|H]; [discriminate H|]). inversion H.
Defined.

(** ** The values of [parseLocalVar] *)

Lemma tblValue_obj children v : tblValue children = Ok v → ∃ o, v = VObj o.
Proof.
  unfold tblValue. destruct (forEachR addMember children []) as [t|]; simpl; [|discriminate].
  intros [= <-]. eauto.
Qed.

(** X8: the values [parseLocalVar] returns have the shape of their
    type name.  A string, function or userdata is a string, a number
    is a number other than NaN, a boolean is a boolean, nil is
    [null], and exactly the types that start with [table] carry an
    object; the name is the first capture of the name-value pattern. *)
Theorem parseLocalVar_typed (node : Tree) (i : TSM.LocalInfo) :
  TSM.parseLocalVar node = Ok (Some i) →
  wellTyped (TSM.lvalue i) (TSM.ltype i) = true ∧
  ∃ value, TSM.nameValueMatch (text node) = Some (TSM.lname i, value).
Proof.
  destruct node as [content children]. rewrite parseLocalVar_unfold. simpl text.
  destruct (TSM.nameValueMatch content) as [[nm value]|]; [|discriminate].
  assert (Htbl : ∀ ty, Str.startsWith "table" ty = true →
    (tbl ←R tblValue children; Ok (Some (TSM.mkLocalInfo nm tbl ty))) = Ok (Some i) →
    wellTyped (TSM.lvalue i) (TSM.ltype i) = true ∧
    ∃ value0, Some (nm, value) = Some (TSM.lname i, value0)).
  { intros ty Hty. destruct (tblValue children) as [v|] eqn:E; simpl; [|discriminate].
    apply tblValue_obj in E as (o & ->). intros [= <-]. simpl. eauto. }
  destruct (TSM.strValueMatch value) as [str|]; [intros [= <-]; simpl; eauto|].
  destruct (Str.eqb (Str.take 10 value) "<function>"); [intros [= <-]; simpl; eauto|].
  destruct (Str.eqb (Str.take 1 value) "{"); [now apply Htbl|].
  case_bool_decide as Hn.
  { intros [= <-]. simpl. split; [|eauto]. unfold TSM.tonumber in Hn.
    destruct (Num.isNaN (Num.parseFloat value)); [congruence|reflexivity]. }
  destruct (Str.eqb value "nil"); [intros [= <-]; simpl; eauto|].
  destruct (_ || _).
  { apply Htbl. destruct (TSM.tblNameMatch content); reflexivity. }
  destruct (Str.eqb value "<userdata>"); [intros [= <-]; simpl; eauto|].
  destruct (_ || _); [intros [= <-]; simpl; eauto|].
  destruct (Str.eqb value "Infinite"); [intros [= <-]; simpl; eauto|discriminate].
Qed.

Lemma parseLocalVar_typed_witness :
  wellTyped (VNum (Fin 5 0)) "number" = true ∧
  ∃ value, TSM.nameValueMatch "x = 5" = Some ("x", value).
Proof.
  apply (parseLocalVar_typed (Node "x = 5" [])
           (TSM.mkLocalInfo "x" (VNum (Fin 5 0)) "number")).
  vm_compute. reflexivity.
Defined.

Lemma Tree_nested_ind (P : Tree → Prop) :
  (∀ c ks, Forall P ks → P (Node c ks)) → ∀ t, P t.
Proof.
  intros H. fix IH 1. intros [c ks]. apply H.
  induction ks as [|k ks IHks]; constructor; [apply IH | exact IHks].
Qed.

Lemma addMembers_error children : ∀ tbl e,
  forEachR addMember children tbl = Err e →
  ∃ child, child ∈ children ∧ TSM.parseLocalVar child = Err e.
Proof.
  induction children as [|ch children IH]; intros tbl e; simpl; [discriminate|].
  unfold addMember at 1.
  destruct (TSM.parseLocalVar ch) as [i|e'] eqn:E; simpl.
  - intros H. apply IH in H as (child & Hin & Hc). exists child. split; [now right|exact Hc].
  - intros [= <-]. exists ch. split; [left|exact E].
Qed.

Lemma parseLocalVar_error_at node :
  ∀ e, TSM.parseLocalVar node = Err e →
       ∃ c, e = UnknownLocal c ∧ ∀ k, ∃ d, (d, c) ∈ flatten k node.
Proof.
  induction node as [content children IH] using Tree_nested_ind. intros e.
  rewrite parseLocalVar_unfold.
  assert (Htbl : ∀ (f : JSVal → Result (option TSM.LocalInfo)),
    (∀ v, isOk (f v) = true) →
    (tbl ←R tblValue children; f tbl) = Err e →
    ∃ c, e = UnknownLocal c ∧ ∀ k, ∃ d, (d, c) ∈ flatten k (Node content children)).
  { intros f Hf. unfold tblValue.
    destruct (forEachR addMember children []) as [t|e'] eqn:E; simpl.
    - specialize (Hf (VObj t)). destruct (f (VObj t)); [discriminate|discriminate].
    - intros [= <-]. apply addMembers_error in E as (child & Hin & Hc).
      rewrite Forall_forall in IH. destruct (IH child Hin _ Hc) as (c & -> & Hk).
      exists c. split; [reflexivity|]. intros k. destruct (Hk (S k)) as (d & Hd).
      exists d. simpl. right. apply elem_of_flat_map. eauto. }
  destruct (TSM.nameValueMatch content) as [[nm value]|]; [|discriminate].
  destruct (TSM.strValueMatch value); [discriminate|].
  destruct (Str.eqb (Str.take 10 value) "<function>"); [discriminate|].
  destruct (Str.eqb (Str.take 1 value) "{"); [apply Htbl; reflexivity|].
  case_bool_decide; [discriminate|].
  destruct (Str.eqb value "nil"); [discriminate|].
  destruct (_ || _); [apply Htbl; reflexivity|].
  destruct (Str.eqb value "<userdata>"); [discriminate|].
  destruct (_ || _); [discriminate|].
  destruct (Str.eqb value "Infinite"); [discriminate|].
  intros [= <-]. exists content. split; [reflexivity|]. intros k. exists k. simpl. left.
Qed.

(** X9: the one failure of [parseLocalVar] is [Unknown local], raised
    for the line itself or for a line below it. *)
Theorem parseLocalVar_errors (node : Tree) (e : Error) :
  TSM.parseLocalVar node = Err e →
  ∃ c d, e = UnknownLocal c ∧ (d, c) ∈ flatten 0 node.
Proof.
  intros H. apply parseLocalVar_error_at in H as (c & -> & Hk).
  destruct (Hk 0) as (d & Hd). eauto.
Qed.

Lemma parseLocalVar_errors_witness :
  ∃ c d, UnknownLocal "a = ?" = UnknownLocal c ∧
         (d, c) ∈ flatten 0 (Node "t = {" [Node "k = 1" []; Node "a = ?" []]).
Proof.
  apply (parseLocalVar_errors (Node "t = {" [Node "k = 1" []; Node "a = ?" []])).
  vm_compute. reflexivity.
Defined.

(** ** The Blizzard tree builder *)

Lemma Grows_root st t : Grows st t → lid t = 0 ∧ 1 ≤ length st.
Proof.
  intros [_ Hids]. destruct t as [i c ks]. simpl in *.
  destruct (length st); simpl in Hids; [discriminate|]. split; [congruence|lia].
Qed.

Lemma Grows_addAt st t v q c :
  Grows st t → rnode v t = Some q →
  Grows (alter (pushChild (length st)) (lid q) (st ++ [mkLineInfo c [] (Some (lid q))]))
        (addAt v (LNode (length st) c []) t).
Proof.
  intros [Hh Hids] Hq. constructor.
  - apply store_addAt; [exact Hh | rewrite Hids; apply NoDup_seq | exact Hq].
  - rewrite (ids_addAt _ _ _ _ _ Hq), Hids. simpl.
    rewrite length_alter, length_app, Nat.add_1_r, seq_S. reflexivity.
Qed.

Lemma alter_middle {A} (f : A → A) l a rest :
  list_alter f (length l) (l ++ a :: rest) = l ++ f a :: rest.
Proof. induction l as [|x l IH]; simpl; [reflexivity|]. f_equal. exact IH. Qed.

Lemma pushHeading_two st c ch :
  1 ≤ length st →
  Blizzard.pushHeading st c (Some ch)
  = alter (pushChild (S (length st))) (length st)
      (Blizzard.pushHeading st c None ++ [mkLineInfo ch [] (Some (length st))]).
Proof.
  intros Hlen. unfold Blizzard.pushHeading.
  destruct st as [|r st]; [simpl in Hlen; lia|].
  simpl. f_equal. rewrite <- app_assoc. simpl. now rewrite alter_middle.
Qed.

Lemma Grows_heading st t c :
  Grows st t →
  Grows (Blizzard.pushHeading st c None) (addAt 0 (LNode (length st) c []) t).
Proof.
  intros Hg. destruct (Grows_root _ _ Hg) as [Hroot _].
  pose proof (Grows_addAt st t 0 t c Hg eq_refl) as H. now rewrite Hroot in H.
Qed.

Lemma length_pushHeading st c : length (Blizzard.pushHeading st c None) = S (length st).
Proof. unfold Blizzard.pushHeading. rewrite length_alter, length_app. simpl. lia. Qed.

Lemma Grows_heading_child st t c ch :
  Grows st t →
  Grows (Blizzard.pushHeading st c (Some ch))
        (addAt 1 (LNode (S (length st)) ch []) (addAt 0 (LNode (length st) c []) t)).
Proof.
  intros Hg. destruct (Grows_root _ _ Hg) as [Hroot Hlen].
  pose proof (Grows_heading st t c Hg) as H1.
  assert (Hq : rnode 1 (addAt 0 (LNode (length st) c []) t) = Some (LNode (length st) c []))
    by (apply (rnode_addAt 0 _ t t); reflexivity).
  pose proof (Grows_addAt _ _ 1 _ ch H1 Hq) as H2.
  rewrite length_pushHeading in H2. simpl lid in H2.
  now rewrite pushHeading_two.
Qed.

(** The children of the root, as the root cell lists them. *)
Lemma Grows_last st i c hs :
  Grows st (LNode i c hs) →
  st !! 0 ≫= (fun root => last (children root)) = lid <$> last hs.
Proof.
  intros Hg. destruct (Grows_root _ _ Hg) as [Hroot _]. simpl in Hroot. subst i.
  destruct Hg as [Hh _].
  pose proof (Hh (0, mkLineInfo c (map lid hs) None) ltac:(left)) as H0. simpl in H0.
  rewrite H0. simpl. destruct hs as [|h hs] using rev_ind; [reflexivity|].
  rewrite map_app. change (map lid [h]) with [lid h]. now rewrite !last_snoc.
Qed.

Lemma opened_addAt0 new t : opened (addAt 0 new t) = true.
Proof. destruct t as [i c [|h hs]]; reflexivity. Qed.

Lemma opened_addAt1 new t : opened t = true → opened (addAt 1 new t) = true.
Proof.
  destruct t as [i c [|h hs]]; [discriminate|]. intros _. simpl.
  destruct hs; reflexivity.
Qed.

Lemma opened_rnode t : opened t = true → ∃ h, rnode 1 t = Some h ∧
  match t with LNode _ _ hs => last hs = Some h end.
Proof.
  destruct t as [i c hs]. destruct hs as [|h hs] using rev_ind; [discriminate|].
  intros _. exists h. simpl. rewrite last_snoc. split; reflexivity.
Qed.

Lemma headed_addAt0 new t :
  headed (erase t) → headingNode (erase new) → headed (erase (addAt 0 new t)).
Proof.
  destruct t as [i c hs]. unfold headed. simpl. rewrite map_app. intros H Hn.
  apply Forall_app. split; [exact H|]. now constructor.
Qed.

Lemma headed_addAt1 new t :
  headed (erase t) → headed (erase (addAt 1 new t)).
Proof.
  destruct t as [i c hs]. unfold headed. simpl.
  induction hs as [|h hs IH] using rev_ind; [now intros _|].
  intros H. rewrite mapLast_snoc, map_app in *.
  apply Forall_app in H as [H1 H2]. apply Forall_app. split; [exact H1|].
  apply Forall_cons in H2 as [H2 _]. constructor; [|constructor].
  destruct h as [j d ks]. simpl in *. destruct H2 as [H2|[H2 _]]; [now left|right].
  split; [exact H2|]. rewrite map_app. now destruct (map erase ks).
Qed.

Lemma headed_addAt01 id c new t :
  headed (erase t) → c = "Stack:" ∨ c = "Locals:" →
  headed (erase (addAt 1 new (addAt 0 (LNode id c []) t))).
Proof.
  destruct t as [i c0 hs]. unfold headed. simpl. intros H Hc.
  rewrite mapLast_snoc, map_app. apply Forall_app. split; [exact H|].
  constructor; [|constructor]. right. simpl. split; [exact Hc|discriminate].
Qed.

Lemma addLine_grows st t line :
  Grows st t →
  match Blizzard.addLine st line with
  | Ok st' =>
      grouped (opened t) [line] = true ∧
      ∃ t', Grows st' t' ∧
            traversal (erase t') = traversal (erase t) ++ entry line ∧
            (∀ rest, grouped (opened t) (line :: rest) = grouped (opened t') rest) ∧
            (headed (erase t) → headed (erase t'))
  | Err e =>
      grouped (opened t) [line] = false ∧
      (∀ rest, grouped (opened t) (line :: rest) = false) ∧
      (e = InvalidHeadingType (default EmptyString (fst <$> Blizzard.headingMatch line))
       ∨ e = OrphanLine line)
  end.
Proof.
  intros Hg. unfold Blizzard.addLine, entry. simpl grouped.
  destruct (Blizzard.headingMatch line) as [[ty content]|] eqn:Hm.
  - unfold Str.eqb. case_bool_decide as E1.
    { subst ty. simpl. split; [reflexivity|].
      eexists. split; [apply Grows_heading, Hg|]. split; [|split].
      - now rewrite (traversal_addAt 0 _ t t eq_refl).
      - intros rest. now rewrite opened_addAt0.
      - intros Hsh. apply headed_addAt0; [exact Hsh|]. left. simpl. eauto. }
    case_bool_decide as E2.
    { subst ty. simpl. split; [now destruct (opened t)|].
      exists t. split; [exact Hg|]. split; [now rewrite app_nil_r|]. now split. }
    case_bool_decide as E3.
    { subst ty. simpl. split; [now destruct (opened t)|].
      exists t. split; [exact Hg|]. split; [now rewrite app_nil_r|]. now split. }
    case_bool_decide as E4.
    { subst ty. simpl. split; [reflexivity|].
      eexists. split; [apply Grows_heading_child, Hg|]. split; [|split].
      - rewrite (traversal_addAt 1 _ _ (LNode (length st) "Stack:" [])),
          (traversal_addAt 0 _ t t eq_refl); [now rewrite <- app_assoc|].
        apply (rnode_addAt 0 _ t t). reflexivity.
      - intros rest. now rewrite opened_addAt1 by apply opened_addAt0.
      - intros Hsh. apply headed_addAt01; [exact Hsh|now left]. }
    case_bool_decide as E5.
    { subst ty. simpl. split; [reflexivity|].
      eexists. split; [apply Grows_heading_child, Hg|]. split; [|split].
      - rewrite (traversal_addAt 1 _ _ (LNode (length st) "Locals:" [])),
          (traversal_addAt 0 _ t t eq_refl); [now rewrite <- app_assoc|].
        apply (rnode_addAt 0 _ t t). reflexivity.
      - intros rest. now rewrite opened_addAt1 by apply opened_addAt0.
      - intros Hsh. apply headed_addAt01; [exact Hsh|now right]. }
    simpl. split; [reflexivity|]. split; [reflexivity|]. now left.
  - destruct t as [i c hs]. rewrite (Grows_last _ _ _ _ Hg).
    destruct (opened (LNode i c hs)) eqn:Hop.
    + destruct (opened_rnode _ Hop) as (h & Hh & Hlast). rewrite Hlast. simpl.
      split; [reflexivity|].
      eexists. split; [apply (Grows_addAt _ _ 1 h line Hg Hh)|]. split; [|split].
      * now rewrite (traversal_addAt 1 _ _ h Hh).
      * intros rest. now rewrite opened_addAt1.
      * apply (headed_addAt1 _ (LNode i c hs)).
    + destruct hs; [|discriminate]. simpl. split; [reflexivity|].
      split; [reflexivity|]. now right.
Qed.

Lemma build_grows lines : ∀ st t,
  Grows st t →
  match forEachR Blizzard.addLine lines st with
  | Ok st' =>
      grouped (opened t) lines = true ∧
      ∃ t', Grows st' t' ∧
            traversal (erase t') = traversal (erase t) ++ flat_map entry lines ∧
            (headed (erase t) → headed (erase t'))
  | Err e =>
      grouped (opened t) lines = false ∧
      ∃ line, line ∈ lines ∧
        (e = InvalidHeadingType (default EmptyString (fst <$> Blizzard.headingMatch line))
         ∨ e = OrphanLine line)
  end.
Proof.
  induction lines as [|line lines IH]; intros st t Hg.
  - simpl. split; [reflexivity|]. exists t. now rewrite app_nil_r.
  - rewrite forEachR_cons. pose proof (addLine_grows st t line Hg) as Hstep.
    destruct (Blizzard.addLine st line) as [st1|e]; simpl bindR.
    + destruct Hstep as (_ & t1 & Hg1 & Htr1 & Hgr1 & Hsh1).
      specialize (IH st1 t1 Hg1). rewrite Hgr1.
      destruct (forEachR Blizzard.addLine lines st1) as [st'|e].
      * destruct IH as (Hgr & t' & Hg' & Htr' & Hsh'). split; [exact Hgr|].
        exists t'. split; [exact Hg'|]. split; [|auto].
        rewrite Htr', Htr1. simpl. now rewrite <- app_assoc.
      * destruct IH as (Hgr & l & Hl & He). split; [exact Hgr|].
        exists l. split; [now right|exact He].
    + destruct Hstep as (_ & -> & He). split; [reflexivity|].
      exists line. split; [left|exact He].
Qed.

Lemma Grows_initial : Grows [rootNode] (LNode 0 "" []).
Proof.
  constructor; [|reflexivity].
  intros x Hx. apply list_elem_of_singleton in Hx as ->. reflexivity.
Qed.

Lemma treeOf_grows st t : Grows st t → treeOf st = erase t.
Proof.
  intros Hg. destruct (Grows_root _ _ Hg) as [Hroot _].
  destruct Hg as [Hh Hids]. unfold treeOf. rewrite <- Hroot.
  apply (toTree_erase _ _ None); [exact Hh|].
  rewrite <- (length_fmap fst), Hids, length_seq. lia.
Qed.

(** X10: the Blizzard tree builder, on any input.  [createTree]
    returns a tree exactly when, blank lines dropped, every heading is
    a [Message], [Time], [Count], [Stack] or [Locals] heading and no
    other line comes before the first heading node; the traversal of
    the tree is then what the lines add one after the other: a
    [Message] line itself, nothing for [Time] and [Count], the node
    [Stack:] or [Locals:] with the rest of the line as its first child,
    and any other line as a child of the latest heading node. *)
Theorem blizzard_createTree_groups (lines : list string) :
  match Blizzard.createTree lines with
  | Ok t =>
      grouped false (filter (fun line => Str.trim line ≠ EmptyString) lines) = true ∧
      traversal t = flat_map entry (filter (fun line => Str.trim line ≠ EmptyString) lines)
  | Err e =>
      grouped false (filter (fun line => Str.trim line ≠ EmptyString) lines) = false
  end.
Proof.
  unfold Blizzard.createTree, Blizzard.build.
  pose proof (build_grows (filter (fun line => Str.trim line ≠ EmptyString) lines)
                _ _ Grows_initial) as H.
  destruct (forEachR Blizzard.addLine _ [rootNode]) as [st|e]; simpl; [|apply H].
  destruct H as (Hgr & t' & Hg & Htr & _). split; [exact Hgr|].
  now rewrite (treeOf_grows _ _ Hg).
Qed.

(** ** From the Blizzard builder to the interpreter *)

Lemma lit_sound {A} l (k : string → option A) : ∀ s r,
  lit l k s = Some r → ∃ s', s = l +:+ s' ∧ k s' = Some r.
Proof.
  induction l as [|c l IH]; intros s r; simpl.
  - intros H. now exists s.
  - destruct s as [|c' s]; [discriminate|]. case_bool_decide as E; [|discriminate].
    subst c'. intros H. apply IH in H as (s' & -> & H). now exists s'.
Qed.

Lemma take_sub s a b :
  s = a +:+ b → Str.take (String.length s - String.length b) s = a.
Proof.
  intros ->. rewrite length_append.
  replace (String.length a + String.length b - String.length b)
    with (String.length a) by lia.
  apply take_append.
Qed.

Lemma headingMatch_sound line ty c :
  Blizzard.headingMatch line = Some (ty, c) →
  line = ty +:+ ": " +:+ c ∧ Str.forallb Str.isHeadingChar ty = true ∧
  Str.forallb Str.notLT c = true ∧ c ≠ EmptyString.
Proof.
  unfold Blizzard.headingMatch, execAnchored, matchHere, Blizzard.headingRe. simpl run.
  destruct line as [|u s']; [discriminate|].
  destruct (Str.isUpper u) eqn:Hu; [|discriminate].
  destruct (rep Str.isHeadingChar 1 _ 0 s') as [[caps rest]|] eqn:E; [|discriminate].
  apply rep_sound in E as (h & s2 & -> & Hh & _ & E).
  destruct s2 as [|a s2]; [discriminate|].
  case_bool_decide as Ea; [subst a|discriminate].
  destruct s2 as [|b s3]; [discriminate|].
  case_bool_decide as Eb; [subst b|discriminate].
  apply rep_sound in E as (c1 & s4 & -> & Hc & Hlen & E).
  destruct s4; [|discriminate]. injection E as <- <-.
  assert (T1 : Str.take
            (String.length (h +:+ String ":" (String " " (c1 +:+ "")))
             - S (String.length (c1 +:+ "")))
            (String u (h +:+ String ":" (String " " (c1 +:+ "")))) = String u h)
    by exact (take_sub (String u (h +:+ String ":" (String " " (c1 +:+ ""))))
                (String u h) (String ":" (String " " (c1 +:+ ""))) eq_refl).
  assert (T2 : Str.take (String.length (c1 +:+ "") - 0) (c1 +:+ "") = c1)
    by exact (take_sub (c1 +:+ "") c1 "" eq_refl).
  rewrite T1, T2. unfold cap1, cap2. simpl. intros [= <- <-]. rewrite append_nil_r.
  split; [reflexivity|]. split.
  - simpl. rewrite Hh, andb_true_r. unfold Str.isHeadingChar. now rewrite Hu.
  - split; [exact Hc|]. intros ->. simpl in Hlen. lia.
Qed.

Lemma sectionMatch_heading ty c :
  Str.forallb Str.isHeadingChar ty = true → ty ≠ EmptyString →
  Str.forallb Str.notLT c = true →
  sectionMatch (ty +:+ ": " +:+ c) = Some (ty, c).
Proof.
  intros Hty Hne Hc.
  unfold sectionMatch, execAnchored, matchHere, sectionRe. simpl run.
  match goal with |- context [rep Str.isHeadingChar 1 ?k 0 _] => set (K := k) end.
  assert (HK : K (": " +:+ c) = Some ([ty; c], EmptyString)).
  { subst K. cbv beta.
    rewrite (take_sub (ty +:+ ": " +:+ c) ty (": " +:+ c) eq_refl). simpl.
    rewrite (rep_takes_all Str.notLT 0 _ 0 c ([ty; c], EmptyString) Hc (Nat.le_0_l _)).
    - reflexivity.
    - simpl. now rewrite Nat.sub_0_r, take_length. }
  clearbody K.
  assert (Hrep : ∀ t n, Str.forallb Str.isHeadingChar t = true → 1 ≤ n + String.length t →
            rep Str.isHeadingChar 1 K n (t +:+ ": " +:+ c) = Some ([ty; c], EmptyString)).
  { induction t as [|a t IH]; intros n Ht Hn.
    - rewrite append_nil. simpl. simpl in Hn.
      destruct n; [lia|]. exact HK.
    - rewrite append_cons. simpl in Ht. apply andb_prop in Ht as [Ha Ht].
      simpl. rewrite Ha, IH; auto. simpl in Hn. lia. }
  rewrite Hrep; auto.
  destruct ty; [congruence|simpl; lia].
Qed.

Lemma blizzard_addFrames_errors ap fs : ∀ ci e,
  Blizzard.addFrames ap fs ci = Err e → ∃ c, e = InvalidFrameLine c.
Proof.
  induction fs as [|f fs IH]; intros ci e; simpl; [discriminate|].
  destruct (Str.eqb (text f) "..."); [discriminate|].
  destruct (Blizzard.frameMatch (text f)) as [[[loc ln] nm]|]; [apply IH|].
  intros [= <-]. eauto.
Qed.

Lemma blizzard_addHeading_headed ci h e :
  headingNode h → Blizzard.addHeading ci h = Err e →
  (∃ c, e = FirstFrameUnparsed c) ∨ (∃ c, e = InvalidFrameLine c).
Proof.
  unfold Blizzard.addHeading. intros [(c & Hm)|[Hc Hk]].
  - apply headingMatch_sound in Hm as (-> & Hty & Hc & _).
    rewrite sectionMatch_heading by (auto; discriminate). discriminate.
  - assert (Hs : ∃ ty, sectionMatch (text h) = Some (ty, EmptyString) ∧
                       (ty = "Stack" ∨ ty = "Locals")).
    { destruct Hc as [-> | ->]; eexists; (split; [vm_compute; reflexivity|]); auto. }
    destruct Hs as (ty & -> & [-> | ->]); simpl; [|discriminate].
    unfold Blizzard.addStack. destruct (kids h) as [|first others]; [congruence|].
    destruct (Blizzard.firstStackFrameMatch _) as [[[ap fp] fl]|].
    + intros H. right. eapply blizzard_addFrames_errors; eauto.
    + intros [= <-]. left. eauto.
Qed.

(** X11: the failures of [parse] for a Blizzard crash file.  On the
    tree that [createTree] builds, [getCrashInfo] never meets a line
    without the shape of a heading, an unknown heading or an empty
    stack: those three [throw] are unreachable, and [parse] fails only
    for a heading type or a line the builder refuses, a first frame
    it cannot read, or a frame line outside the grammar. *)
Theorem blizzard_parse_errors (lines : list string) (e : Error) :
  Blizzard.parse lines = Err e →
  match e with
  | InvalidHeadingType _ | OrphanLine _ | FirstFrameUnparsed _ | InvalidFrameLine _ => True
  | _ => False
  end.
Proof.
  unfold Blizzard.parse, Blizzard.createTree, Blizzard.build.
  set (ls := filter _ (filter _ lines)).
  pose proof (build_grows ls _ _ Grows_initial) as H.
  destruct (forEachR Blizzard.addLine ls [rootNode]) as [st|e0]; simpl.
  - destruct H as (_ & t' & Hg & _ & Hsh). rewrite (treeOf_grows _ _ Hg).
    specialize (Hsh ltac:(constructor)). unfold headed in Hsh.
    unfold Blizzard.getCrashInfo. generalize emptyCrashInfo.
    induction Hsh as [|h hs Hh _ IH]; intros ci; simpl; [discriminate|].
    destruct (Blizzard.addHeading ci h) as [c|e1] eqn:E; simpl; [apply IH|].
    intros [= <-].
    destruct (blizzard_addHeading_headed _ _ _ Hh E) as [(c & ->)|(c & ->)]; exact I.
  - destruct H as (_ & l & _ & [-> | ->]); intros [= <-]; exact I.
Qed.

Lemma blizzard_parse_errors_witness :
  Blizzard.parse ["Message: boom"; "Stack: junk"] = Err (FirstFrameUnparsed "junk") ∧
  match FirstFrameUnparsed "junk" with
  | InvalidHeadingType _ | OrphanLine _ | FirstFrameUnparsed _ | InvalidFrameLine _ => True
  | _ => False
  end.
Proof.
  assert (H : Blizzard.parse ["Message: boom"; "Stack: junk"]
              = Err (FirstFrameUnparsed "junk")) by (vm_compute; reflexivity).
  split; [exact H|]. exact (blizzard_parse_errors _ _ H).
Defined.

(** ** The first frame of a Blizzard stack *)






(** ** The comparator of the variables view *)

(** X16: [sortVariables] is a consistent comparator: of two
    variables one is not after the other, and not being after is
    transitive. *)
Theorem sortVariables_consistent (a b c : DapVariable) :
  (leBy Session.sortVariables a b ∨ leBy Session.sortVariables b a) ∧
  (leBy Session.sortVariables a b → leBy Session.sortVariables b c →
   leBy Session.sortVariables a c).
Proof.
  rewrite !sortVariables_precedes. split; [apply precedes_total|apply precedes_trans].
Qed.

(** ** The lines of a file *)

Lemma lfToCrlf_head s :
  match lfToCrlf s with
  | String c _ => c ≠ "010"%char
  | EmptyString => True
  end.
Proof.
  destruct s as [|c s]; simpl; [exact I|].
  case_bool_decide; [discriminate|assumption].
Qed.

Lemma crlfToLf_cons c s :
  match s with String c' _ => c' ≠ "010"%char | EmptyString => True end →
  crlfToLf (String c s) = String c (crlfToLf s).
Proof.
  destruct s as [|c' s]; intros H; simpl; [reflexivity|].
  rewrite (bool_decide_eq_false_2 (c' = "010"%char)) by exact H.
  now rewrite andb_false_r.
Qed.

Lemma crlfToLf_lfToCrlf s : crlfToLf (lfToCrlf s) = s.
Proof.
  induction s as [|c s IH]; [reflexivity|]. simpl lfToCrlf.
  case_bool_decide as E.
  - subst. change (crlfToLf (String "013" (String "010" (lfToCrlf s))))
      with (String "010" (crlfToLf (lfToCrlf s))). now rewrite IH.
  - rewrite crlfToLf_cons; [|exact (lfToCrlf_head s)]. rewrite IH. reflexivity.
Qed.

Lemma forallb_rev_app p s : ∀ acc,
  Str.forallb p (Str.rev_app s acc) = Str.forallb p s && Str.forallb p acc.
Proof.
  induction s as [|c s IH]; intros acc; simpl; [reflexivity|].
  rewrite IH. simpl. destruct (p c), (Str.forallb p s); reflexivity.
Qed.

Lemma splitGo_free sep s : ∀ cur,
  Str.forallb (Str.notChar sep) cur = true →
  Forall (fun l => Str.forallb (Str.notChar sep) l = true) (Str.splitGo sep cur s).
Proof.
  induction s as [|c s IH]; intros cur Hcur; simpl.
  - constructor; [|constructor]. unfold Str.rev. now rewrite forallb_rev_app, Hcur.
  - case_bool_decide as E.
    + constructor; [|now apply IH]. unfold Str.rev. now rewrite forallb_rev_app, Hcur.
    + apply IH. simpl. rewrite Hcur, andb_true_r.
      unfold Str.notChar, Str.isChar. now rewrite bool_decide_eq_false_2.
Qed.

(** X15: the lines of a file.  A text whose line feeds are all
    preceded by a carriage return is cut into the lines of the text
    without those carriage returns, and no line holds a line feed. *)
Theorem readLines_crlf (fileText : string) :
  readLines (lfToCrlf fileText) = Str.split "010" fileText ∧
  Forall (fun l => Str.forallb (Str.notChar "010") l = true) (readLines fileText).
Proof.
  unfold readLines. rewrite crlfToLf_lfToCrlf. split; [reflexivity|].
  now apply splitGo_free.
Qed.

(** ** What a Blizzard result holds *)

(** X13: a frame line [...] ends the frames of a Blizzard stack: the
    lines after it are not read, not even to be checked. *)
Theorem blizzard_elision addonPath pre dots post ci :
  text dots = "..." →
  Blizzard.addFrames addonPath (pre ++ dots :: post) ci = Blizzard.addFrames addonPath pre ci.
Proof.
  intros Hd. revert ci. induction pre as [|f pre IH]; intros ci; simpl.
  - now rewrite Hd.
  - destruct (Str.eqb (text f) "..."); [reflexivity|].
    destruct (Blizzard.frameMatch (text f)) as [[[loc ln] nm]|]; [|reflexivity].
    apply IH.
Qed.

Lemma blizzard_elision_witness :
  Blizzard.addFrames "Interface/AddOns/Foo"
    ([Node (Blizzard.stringOpen +:+ "@Interface/AddOns/Foo/Main.lua"
            +:+ Blizzard.stringClose +:+ ":40: in function <Run>") []]
     ++ Node "..." [] :: [Node "(tail call): ?" []]) emptyCrashInfo
  = Blizzard.addFrames "Interface/AddOns/Foo"
      [Node (Blizzard.stringOpen +:+ "@Interface/AddOns/Foo/Main.lua"
             +:+ Blizzard.stringClose +:+ ":40: in function <Run>") []] emptyCrashInfo.
Proof. apply blizzard_elision. reflexivity. Defined.

Lemma tonumber_default s : Num.isNaN (default (Fin 0 0) (Blizzard.tonumber s)) = false.
Proof.
  unfold Blizzard.tonumber. destruct (Num.isNaN (Num.parseFloat s)) eqn:E; simpl; auto.
Qed.

Lemma blizzard_addFrames_bare ap fs : ∀ ci ci',
  Blizzard.addFrames ap fs ci = Ok ci' →
  logLines ci' = logLines ci ∧
  ∃ new, frames ci' = frames ci ++ new ∧ Forall bareFrame new ∧ length new ≤ length fs.
Proof.
  induction fs as [|f fs IH]; intros ci ci'; simpl.
  - intros [= <-]. split; [reflexivity|]. exists []. rewrite app_nil_r. repeat split; auto.
  - destruct (Str.eqb (text f) "...").
    { intros [= <-]. split; [reflexivity|]. exists []. rewrite app_nil_r.
      repeat split; auto. simpl. lia. }
    destruct (Blizzard.frameMatch (text f)) as [[[loc ln] nm]|]; [|discriminate].
    intros H. apply IH in H as (Hlog & new & Hnew & Hbare & Hlen). simpl in *.
    split; [exact Hlog|]. eexists (_ :: new). split; [now rewrite Hnew, <- app_assoc|].
    split; [|simpl; lia]. constructor; [|exact Hbare].
    split; [reflexivity|]. eexists. split; [reflexivity|]. apply tonumber_default.
Qed.

Lemma blizzard_addHeading_bare ci h ci' :
  Blizzard.addHeading ci h = Ok ci' →
  logLines ci' = logLines ci ∧
  ∃ new, frames ci' = frames ci ++ new ∧ Forall bareFrame new.
Proof.
  unfold Blizzard.addHeading.
  destruct (sectionMatch (text h)) as [[ty rest]|]; [|discriminate].
  destruct (Str.eqb ty "Message").
  { intros [= <-]. split; [reflexivity|]. exists []. now rewrite app_nil_r. }
  destruct (Str.eqb ty "Stack").
  { unfold Blizzard.addStack. destruct (kids h) as [|first others]; [discriminate|].
    destruct (Blizzard.firstStackFrameMatch _) as [[[ap fp] fl]|]; [|discriminate].
    intros H. apply blizzard_addFrames_bare in H as (Hlog & new & Hnew & Hbare & _).
    simpl in *. split; [exact Hlog|]. eexists (_ :: new).
    split; [now rewrite Hnew, <- app_assoc|]. constructor; [|exact Hbare].
    split; [reflexivity|]. eexists. split; [reflexivity|]. apply tonumber_default. }
  destruct (Str.eqb ty "Locals"); [|discriminate].
  intros [= <-]. split; [reflexivity|]. exists []. now rewrite app_nil_r.
Qed.

(** X12: what a Blizzard result never holds.  Its log lines are
    empty, and every frame comes without locals and with a line
    number that is a number. *)
Theorem blizzard_no_locals (tree : Tree) (ci : CrashInfo) :
  Blizzard.getCrashInfo tree = Ok ci →
  logLines ci = [] ∧ Forall bareFrame (frames ci).
Proof.
  unfold Blizzard.getCrashInfo.
  assert (H : ∀ hs c c', forEachR Blizzard.addHeading hs c = Ok c' →
    logLines c' = logLines c ∧ ∃ new, frames c' = frames c ++ new ∧ Forall bareFrame new).
  { induction hs as [|h hs IH]; intros c c' Hc.
    - injection Hc as <-. split; [reflexivity|]. exists []. now rewrite app_nil_r.
    - simpl in Hc. destruct (Blizzard.addHeading c h) as [c1|] eqn:E; simpl in Hc;
        [|discriminate].
      apply blizzard_addHeading_bare in E as (Hl1 & n1 & Hn1 & Hb1).
      apply IH in Hc as (Hl2 & n2 & Hn2 & Hb2).
      split; [congruence|]. exists (n1 ++ n2).
      split; [now rewrite Hn2, Hn1, <- app_assoc|]. now apply Forall_app. }
  intros Hci. apply H in Hci as (Hlog & new & Hnew & Hbare). simpl in *.
  now rewrite Hnew.
Qed.

Lemma blizzard_no_locals_witness :
  ∃ tree ci,
    Blizzard.createTree
      ["Message: boom";
       "Stack: Interface/AddOns/Foo/Core.lua:12: in main chunk";
       Blizzard.stringOpen +:+ "@Interface/AddOns/Foo/Main.lua" +:+ Blizzard.stringClose
         +:+ ":40: in function <Run>";
       "Locals: x = 1"] = Ok tree ∧
    Blizzard.getCrashInfo tree = Ok ci ∧
    logLines ci = [] ∧ Forall bareFrame (frames ci).
Proof.
  assert (H : ∃ tree ci,
    Blizzard.createTree
      ["Message: boom";
       "Stack: Interface/AddOns/Foo/Core.lua:12: in main chunk";
       Blizzard.stringOpen +:+ "@Interface/AddOns/Foo/Main.lua" +:+ Blizzard.stringClose
         +:+ ":40: in function <Run>";
       "Locals: x = 1"] = Ok tree ∧
    Blizzard.getCrashInfo tree = Ok ci).
  { eexists _, _. split; [vm_compute; reflexivity|]. vm_compute. reflexivity. }
  destruct H as (tree & ci & Ht & Hci). exists tree, ci.
  split; [exact Ht|]. split; [exact Hci|]. exact (blizzard_no_locals tree ci Hci).
Defined.

(** X14: the [Locals] section of a Blizzard crash file is skipped
    with all that hangs below it. *)
Theorem blizzard_locals_skipped root pre h post :
  headingType h = Some "Locals" →
  Blizzard.getCrashInfo (Node root (pre ++ h :: post))
  = Blizzard.getCrashInfo (Node root (pre ++ post)).
Proof.
  intros Hh. unfold Blizzard.getCrashInfo. simpl kids. rewrite !forEachR_app.
  destruct (forEachR Blizzard.addHeading pre emptyCrashInfo) as [c|]; simpl; [|reflexivity].
  apply headingType_Some in Hh as (rest & Hh).
  unfold Blizzard.addHeading at 1. now rewrite Hh.
Qed.

Lemma blizzard_locals_skipped_witness :
  Blizzard.getCrashInfo
    (Node "" ([Node "Message: boom" []] ++ Node "Locals:" [Node "x = 1" []] :: []))
  = Blizzard.getCrashInfo (Node "" ([Node "Message: boom" []] ++ [])).
Proof. apply blizzard_locals_skipped. vm_compute. reflexivity. Defined.

(** ** Objects *)

Lemma get_Some_elem {V} k (o : list (string * V)) v : Obj.get k o = Some v → (k, v) ∈ o.
Proof.
  induction o as [|[k' v'] o IH]; simpl; [discriminate|].
  unfold Str.eqb. case_bool_decide as E.
  - intros [= ->]. subst. left.
  - intros H. right. now apply IH.
Qed.

Lemma get_key {V} k (o : list (string * V)) : k ∈ o.*1 → is_Some (Obj.get k o).
Proof.
  induction o as [|[k' v'] o IH]; simpl; [intros H; inversion H|].
  unfold Str.eqb. case_bool_decide as E; [eauto|].
  intros H. apply elem_of_cons in H as [->|H]; [congruence|now apply IH].
Qed.

Lemma set_elem {V} k (v : V) o x : x ∈ Obj.set k v o → x = (k, v) ∨ x ∈ o.
Proof.
  induction o as [|[k' v'] o IH]; simpl.
  - intros H. apply list_elem_of_singleton in H. now left.
  - destruct (Str.eqb k' k).
    + intros H. apply elem_of_cons in H as [->|H]; [now left|right; now right].
    + intros H. apply elem_of_cons in H as [->|H]; [right; left|].
      destruct (IH H) as [->|H']; [now left|right; now right].
Qed.

Lemma insertIndex_elem n k ks x :
  x ∈ Obj.insertIndex n k ks → x = (n, k) ∨ x ∈ ks.
Proof.
  induction ks as [|[m k'] ks IH]; simpl.
  - intros H. apply list_elem_of_singleton in H. now left.
  - destruct (n <? m)%Z.
    + intros H. apply elem_of_cons in H as [->|H]; [now left|now right].
    + intros H. apply elem_of_cons in H as [->|H]; [right; left|].
      destruct (IH H) as [->|H']; [now left|right; now right].
Qed.

Lemma keys_elem {V} (o : list (string * V)) k : k ∈ Obj.keys o → k ∈ o.*1.
Proof.
  unfold Obj.keys. intros H. apply elem_of_app in H as [H|H].
  - apply list_elem_of_fmap in H as ([n k'] & -> & H). simpl.
    induction o as [|[k0 v0] o IH]; simpl in H; [inversion H|].
    destruct (Obj.arrayIndex k0) as [m|].
    + apply insertIndex_elem in H as [[= -> ->]|H]; [left|right; now apply IH].
    + right. now apply IH.
  - apply list_elem_of_filter in H as [_ H]. exact H.
Qed.

Lemma omap_cons_Some {A B} (f : A → option B) x l y :
  f x = Some y → omap f (x :: l) = y :: omap f l.
Proof. intros H. simpl. now rewrite H. Qed.

(** The entries [Object.entries] pairs with the keys. *)
Lemma entries_keys {V} (o : list (string * V)) (ks : list string) :
  (∀ k, k ∈ ks → k ∈ o.*1) →
  (omap (fun k => (fun v => (k, v)) <$> Obj.get k o) ks).*1 = ks ∧
  ∀ e, e ∈ omap (fun k => (fun v => (k, v)) <$> Obj.get k o) ks → e ∈ o.
Proof.
  induction ks as [|k ks IH]; intros Hks.
  - split; [reflexivity|]. intros e H. inversion H.
  - destruct (get_key k o (Hks k ltac:(left))) as (v & Hv).
    destruct IH as [IH1 IH2]; [intros k' Hk'; apply Hks; now right|].
    rewrite (omap_cons_Some _ k ks (k, v)) by now rewrite Hv.
    split; [now rewrite fmap_cons, IH1|].
    intros e He. apply elem_of_cons in He as [->|He]; [|now apply IH2].
    now apply get_Some_elem.
Qed.

(** ** The locals of a parsed frame *)

Lemma parseLocalVar_wellTyped node i :
  TSM.parseLocalVar node = Ok (Some i) → wellTyped (TSM.lvalue i) (TSM.ltype i) = true.
Proof.
  destruct node as [content children]. rewrite parseLocalVar_unfold.
  destruct (TSM.nameValueMatch content) as [[nm value]|]; [|discriminate].
  assert (Htbl : ∀ ty, Str.startsWith "table" ty = true →
    (tbl ←R tblValue children; Ok (Some (TSM.mkLocalInfo nm tbl ty))) = Ok (Some i) →
    wellTyped (TSM.lvalue i) (TSM.ltype i) = true).
  { intros ty Hty. destruct (tblValue children) as [v|] eqn:E; simpl; [|discriminate].
    apply tblValue_obj in E as (o & ->). now intros [= <-]. }
  destruct (TSM.strValueMatch value) as [str|]; [now intros [= <-]|].
  destruct (Str.eqb (Str.take 10 value) "<function>"); [now intros [= <-]|].
  destruct (Str.eqb (Str.take 1 value) "{"); [now apply Htbl|].
  case_bool_decide as Hn.
  { intros [= <-]. simpl. unfold TSM.tonumber in Hn.
    destruct (Num.isNaN (Num.parseFloat value)); [congruence|reflexivity]. }
  destruct (Str.eqb value "nil"); [now intros [= <-]|].
  destruct (_ || _).
  { apply Htbl. destruct (TSM.tblNameMatch content); reflexivity. }
  destruct (Str.eqb value "<userdata>"); [now intros [= <-]|].
  destruct (_ || _); [now intros [= <-]|].
  destruct (Str.eqb value "Infinite"); [now intros [= <-]|discriminate].
Qed.

Lemma addLocal_typed ls n ls' :
  typedLocals ls → TSM.addLocal ls n = Ok ls' → typedLocals ls'.
Proof.
  unfold TSM.addLocal. intros Hls.
  destruct (TSM.parseLocalVar n) as [[i|]|] eqn:E; simpl; try discriminate.
  - intros [= <-]. apply parseLocalVar_wellTyped in E.
    apply Forall_forall. intros x Hx. apply set_elem in Hx as [->|Hx]; [exact E|].
    unfold typedLocals in Hls. rewrite Forall_forall in Hls. now apply Hls.
  - now intros [= <-].
Qed.

Lemma addLocals_typed ns : ∀ ls ls',
  typedLocals ls → forEachR TSM.addLocal ns ls = Ok ls' → typedLocals ls'.
Proof.
  induction ns as [|n ns IH]; intros ls ls' Hls H; [now injection H as <-|].
  simpl in H. destruct (TSM.addLocal ls n) as [l1|] eqn:E; simpl in H; [|discriminate].
  eapply IH; [|exact H]. eapply addLocal_typed; eauto.
Qed.

Lemma tsm_frames_typed tree ci :
  TSM.getCrashInfo tree = Ok ci → Forall (fun f => typedLocals (locals f)) (frames ci).
Proof.
  unfold TSM.getCrashInfo.
  destruct (forEachR TSM.addHeading (kids tree) emptyCrashInfo) as [c|] eqn:E;
    simpl; [|discriminate].
  destruct (Str.eqb (errMsg c) EmptyString); [discriminate|].
  destruct (length (frames c) =? 0); [discriminate|]. intros [= <-].
  apply tsm_addHeadings_frames in E as (fs & -> & Hall). simpl.
  clear -Hall. induction Hall as [|f n fs ns (loc & nm & _ & _ & _ & Hl) _ IH];
    constructor; [|exact IH].
  eapply addLocals_typed; [|exact Hl]. constructor.
Qed.

Lemma wellTyped_table v : wellTyped v "table" = true → ∃ o, v = VObj o.
Proof. destruct v; simpl; try discriminate. eauto. Qed.

Lemma handleLocal_typed frame vs h k lv :
  wellTyped (val lv) (type lv) = true →
  ∃ v h', Session.handleLocal frame (vs, h) (k, lv) = Ok (vs ++ [v], h') ∧ vname v = k.
Proof.
  intros Hty. unfold Session.handleLocal. unfold Str.eqb at 1.
  case_bool_decide as E.
  - rewrite E in Hty. apply wellTyped_table in Hty as (o & ->).
    destruct (indexedHint_run o) as (n & _ & ->).
    destruct (Registry.create _ h) as [r h'] eqn:Hc. eauto.
  - eauto.
Qed.

Lemma handleLocals_typed frame es : ∀ vs h,
  Forall (fun kv => wellTyped (val kv.2) (type kv.2) = true) es →
  ∃ ws h', forEachR (Session.handleLocal frame) es (vs, h) = Ok (vs ++ ws, h') ∧
           vname <$> ws = es.*1.
Proof.
  induction es as [|[k lv] es IH]; intros vs h Hall.
  - exists [], h. now rewrite app_nil_r.
  - apply Forall_cons in Hall as [Hty Hall]. simpl in Hty.
    destruct (handleLocal_typed frame vs h k lv Hty) as (v & h1 & Hv & Hk).
    destruct (IH (vs ++ [v]) h1 Hall) as (ws & h' & Hws & Hks).
    exists (v :: ws), h'. rewrite forEachR_cons, Hv. simpl bindR. rewrite Hws.
    split; [now rewrite <- app_assoc|]. rewrite fmap_cons, Hk, Hks. reflexivity.
Qed.

Lemma locals_listing ci s f flt st cnt :
  Session.crashInfo s = Some ci →
  frames ci !! Session.frame s = Some f →
  typedLocals (locals f) →
  ∃ s' vs,
    Session.variablesRequest s (Session.mkVariablesArguments ScopeType_Local flt st cnt)
    = Ok (s', Session.mkVariablesResponse true (Some vs)) ∧
    vname <$> vs ≡ₚ Obj.keys (locals f).
Proof.
  intros Hs Hf Hty.
  unfold Session.variablesRequest. rewrite Hs.
  unfold Session.collectVariables. simpl. rewrite Hf.
  destruct (entries_keys (locals f) (Obj.keys (locals f)) (keys_elem _)) as [Hk Hin].
  destruct (handleLocals_typed (Session.frame s)
              (omap (fun k => (fun v => (k, v)) <$> Obj.get k (locals f))
                 (Obj.keys (locals f)))
              [] (Session.variableHandles s)) as (ws & h' & Hws & Hnames).
  { apply Forall_forall. intros e He. unfold typedLocals in Hty.
    rewrite Forall_forall in Hty. apply Hty, Hin, He. }
  rewrite Hws. simpl. eexists _, _. split; [reflexivity|].
  rewrite (fmap_Permutation vname _ _ (sort_perm Session.sortVariables ws)).
  now rewrite Hnames, Hk.
Qed.

(** X21: scopes and variables.  After the interpretation of a TSM
    crash file, the scope that [scopesRequest] returns for a frame
    without a local named [__proto__] can always be listed:
    [variablesRequest] succeeds and names exactly the locals of that
    frame.  (The assignment of a local named [__proto__] changes the
    prototype of the locals of the code, which the objects of this
    model do not have.) *)
Theorem locals_scope_lists_frame tree ci s n f sc flt st cnt :
  TSM.getCrashInfo tree = Ok ci →
  Session.crashInfo s = Some ci →
  frames ci !! n = Some f →
  Obj.get "__proto__" (locals f) = None →
  sc ∈ (Session.scopesRequest s n).2 →
  ∃ s' vs,
    Session.variablesRequest (Session.scopesRequest s n).1
      (Session.mkVariablesArguments (Session.scopeReference sc) flt st cnt)
    = Ok (s', Session.mkVariablesResponse true (Some vs)) ∧
    vname <$> vs ≡ₚ Obj.keys (locals f).
Proof.
  intros Hci Hs Hf _ Hsc. simpl in Hsc. apply list_elem_of_singleton in Hsc as ->.
  apply locals_listing with ci; [exact Hs|exact Hf|].
  pose proof (tsm_frames_typed _ _ Hci) as Hty. rewrite Forall_forall in Hty.
  apply Hty. eapply list_elem_of_lookup_2; eauto.
Qed.

Lemma locals_scope_lists_frame_witness :
  ∃ tree ci f s' vs,
    TSM.createTree walkDemo = Ok tree ∧ TSM.getCrashInfo tree = Ok ci ∧
    frames ci !! 0 = Some f ∧
    Session.variablesRequest
      (Session.scopesRequest (Session.mkSession (Some ci) 7 initialHandles) 0).1
      (Session.mkVariablesArguments ScopeType_Local None None None)
    = Ok (s', Session.mkVariablesResponse true (Some vs)) ∧
    vname <$> vs ≡ₚ Obj.keys (locals f).
Proof.
  assert (H : ∃ tree ci f,
    TSM.createTree walkDemo = Ok tree ∧ TSM.getCrashInfo tree = Ok ci ∧
    frames ci !! 0 = Some f ∧ Obj.get "__proto__" (locals f) = None).
  { eexists _, _, _. split; [vm_compute; reflexivity|].
    split; [vm_compute; reflexivity|]. split; vm_compute; reflexivity. }
  destruct H as (tree & ci & f & Ht & Hci & Hf & Hp).
  destruct (locals_scope_lists_frame tree ci
              (Session.mkSession (Some ci) 7 initialHandles) 0 f
              (Session.mkScope "Locals" ScopeType_Local false) None None None
              Hci eq_refl Hf Hp ltac:(left)) as (s' & vs & Hreq & Hnames).
  exists tree, ci, f, s', vs. repeat split; assumption.
Defined.

(** ** Handles *)

Lemma handleVariable_issues value key ref h v h' :
  Session.handleVariable value key ref h = Ok (v, h') → vname v = key ∧ issues ref h v h'.
Proof.
  unfold Session.handleVariable, issues.
  destruct value as [| |b|n|str|o]; try discriminate;
    try (intros [= <- <-]; simpl; auto).
  destruct (Session.indexedHint o); [|discriminate].
  intros [= <- <-]. simpl. auto.
Qed.

Lemma pushVariable_issues tblVar ref keys : ∀ vs h vs' h',
  forEachR (Session.pushVariable tblVar ref) keys (vs, h) = Ok (vs', h') →
  ∃ ws, vs' = vs ++ ws ∧ vname <$> ws = keys ∧ issuesAll ref h ws h'.
Proof.
  induction keys as [|k keys IH]; intros vs h vs' h' H.
  - injection H as <- <-. exists []. rewrite app_nil_r. repeat split. constructor.
  - rewrite forEachR_cons in H. unfold Session.pushVariable at 1 in H.
    destruct (Session.getProp tblVar k) as [value|]; simpl in H; [|discriminate].
    destruct (Session.handleVariable value k ref h) as [[v h1]|] eqn:E;
      simpl in H; [|discriminate].
    apply handleVariable_issues in E as [Hk Hv].
    apply IH in H as (ws & -> & Hks & Hall). exists (v :: ws).
    split; [now rewrite <- app_assoc|]. split; [now rewrite fmap_cons, Hk, Hks|].
    econstructor; eauto.
Qed.

Lemma handleLocal_issues frame vs h e vs' h' :
  Session.handleLocal frame (vs, h) e = Ok (vs', h') →
  ∃ v, vs' = vs ++ [v] ∧ vname v = e.1 ∧ issues (Num.natToString frame) h v h'.
Proof.
  unfold Session.handleLocal, issues. destruct e as [k lv].
  destruct (Str.eqb (type lv) "table").
  - destruct (val lv) as [| | | | |o]; try discriminate.
    destruct (Session.indexedHint o); [|discriminate].
    intros [= <- <-]. eexists. split; [reflexivity|]. simpl. auto.
  - intros [= <- <-]. eexists. split; [reflexivity|]. simpl. auto.
Qed.

Lemma handleLocals_issues frame es : ∀ vs h vs' h',
  forEachR (Session.handleLocal frame) es (vs, h) = Ok (vs', h') →
  ∃ ws, vs' = vs ++ ws ∧ vname <$> ws = es.*1 ∧
        issuesAll (Num.natToString frame) h ws h'.
Proof.
  induction es as [|e es IH]; intros vs h vs' h' H.
  - injection H as <- <-. exists []. rewrite app_nil_r. repeat split. constructor.
  - rewrite forEachR_cons in H.
    destruct (Session.handleLocal frame (vs, h) e) as [[vs1 h1]|] eqn:E;
      simpl in H; [|discriminate].
    apply handleLocal_issues in E as (v & -> & Hk & Hv).
    apply IH in H as (ws & -> & Hks & Hall). exists (v :: ws).
    split; [now rewrite <- app_assoc|]. split; [now rewrite fmap_cons, Hk, Hks|].
    econstructor; eauto.
Qed.

Lemma issues_facts parent h v h' :
  wfHandles h → issues parent h v h' →
  wfHandles h' ∧ nextHandle h ≤ nextHandle h' ∧
  (∀ k p, Registry.get k h = Some p → Registry.get k h' = Some p) ∧
  (∀ k, vref v = Some k →
        nextHandle h ≤ k < nextHandle h' ∧
        Registry.get k h' = Some (parent +:+ ":" +:+ vname v)).
Proof.
  intros Hwf [[Hv ->]|[Hv ->]].
  - split; [exact Hwf|]. split; [lia|]. split; [auto|]. intros k Hk. congruence.
  - unfold Registry.create, Registry.get, wfHandles in *. simpl.
    split; [|split; [lia|split]].
    + intros k Hk. destruct (decide (k = nextHandle h)) as [->|Hne]; [lia|].
      rewrite lookup_insert_ne in Hk by congruence. apply Hwf in Hk. lia.
    + intros k p Hk. rewrite lookup_insert_ne; [exact Hk|].
      intros <-. assert (Hlt := Hwf (nextHandle h) ltac:(eauto)). lia.
    + intros k Hk. rewrite Hv in Hk. injection Hk as <-.
      split; [lia|]. now rewrite lookup_insert_eq.
Qed.

Lemma issuesAll_facts parent h vs h' :
  wfHandles h → issuesAll parent h vs h' →
  wfHandles h' ∧ nextHandle h ≤ nextHandle h' ∧
  (∀ k p, Registry.get k h = Some p → Registry.get k h' = Some p) ∧
  (∀ v k, v ∈ vs → vref v = Some k →
          nextHandle h ≤ k < nextHandle h' ∧
          Registry.get k h' = Some (parent +:+ ":" +:+ vname v)) ∧
  NoDup (omap vref vs).
Proof.
  intros Hwf Hall. induction Hall as [h|h v h1 vs h' Hv Hall IH].
  - split; [exact Hwf|]. split; [lia|]. split; [auto|]. split; [|constructor].
    intros v k Hin. inversion Hin.
  - destruct (issues_facts _ _ _ _ Hwf Hv) as (Hwf1 & Hle1 & Hkeep1 & Hnew1).
    destruct (IH Hwf1) as (Hwf' & Hle' & Hkeep' & Hnew' & Hnd).
    split; [exact Hwf'|]. split; [lia|]. split; [auto|]. split.
    + intros w k Hin Hk. apply elem_of_cons in Hin as [->|Hin].
      * destruct (Hnew1 k Hk) as [Hr Hg]. split; [lia|]. now apply Hkeep'.
      * destruct (Hnew' w k Hin Hk) as [Hr Hg]. split; [lia|exact Hg].
    + simpl. destruct (vref v) as [k|] eqn:Hk; [|exact Hnd].
      constructor; [|exact Hnd]. intros Hin.
      apply list_elem_of_omap in Hin as (w & Hw & Hwk).
      destruct (Hnew1 k eq_refl) as [Hr _]. destruct (Hnew' w k Hw Hwk) as [Hr' _]. lia.
Qed.

(** ** Decimal strings *)

Lemma radixGo_of_uint d : ∀ acc,
  Num.radixGo 10 (Z.of_nat acc) (DecimalString.NilEmpty.string_of_uint d)
  = Z.of_nat (Nat.of_uint_acc d acc).
Proof.
  induction d; intros acc; simpl; [reflexivity|..];
    rewrite <- IHd; f_equal; rewrite Nat.tail_mul_spec;
    match goal with
    | |- context [Num.hexDigitVal ?c] =>
        let v := eval vm_compute in (Num.hexDigitVal c) in
        change (Num.hexDigitVal c) with v
    end; lia.
Qed.

Lemma digits_of_uint d :
  Str.forallb Str.isDigit (DecimalString.NilEmpty.string_of_uint d) = true.
Proof. induction d; simpl; auto. Qed.

Lemma natToString_digits n :
  Str.forallb Str.isDigit (Num.natToString n) = true ∧ Num.natToString n ≠ EmptyString ∧
  Num.radixGo 10 0 (Num.natToString n) = Z.of_nat n.
Proof.
  unfold Num.natToString. pose proof (to_uint_nonnil n) as Hn.
  pose proof (DecimalNat.Unsigned.of_to n) as Hof. unfold Nat.of_uint in Hof.
  pose proof (radixGo_of_uint (Nat.to_uint n) 0) as Hr. rewrite Hof in Hr.
  pose proof (digits_of_uint (Nat.to_uint n)) as Hd.
  destruct (Nat.to_uint n); [congruence|..]; simpl in *; repeat split; auto; discriminate.
Qed.

Lemma takeWhile_all p s : Str.forallb p s = true → Str.takeWhile p s = s.
Proof.
  induction s as [|c s IH]; [reflexivity|]. simpl. intros H.
  apply andb_prop in H as [-> H]. now rewrite IH.
Qed.

Lemma parseInt_digits s :
  Str.forallb Str.isDigit s = true → s ≠ EmptyString →
  Num.parseInt s = Fin (Num.radixGo 10 0 s) 0.
Proof.
  intros Hd Hne. destruct s as [|c s]; [congruence|].
  simpl in Hd. apply andb_prop in Hd as [Hc Hs].
  unfold Num.parseInt.
  assert (H48 : 48 ≤ nat_of_ascii c ≤ 57).
  { unfold Str.isDigit, Str.between in Hc. apply andb_prop in Hc as [H1 H2].
 apply Nat.leb_le in H1, H2.
    change (nat_of_ascii "0") with 48 in H1. change (nat_of_ascii "9") with 57 in H2.
    lia. }
  assert (Hne' : ∀ x, ¬ (48 ≤ nat_of_ascii x ≤ 57) → c ≠ x) by (intros x Hx ->; auto).
  assert (Hw : Str.trimStart (String c s) = String c s).
  { unfold Str.trimStart. simpl.
    assert (Str.isWhite c = false) as ->; [|reflexivity].
    unfold Str.isWhite, Str.isSpace.
    rewrite bool_decide_eq_false_2 by (apply Hne'; vm_compute; lia).
    apply orb_false_intro; [apply orb_false_intro; [|reflexivity]|].
    - apply andb_false_intro2. apply Nat.leb_gt. lia.
    - apply Nat.eqb_neq. lia. }
  rewrite Hw. unfold Num.parseSign.
  rewrite !bool_decide_eq_false_2 by (apply Hne'; vm_compute; lia).
  assert (Hx : ∀ x, Str.isDigit x = false →
                    Str.startsWith (String "0" (String x "")) (String c s) = false).
  { intros x Hx. unfold Str.startsWith.
    destruct (String.prefix _ _) eqn:E; [|reflexivity].
    apply String.prefix_correct in E. simpl in E.
    destruct s as [|c' s]; [discriminate|]. simpl in E.
    injection E as _ ->. simpl in Hs. now rewrite Hx in Hs. }
  change "0x"%string with (String "0" (String "x" "")).
  change "0X"%string with (String "0" (String "X" "")).
  rewrite !Hx by reflexivity. simpl orb. cbv iota.
  rewrite takeWhile_all by (simpl; now rewrite Hc, Hs).
  reflexivity.
Qed.

Lemma parseInt_natToString n : Num.parseInt (Num.natToString n) = Fin (Z.of_nat n) 0.
Proof.
  destruct (natToString_digits n) as (Hd & Hne & Hr).
  now rewrite parseInt_digits, Hr.
Qed.

(** ** Paths *)

Lemma rev_app_append s : ∀ acc, Str.rev_app s acc = Str.rev s +:+ acc.
Proof.
  unfold Str.rev. induction s as [|c s IH]; intros acc; [reflexivity|].
  simpl. rewrite (IH (String c acc)), (IH (String c EmptyString)).
  now rewrite append_assoc.
Qed.

Lemma rev_app_app s : ∀ acc acc',
  Str.rev_app (Str.rev_app s acc) acc' = Str.rev_app acc (s +:+ acc').
Proof.
  induction s as [|c s IH]; intros acc acc'; simpl; [reflexivity|].
  now rewrite IH.
Qed.

Lemma rev_rev_app s acc : Str.rev (Str.rev_app s acc) = Str.rev acc +:+ s.
Proof.
  unfold Str.rev at 1. now rewrite rev_app_app, append_nil_r, rev_app_append.
Qed.

Lemma splitGo_last sep key : ∀ cur,
  Str.forallb (Str.notChar sep) key = true →
  Str.splitGo sep cur key = [Str.rev cur +:+ key].
Proof.
  induction key as [|c key IH]; intros cur H; simpl.
  - now rewrite append_nil_r.
  - simpl in H. apply andb_prop in H as [Hc H].
    unfold Str.notChar, Str.isChar in Hc. apply negb_true_iff in Hc. rewrite Hc.
    rewrite IH by exact H. unfold Str.rev. simpl.
    now rewrite rev_app_append, append_assoc.
Qed.

(** A path with one more segment. *)
Lemma split_snoc sep a key :
  Str.forallb (Str.notChar sep) key = true →
  Str.split sep (a +:+ String sep key) = Str.split sep a ++ [key].
Proof.
  intros Hkey. unfold Str.split. generalize EmptyString as cur.
  induction a as [|c a IH]; intros cur.
  - rewrite append_nil. simpl. rewrite bool_decide_eq_true_2 by reflexivity.
    now rewrite (splitGo_last _ _ EmptyString Hkey).
  - rewrite append_cons. simpl. case_bool_decide; rewrite IH; reflexivity.
Qed.

Lemma collectVariables_ref s ci args :
  (Session.variablesReference args =? ScopeType_Local) = false →
  Session.collectVariables s ci args =
  match Registry.get (Session.variablesReference args) (Session.variableHandles s) with
  | None => Err TypeError
  | Some ref =>
      tblVar ←R tableAt ci ref;
      keys ←R viewKeys tblVar args;
      forEachR (Session.pushVariable tblVar ref) keys ([], Session.variableHandles s)
  end.
Proof.
  intros Hr. unfold Session.collectVariables, tableAt, viewKeys. rewrite Hr.
  destruct (Registry.get _ _) as [ref|]; [|reflexivity].
  destruct (length (Str.split ":" ref) <? 2); [reflexivity|].
  destruct (Num.parseInt _) as [| |i e]; try reflexivity.
  destruct e; try reflexivity.
  destruct (if (0 <=? i)%Z then _ else _) as [f|]; [|reflexivity].
  destruct (Obj.get _ (locals f)) as [lv|]; [|reflexivity].
  destruct (forEachR Session.getProp _ _) as [tblVar|]; [|reflexivity]. simpl.
  destruct (Session.filter args) as [flt|]; [|reflexivity].
  destruct (Str.eqb flt "named"); [reflexivity|].
  destruct (Str.eqb flt "indexed"); [|reflexivity].
  destruct (Session.start args), (Session.count args); reflexivity.
Qed.

Lemma split_length sep s : 1 ≤ length (Str.split sep s).
Proof.
  unfold Str.split. generalize EmptyString as cur.
  induction s as [|c s IH]; intros cur; simpl; [lia|].
  case_bool_decide; simpl; [lia|apply IH].
Qed.

Lemma split_digits sep s :
  Str.forallb (Str.notChar sep) s = true → Str.split sep s = [s].
Proof. intros H. unfold Str.split. now rewrite splitGo_last. Qed.

Lemma digit_notChar_colon s :
  Str.forallb Str.isDigit s = true → Str.forallb (Str.notChar ":") s = true.
Proof.
  induction s as [|c s IH]; [reflexivity|]. simpl. intros H.
  apply andb_prop in H as [Hc H]. rewrite IH by exact H.
  rewrite andb_true_r. unfold Str.notChar, Str.isChar.
  apply negb_true_iff, bool_decide_eq_false_2. intros ->. discriminate Hc.
Qed.

(** X18: the path of a local.  The frame index, a colon and the name
    of a local lead to the value of that local, provided the name
    holds no colon. *)
Theorem local_path_resolves ci n f nm lv :
  frames ci !! n = Some f → Obj.get nm (locals f) = Some lv →
  Str.forallb (Str.notChar ":") nm = true →
  tableAt ci (Num.natToString n +:+ ":" +:+ nm) = Ok (val lv).
Proof.
  intros Hf Hlv Hnm. unfold tableAt.
  destruct (natToString_digits n) as (Hd & Hne & Hr).
  change (":" +:+ nm) with (String ":" nm).
  rewrite (split_snoc _ _ _ Hnm), (split_digits _ _ (digit_notChar_colon _ Hd)).
  simpl. rewrite parseInt_natToString.
  assert (H0 : (0 <=? Z.of_nat n)%Z = true) by (apply Z.leb_le; lia).
  rewrite H0, Nat2Z.id, Hf, Hlv. reflexivity.
Qed.

Lemma local_path_resolves_witness :
  tableAt (mkCrashInfo "boom"
             [mkFrameInfo (Some "f") None None None
                [("t", mkLocalVar (VObj [("k", VObj [("1", VBool true)])]) "table")]] [])
    (Num.natToString 0 +:+ ":" +:+ "t")
  = Ok (VObj [("k", VObj [("1", VBool true)])]).
Proof.
  apply (local_path_resolves _ 0
           (mkFrameInfo (Some "f") None None None
              [("t", mkLocalVar (VObj [("k", VObj [("1", VBool true)])]) "table")])
           "t" (mkLocalVar (VObj [("k", VObj [("1", VBool true)])]) "table"));
    reflexivity.
Defined.

(** X19: the path of a member.  A path that leads to a table,
    extended by a colon and a key without colon, leads to the member
    of the table under that key. *)
Theorem member_path_resolves ci parent tbl key :
  tableAt ci parent = Ok tbl →
  Str.forallb (Str.notChar ":") key = true →
  tableAt ci (parent +:+ ":" +:+ key) = Session.getProp tbl key.
Proof.
  intros Hp Hkey. unfold tableAt in *.
  change (":" +:+ key) with (String ":" key). rewrite (split_snoc _ _ _ Hkey).
  set (parts := Str.split ":" parent) in *.
  destruct (length parts <? 2) eqn:Hlen; [discriminate|]. apply Nat.ltb_ge in Hlen.
  assert (Hl : (length (parts ++ [key]) <? 2) = false)
    by (apply Nat.ltb_ge; rewrite length_app; lia).
  rewrite Hl.
  destruct parts as [|p0 [|p1 rest]]; simpl in Hlen; try lia.
  cbn -[forEachR Num.parseInt Obj.get] in *.
  destruct (Num.parseInt p0) as [| |i e]; try discriminate.
  destruct e; try discriminate.
  destruct (if (0 <=? i)%Z then _ else _) as [f|]; [|discriminate].
  destruct (Obj.get p1 (locals f)) as [lv|]; [|discriminate].
  rewrite drop_0 in *. rewrite forEachR_app, Hp. simpl.
  now destruct (Session.getProp tbl key).
Qed.

Lemma member_path_resolves_witness :
  tableAt (mkCrashInfo "boom"
             [mkFrameInfo (Some "f") None None None
                [("t", mkLocalVar (VObj [("k", VObj [("1", VBool true)])]) "table")]] [])
    ("0:t" +:+ ":" +:+ "k")
  = Session.getProp (VObj [("k", VObj [("1", VBool true)])]) "k".
Proof.
  apply member_path_resolves; [vm_compute; reflexivity|reflexivity].
Defined.

(** ** Variables requests *)

Lemma wfHandles_initial : wfHandles initialHandles.
Proof. intros k [p Hp]. unfold initialHandles, Registry.new in Hp. simpl in Hp.
  now rewrite lookup_empty in Hp.
Qed.

Lemma collectVariables_issues s ci args r :
  Session.collectVariables s ci args = Ok r →
  ∃ parent, requestPath s args = Some parent ∧
            issuesAll parent (Session.variableHandles s) r.1 r.2.
Proof.
  unfold requestPath.
  destruct (Session.variablesReference args =? ScopeType_Local) eqn:Hr.
  - unfold Session.collectVariables. rewrite Hr.
    destruct (frames ci !! Session.frame s) as [f|]; [|discriminate].
    destruct r as [vs h']. intros H.
    apply handleLocals_issues in H as (ws & -> & _ & Hall). eauto.
  - rewrite (collectVariables_ref _ _ _ Hr).
    destruct (Registry.get _ _) as [ref|]; [|discriminate].
    destruct (tableAt ci ref) as [tblVar|]; simpl; [|discriminate].
    destruct (viewKeys tblVar args) as [keys|]; simpl; [|discriminate].
    destruct r as [vs h']. intros H.
    apply pushVariable_issues in H as (ws & -> & _ & Hall). eauto.
Qed.

(** X17: the handles of a variables request, with the registry as
    the specification describes it.  The request leaves the crash
    information and the frame alone, every handle issued before still
    resolves to its path, and the handles of the variables returned
    are new, distinct, and resolve to the path of the request, a colon
    and the name of the variable. *)
Theorem variables_handles s args s' resp :
  wfHandles (Session.variableHandles s) →
  Session.variablesRequest s args = Ok (s', resp) →
  Session.crashInfo s' = Session.crashInfo s ∧ Session.frame s' = Session.frame s ∧
  wfHandles (Session.variableHandles s') ∧
  (∀ k p, Registry.get k (Session.variableHandles s) = Some p →
          Registry.get k (Session.variableHandles s') = Some p) ∧
  ∀ vs, Session.body resp = Some vs →
    NoDup (omap vref vs) ∧
    ∀ v k, v ∈ vs → vref v = Some k →
      nextHandle (Session.variableHandles s) ≤ k ∧
      ∃ parent, requestPath s args = Some parent ∧
                Registry.get k (Session.variableHandles s')
                = Some (parent +:+ ":" +:+ vname v).
Proof.
  intros Hwf. unfold Session.variablesRequest.
  destruct (Session.crashInfo s) as [ci|] eqn:Hci.
  - destruct (Session.collectVariables s ci args) as [r|] eqn:E; simpl; [|discriminate].
    intros [= <- <-]. simpl.
    apply collectVariables_issues in E as (parent & Hpath & Hall).
    destruct (issuesAll_facts _ _ _ _ Hwf Hall) as (Hwf' & _ & Hkeep & Hnew & Hnd).
    split; [reflexivity|]. split; [reflexivity|]. split; [exact Hwf'|].
    split; [exact Hkeep|]. intros vs [= <-].
    pose proof (sort_perm Session.sortVariables r.1) as Hperm. split.
    + now rewrite Hperm.
    + intros v k Hv Hk. rewrite Hperm in Hv.
      destruct (Hnew v k Hv Hk) as [[Hle _] Hget]. split; [exact Hle|]. eauto.
  - intros [= <- <-]. simpl. repeat split; auto. all: discriminate.
Qed.

Lemma variables_handles_witness :
  ∃ ci s' resp,
    TSM.parse walkDemo = Ok ci ∧
    Session.variablesRequest (Session.mkSession (Some ci) 0 initialHandles)
      (Session.mkVariablesArguments ScopeType_Local None None None) = Ok (s', resp) ∧
    wfHandles (Session.variableHandles s').
Proof.
  assert (H : ∃ ci s' resp,
    TSM.parse walkDemo = Ok ci ∧
    Session.variablesRequest (Session.mkSession (Some ci) 0 initialHandles)
      (Session.mkVariablesArguments ScopeType_Local None None None) = Ok (s', resp)).
  { eexists _, _, _. split; [vm_compute; reflexivity|]. vm_compute. reflexivity. }
  destruct H as (ci & s' & resp & Hci & Hreq). exists ci, s', resp.
  split; [exact Hci|]. split; [exact Hreq|].
  exact (proj1 (proj2 (proj2
    (variables_handles (Session.mkSession (Some ci) 0 initialHandles) _ _ _
       wfHandles_initial Hreq)))).
Defined.





(** ** The stack trace *)

Section StackTraceProperties.
Variable sep : string.
Variable isAbsolute : string → bool.
Variable join : string → string → string.
Variable basename : string → string.
Variable existsSync : string → bool.
Variable cwd : string.

Abbreviation stackFrameAt := (Session.stackFrameAt sep isAbsolute join basename existsSync cwd).
Abbreviation stackTraceRequest :=
  (Session.stackTraceRequest sep isAbsolute join basename existsSync cwd).

Lemma pushStackFrame_acc g l : ∀ acc,
  forEachR (pushStackFrame g) l acc
  = (fs ←R forEachR (pushStackFrame g) l []; Ok (acc ++ fs)).
Proof.
  induction l as [|i l IH]; intros acc; simpl; [now rewrite app_nil_r|].
  unfold pushStackFrame at 1 3. destruct (g i) as [f|]; simpl; [|reflexivity].
  rewrite (IH (acc ++ [f])), (IH [f]).
  destruct (forEachR (pushStackFrame g) l []); simpl; [|reflexivity].
  now rewrite <- app_assoc.
Qed.

Lemma pushStackFrame_all g l :
  (∀ i, i ∈ l → ∃ f, g i = Ok f) →
  ∃ fs, forEachR (pushStackFrame g) l [] = Ok fs ∧ Forall2 (fun i f => g i = Ok f) l fs.
Proof.
  induction l as [|i l IH]; intros Hl.
  - exists []. split; [reflexivity|constructor].
  - destruct (Hl i ltac:(left)) as (f & Hf).
    destruct IH as (fs & Hfs & Hall); [intros j Hj; apply Hl; now right|].
    exists (f :: fs). split; [|now constructor].
    simpl. unfold pushStackFrame at 1. rewrite Hf. simpl.
    rewrite pushStackFrame_acc, Hfs. reflexivity.
Qed.

Lemma stackFrameAt_inside ci i :
  (0 ≤ i < Z.of_nat (length (frames ci)))%Z →
  ∃ f, stackFrameAt ci i = Ok f ∧ Session.frameId f = i ∧
       ∃ info, frames ci !! Z.to_nat i = Some info ∧
         Session.frameColumn f = 1 ∧
         (Session.frameLine f = Fin (-1) 0 ∨
          Num.sign (Session.frameLine f) = Gt ∧ currentline info = Some (Session.frameLine f)) ∧
         (Session.frameSource f = None ↔ Session.presentationHint f = "subtle").
Proof.
  intros Hi. unfold Session.stackFrameAt.
  assert (H0 : (0 <=? i)%Z = true) by (apply Z.leb_le; lia). rewrite H0.
  destruct (lookup_lt_is_Some_2 (frames ci) (Z.to_nat i) ltac:(lia)) as (info & Hinfo).
  rewrite Hinfo. eexists. split; [reflexivity|]. simpl. split; [reflexivity|].
  exists info. split; [reflexivity|]. split; [reflexivity|]. split.
  - destruct (currentline info) as [n|]; [|now left].
    destruct (Num.sign n) eqn:E; auto.
  - destruct (Session.resolvePath _ _ _ _ _); simpl; split; congruence.
Qed.

Lemma frameWindow_inside ci args i :
  (0 ≤ default 0 (Session.startFrame args))%Z →
  i ∈ Session.frameWindow ci args → (0 ≤ i < Z.of_nat (length (frames ci)))%Z.
Proof.
  intros H0 Hi. unfold Session.frameWindow in Hi.
  apply list_elem_of_fmap in Hi as (k & -> & Hk). apply elem_of_seq in Hk. lia.
Qed.

(** The frames of a window that starts at a frame or past the last
    one: the loop reads each index of the window without failure. *)
Lemma stackTrace_frames s ci args :
  Session.crashInfo s = Some ci →
  (0 ≤ default 0 (Session.startFrame args))%Z →
  ∃ fs,
    stackTraceRequest s args
    = Ok (Session.mkStackTraceResponse true
            (Some (Session.mkStackTraceBody fs (length (frames ci))))) ∧
    Forall2 (fun i f => stackFrameAt ci i = Ok f) (Session.frameWindow ci args) fs.
Proof.
  intros Hci H0. unfold Session.stackTraceRequest. rewrite Hci.
  destruct (pushStackFrame_all (stackFrameAt ci) (Session.frameWindow ci args))
    as (fs & Hfs & Hall).
  { intros i Hi. apply (frameWindow_inside _ _ _ H0) in Hi.
    destruct (stackFrameAt_inside ci i Hi) as (f & Hf & _). eauto. }
  exists fs. unfold pushStackFrame in Hfs. rewrite Hfs. simpl. split; [reflexivity|exact Hall].
Qed.

(** X22: the window of a stack trace.  With a start that is not
    negative, [stackTraceRequest] succeeds and reports the number of
    all frames; the frames returned carry the indices of the window,
    each of a frame of the crash information, column 1, a line that is
    -1 or the positive line of the frame, and the hint [subtle]
    exactly when they come without source. *)
Theorem stackTrace_window s ci args :
  Session.crashInfo s = Some ci →
  (0 ≤ default 0 (Session.startFrame args))%Z →
  ∃ fs,
    stackTraceRequest s args
    = Ok (Session.mkStackTraceResponse true
            (Some (Session.mkStackTraceBody fs (length (frames ci))))) ∧
    Session.frameId <$> fs = Session.frameWindow ci args ∧
    Forall (fun f =>
      ∃ info, frames ci !! Z.to_nat (Session.frameId f) = Some info ∧
        Session.frameColumn f = 1 ∧
        (Session.frameLine f = Fin (-1) 0 ∨
         Num.sign (Session.frameLine f) = Gt ∧
         currentline info = Some (Session.frameLine f)) ∧
        (Session.frameSource f = None ↔ Session.presentationHint f = "subtle")) fs.
Proof.
  intros Hci H0. destruct (stackTrace_frames s ci args Hci H0) as (fs & Hreq & Hall).
  exists fs. split; [exact Hreq|].
  assert (Hin : ∀ i, i ∈ Session.frameWindow ci args →
                     (0 ≤ i < Z.of_nat (length (frames ci)))%Z)
    by (intros i; apply frameWindow_inside, H0).
  clear Hreq. induction Hall as [|i f l fs Hf Hall IH].
  - split; constructor.
  - destruct IH as [IH1 IH2]; [intros j Hj; apply Hin; now right|].
    destruct (stackFrameAt_inside ci i (Hin i ltac:(left))) as (f' & Hf' & Hid & Hrest).
    rewrite Hf in Hf'. injection Hf' as <-.
    split; [now rewrite fmap_cons, Hid, IH1|]. constructor; [|exact IH2].
    now rewrite Hid.
Qed.

Lemma frameWindow_split ci st l1 l2 :
  (0 ≤ l1)%Z → (0 ≤ l2)%Z →
  Session.frameWindow ci (Session.mkStackTraceArguments (Some st) (Some (l1 + l2)%Z))
  = Session.frameWindow ci (Session.mkStackTraceArguments (Some st) (Some l1))
    ++ Session.frameWindow ci (Session.mkStackTraceArguments (Some (st + l1)%Z) (Some l2)).
Proof.
  intros H1 H2. unfold Session.frameWindow. simpl.
  set (n := Z.of_nat (length (frames ci))).
  set (a := Z.to_nat (Z.min (st + l1) n - st)).
  set (b := Z.to_nat (Z.min (st + l1 + l2) n - (st + l1))).
  replace (Z.to_nat (Z.min (st + (l1 + l2)) n - st)) with (a + b) by lia.
  rewrite seq_app, map_app. f_equal. simpl.
  destruct (decide (b = 0)) as [->|Hb]; [reflexivity|].
  assert (Ha : Z.of_nat a = l1) by lia.
  replace (seq a b) with (map (Nat.add a) (seq 0 b)).
  - rewrite map_map. apply map_ext. intros k. lia.
  - change (map (Nat.add a) (seq 0 b)) with (Nat.add a <$> seq 0 b).
    rewrite fmap_add_seq. f_equal. lia.
Qed.

(** X23: paging through a stack trace.  A window of [l1 + l2] levels
    is the window of [l1] levels followed by the window of [l2]
    levels that starts where it ends. *)
Theorem stackTrace_pages s st l1 l2 fs n :
  (0 ≤ l1)%Z → (0 ≤ l2)%Z →
  stackTraceRequest s (Session.mkStackTraceArguments (Some st) (Some (l1 + l2)%Z))
  = Ok (Session.mkStackTraceResponse true (Some (Session.mkStackTraceBody fs n))) →
  ∃ fs1 fs2,
    stackTraceRequest s (Session.mkStackTraceArguments (Some st) (Some l1))
    = Ok (Session.mkStackTraceResponse true (Some (Session.mkStackTraceBody fs1 n))) ∧
    stackTraceRequest s (Session.mkStackTraceArguments (Some (st + l1)%Z) (Some l2))
    = Ok (Session.mkStackTraceResponse true (Some (Session.mkStackTraceBody fs2 n))) ∧
    fs = fs1 ++ fs2.
Proof.
  intros H1 H2. unfold Session.stackTraceRequest.
  destruct (Session.crashInfo s) as [ci|]; [|discriminate].
  rewrite (frameWindow_split ci st l1 l2 H1 H2).
  fold (pushStackFrame (stackFrameAt ci)).
  rewrite forEachR_app.
  destruct (forEachR (pushStackFrame (stackFrameAt ci)) (Session.frameWindow ci _) [])
    as [fs1|]; simpl; [|discriminate].
  rewrite pushStackFrame_acc.
  destruct (forEachR (pushStackFrame (stackFrameAt ci)) (Session.frameWindow ci _) [])
    as [fs2|]; simpl; [|discriminate].
  intros [= <- <-]. eauto.
Qed.
End StackTraceProperties.

Lemma stackTrace_pages_witness :
  ∃ ci fs fs1 fs2 n,
    TSM.parse walkDemo = Ok ci ∧
    Session.stackTraceRequest "/" (fun _ => false) (fun a b => a +:+ "/" +:+ b)
      (fun p => p) (fun _ => false) "/addons/TSM"
      (Session.mkSession (Some ci) 0 initialHandles)
      (Session.mkStackTraceArguments (Some 0%Z) (Some (1 + 5)%Z))
    = Ok (Session.mkStackTraceResponse true (Some (Session.mkStackTraceBody fs n))) ∧
    Session.stackTraceRequest "/" (fun _ => false) (fun a b => a +:+ "/" +:+ b)
      (fun p => p) (fun _ => false) "/addons/TSM"
      (Session.mkSession (Some ci) 0 initialHandles)
      (Session.mkStackTraceArguments (Some 0%Z) (Some 1%Z))
    = Ok (Session.mkStackTraceResponse true (Some (Session.mkStackTraceBody fs1 n))) ∧
    Session.stackTraceRequest "/" (fun _ => false) (fun a b => a +:+ "/" +:+ b)
      (fun p => p) (fun _ => false) "/addons/TSM"
      (Session.mkSession (Some ci) 0 initialHandles)
      (Session.mkStackTraceArguments (Some (0 + 1)%Z) (Some 5%Z))
    = Ok (Session.mkStackTraceResponse true (Some (Session.mkStackTraceBody fs2 n))) ∧
    fs = fs1 ++ fs2.
Proof.
  assert (H : ∃ ci fs n,
    TSM.parse walkDemo = Ok ci ∧
    Session.stackTraceRequest "/" (fun _ => false) (fun a b => a +:+ "/" +:+ b)
      (fun p => p) (fun _ => false) "/addons/TSM"
      (Session.mkSession (Some ci) 0 initialHandles)
      (Session.mkStackTraceArguments (Some 0%Z) (Some (1 + 5)%Z))
    = Ok (Session.mkStackTraceResponse true (Some (Session.mkStackTraceBody fs n)))).
  { eexists _, _, _. split; [vm_compute; reflexivity|]. vm_compute. reflexivity. }
  destruct H as (ci & fs & n & Hci & Hreq).
  assert (H1 : (0 ≤ 1)%Z) by lia. assert (H5 : (0 ≤ 5)%Z) by lia.
  destruct (stackTrace_pages "/" (fun _ => false) (fun a b => a +:+ "/" +:+ b)
              (fun p => p) (fun _ => false) "/addons/TSM"
              (Session.mkSession (Some ci) 0 initialHandles) 0 1 5 fs n H1 H5 Hreq)
    as (fs1 & fs2 & Hq1 & Hq2 & Hfs).
  exists ci, fs, fs1, fs2, n. repeat split; assumption.
Defined.

Lemma stackTrace_window_witness :
  ∃ ci fs,
    TSM.parse walkDemo = Ok ci ∧
    Session.stackTraceRequest "/" (fun _ => false) (fun a b => a +:+ "/" +:+ b)
      (fun p => p) (fun p => Str.eqb p "/addons/TSM/Foo.lua") "/addons/TSM"
      (Session.mkSession (Some ci) 0 initialHandles)
      (Session.mkStackTraceArguments (Some 1%Z) None)
    = Ok (Session.mkStackTraceResponse true
            (Some (Session.mkStackTraceBody fs (length (frames ci))))) ∧
    Session.frameId <$> fs
    = Session.frameWindow ci (Session.mkStackTraceArguments (Some 1%Z) None).
Proof.
  assert (H : ∃ ci, TSM.parse walkDemo = Ok ci) by (eexists; vm_compute; reflexivity).
  destruct H as (ci & Hci).
  destruct (stackTrace_window "/" (fun _ => false) (fun a b => a +:+ "/" +:+ b)
              (fun p => p) (fun p => Str.eqb p "/addons/TSM/Foo.lua") "/addons/TSM"
              (Session.mkSession (Some ci) 0 initialHandles) ci
              (Session.mkStackTraceArguments (Some 1%Z) None) eq_refl
              ltac:(simpl; lia)) as (fs & Hreq & Hids & _).
  exists ci, fs. repeat split; assumption.
Defined.

(** ** A session on a parsed file *)

Lemma tsm_parse_complete lines ci :
  TSM.parse lines = Ok ci →
  errMsg ci ≠ EmptyString ∧ frames ci ≠ [] ∧
  Forall (fun f => typedLocals (locals f)) (frames ci).
Proof.
  unfold TSM.parse.
  destruct (TSM.createTree _) as [t|] eqn:Et; simpl; [|discriminate]. intros H.
  pose proof (tsm_getCrashInfo_complete t) as Hc. rewrite H in Hc. destruct Hc as [Hm Hf].
  split; [exact Hm|]. split; [exact Hf|]. eapply tsm_frames_typed; eauto.
Qed.

Section SessionWalk.
Variable sep : string.
Variable isAbsolute : string → bool.
Variable join : string → string → string.
Variable basename : string → string.
Variable existsSync : string → bool.
Variable cwd : string.

(** X25: a walk through a session.  In a session that holds what the
    TSM parser makes of the lines of a file, the stack trace request
    without arguments succeeds, reports at least one frame and returns
    the first 100 of them, and the locals of every frame it returns
    can be listed through [scopesRequest] and [variablesRequest].
    The frames are taken without a local named [__proto__]: the
    assignment of such a local changes the prototype of the locals of
    the code, which the objects of this model do not have. *)
Theorem session_walk fileText ci s :
  TSM.parse (readLines fileText) = Ok ci →
  Session.crashInfo s = Some ci →
  Forall (fun f => Obj.get "__proto__" (locals f) = None) (frames ci) →
  ∃ fs n,
    Session.stackTraceRequest sep isAbsolute join basename existsSync cwd s
      (Session.mkStackTraceArguments None None)
    = Ok (Session.mkStackTraceResponse true (Some (Session.mkStackTraceBody fs n))) ∧
    1 ≤ n ∧ length fs = Nat.min n 100 ∧
    Forall (fun f =>
      ∃ s2 vs,
        Session.variablesRequest
          (Session.scopesRequest s (Z.to_nat (Session.frameId f))).1
          (Session.mkVariablesArguments ScopeType_Local None None None)
        = Ok (s2, Session.mkVariablesResponse true (Some vs))) fs.
Proof.
  intros E Hs _.
  destruct (tsm_parse_complete _ _ E) as (_ & Hf & Hty).
  assert (H0 : (0 ≤ default 0 (Session.startFrame (Session.mkStackTraceArguments None None)))%Z)
    by (simpl; lia).
  destruct (stackTrace_frames sep isAbsolute join basename existsSync cwd s
              ci (Session.mkStackTraceArguments None None) Hs H0)
    as (fs & Hreq & Hall).
  exists fs, (length (frames ci)). split; [exact Hreq|].
  split; [destruct (frames ci); [congruence|simpl; lia]|]. split.
  - rewrite <- (Forall2_length _ _ _ Hall). unfold Session.frameWindow.
    rewrite length_map, length_seq. simpl. unfold Session.maxStackCount. lia.
  - pose proof (proj1 (Forall_forall _ _) Hty) as Hty'.
    apply Forall_forall. intros f Hfin.
    apply list_elem_of_lookup in Hfin as (k & Hk).
    destruct (Forall2_lookup_r _ _ _ _ _ Hall Hk) as (i & Hi & Hif).
    apply list_elem_of_lookup_2, (frameWindow_inside _ _ _ H0) in Hi.
    destruct (stackFrameAt_inside sep isAbsolute join basename existsSync cwd ci i Hi)
      as (f' & Hf' & Hid & info & Hinfo & _).
    rewrite Hif in Hf'. injection Hf' as <-. rewrite <- Hid in Hinfo.
    destruct (locals_listing ci
                (Session.scopesRequest s (Z.to_nat (Session.frameId f))).1
                info None None None Hs Hinfo) as (s2 & vs & Hv & _); [|eauto].
    apply Hty'. eapply list_elem_of_lookup_2; eauto.
Qed.
End SessionWalk.

Lemma session_walk_witness :
  ∃ ci fs n,
    TSM.parse (readLines walkText) = Ok ci ∧
    Session.stackTraceRequest "/" (fun _ => true) (fun a b => a +:+ "/" +:+ b)
      (fun p => p) (fun _ => false) "/addons" (Session.mkSession (Some ci) 0 initialHandles)
      (Session.mkStackTraceArguments None None)
    = Ok (Session.mkStackTraceResponse true (Some (Session.mkStackTraceBody fs n))) ∧
    1 ≤ n.
Proof.
  assert (H : ∃ ci, TSM.parse (readLines walkText) = Ok ci ∧
                    Forall (fun f => Obj.get "__proto__" (locals f) = None) (frames ci)).
  { eexists. split; [vm_compute; reflexivity|]. repeat constructor. }
  destruct H as (ci & H & Hp).
  destruct (session_walk "/" (fun _ => true) (fun a b => a +:+ "/" +:+ b)
              (fun p => p) (fun _ => false) "/addons"
              _ ci (Session.mkSession (Some ci) 0 initialHandles) H eq_refl Hp)
    as (fs & n & Hreq & Hn & _).
  exists ci, fs, n. repeat split; assumption.
Defined.

(** ** The filters of the variables view *)

Lemma digitsGo_of_uint_acc d : ∀ acc,
  Num.digitsGo (Z.pos acc) (DecimalString.NilEmpty.string_of_uint d)
  = Z.pos (Pos.of_uint_acc d acc).
Proof.
  induction d; intros acc; simpl; [reflexivity|..]; rewrite <- IHd; f_equal;
    match goal with
    | |- context [Num.digitVal ?c] =>
        let v := eval vm_compute in (Num.digitVal c) in
        change (Num.digitVal c) with v
    end; lia.
Qed.

Lemma digitsGo_of_uint d :
  Num.digitsGo 0 (DecimalString.NilEmpty.string_of_uint d) = Z.of_N (Pos.of_uint d).
Proof.
  induction d; simpl; [reflexivity|exact IHd|..];
    match goal with
    | |- context [Num.digitVal ?c] =>
        let v := eval vm_compute in (Num.digitVal c) in
        change (Num.digitVal c) with v
    end; simpl Z.add; apply digitsGo_of_uint_acc.
Qed.

Lemma posToString_digits z :
  (0 ≤ z)%Z →
  Str.forallb Str.isDigit (Num.posToString z) = true ∧ Num.posToString z ≠ EmptyString ∧
  Num.digitsVal (Num.posToString z) = z.
Proof.
  intros Hz. unfold Num.posToString, Num.digitsVal.
  pose proof (DecimalN.Unsigned.of_to (Z.to_N z)) as Hof. unfold N.of_uint in Hof.
  pose proof (digitsGo_of_uint (N.to_uint (Z.to_N z))) as Hr. rewrite Hof in Hr.
  rewrite Z2N.id in Hr by exact Hz.
  pose proof (digits_of_uint (N.to_uint (Z.to_N z))) as Hd.
  assert (Hn : N.to_uint (Z.to_N z) ≠ Decimal.Nil).
  { destruct (Z.to_N z); [discriminate|apply DecimalPos.Unsigned.to_uint_nonnil]. }
  destruct (N.to_uint (Z.to_N z)); [congruence|..]; simpl in *; repeat split; auto;
    discriminate.
Qed.

Lemma digit_code c : Str.isDigit c = true → 48 ≤ nat_of_ascii c ≤ 57.
Proof.
  unfold Str.isDigit, Str.between. intros Hc. apply andb_prop in Hc as [H1 H2].
  apply Nat.leb_le in H1, H2.
  change (nat_of_ascii "0") with 48 in H1. change (nat_of_ascii "9") with 57 in H2. lia.
Qed.

Lemma digit_notWhite c : Str.isDigit c = true → Str.isWhite c = false.
Proof.
  intros Hc. apply digit_code in Hc. unfold Str.isWhite, Str.isSpace.
  rewrite bool_decide_eq_false_2 by (intros ->; vm_compute in Hc; lia).
  apply orb_false_intro; [apply orb_false_intro; [|reflexivity]|].
  - apply andb_false_intro2. apply Nat.leb_gt. lia.
  - apply Nat.eqb_neq. lia.
Qed.

Lemma dropWhile_none p s :
  match s with EmptyString => True | String c _ => p c = false end →
  Str.dropWhile p s = s.
Proof. destruct s as [|c s]; [reflexivity|]. simpl. now intros ->. Qed.

Lemma dropWhile_all p s : Str.forallb p s = true → Str.dropWhile p s = EmptyString.
Proof.
  induction s as [|c s IH]; [reflexivity|]. simpl. intros H.
  apply andb_prop in H as [-> H]. now apply IH.
Qed.

Lemma trim_digits s : Str.forallb Str.isDigit s = true → Str.trim s = s.
Proof.
  intros Hd. unfold Str.trim, Str.trimStart, Str.trimEnd.
  rewrite (dropWhile_none _ s).
  - assert (Hr : Str.forallb Str.isDigit (Str.rev s) = true).
    { unfold Str.rev. rewrite forallb_rev_app, Hd. reflexivity. }
    rewrite (dropWhile_none _ (Str.rev s)).
    + unfold Str.rev at 2. now rewrite rev_rev_app.
    + destruct (Str.rev s) as [|c r]; [exact I|]. simpl in Hr.
      apply andb_prop in Hr as [Hc _]. now apply digit_notWhite.
  - destruct s as [|c r]; [exact I|]. simpl in Hd.
    apply andb_prop in Hd as [Hc _]. now apply digit_notWhite.
Qed.

Lemma Number_digits s :
  Str.forallb Str.isDigit s = true → s ≠ EmptyString →
  Num.Number s = Fin (Num.digitsVal s) 0.
Proof.
  intros Hd Hne. unfold Num.Number. rewrite (trim_digits s Hd).
  unfold Str.eqb at 1. rewrite bool_decide_eq_false_2 by exact Hne.
  assert (Hx : ∀ x, Str.isDigit x = false →
                    Str.startsWith (String "0" (String x EmptyString)) s = false).
  { intros x Hx. unfold Str.startsWith.
    destruct (String.prefix _ _) eqn:E; [|reflexivity].
    apply String.prefix_correct in E. simpl in E.
    destruct s as [|c [|c' s]]; try discriminate. simpl in E.
    injection E as _ ->. simpl in Hd. rewrite Hx in Hd.
    now rewrite andb_false_r in Hd. }
  change "0x"%string with (String "0" (String "x" EmptyString)).
  change "0X"%string with (String "0" (String "X" EmptyString)).
  change "0o"%string with (String "0" (String "o" EmptyString)).
  change "0O"%string with (String "0" (String "O" EmptyString)).
  change "0b"%string with (String "0" (String "b" EmptyString)).
  change "0B"%string with (String "0" (String "B" EmptyString)).
  rewrite !Hx by reflexivity. simpl orb. cbv iota.
  unfold Num.decimalPrefix.
  assert (Hs : Num.parseSign s = (false, s)).
  { destruct s as [|c r]; [congruence|]. simpl in Hd. apply andb_prop in Hd as [Hc _].
    apply digit_code in Hc. unfold Num.parseSign.
    now rewrite !bool_decide_eq_false_2 by (intros ->; vm_compute in Hc; lia). }
  rewrite Hs.
  assert (Hi : Str.startsWith "Infinity" s = false).
  { unfold Str.startsWith. destruct (String.prefix _ _) eqn:E; [|reflexivity].
    apply String.prefix_correct in E. destruct s as [|c r]; [discriminate|].
    simpl in E. injection E as -> _. simpl in Hd. discriminate. }
  rewrite Hi, (takeWhile_all _ _ Hd), (dropWhile_all _ _ Hd).
  unfold Str.eqb at 1. rewrite bool_decide_eq_false_2 by exact Hne.
  simpl. now rewrite append_nil_r.
Qed.

Lemma Number_posToString z : (0 ≤ z)%Z → Num.Number (Num.posToString z) = Fin z 0.
Proof.
  intros Hz. destruct (posToString_digits z Hz) as (Hd & Hne & Hv).
  now rewrite Number_digits, Hv.
Qed.

(** X26: the filters of the variables view.  Of a table listed with
    the filter [named], no variable has a name that reads as an
    integer; listed with the filter [indexed], every variable is named
    by an integer of the window, which starts at 1 at the least.  So
    with either filter a key that reads as an integer below 1 is never
    shown. *)
Theorem filtered_names s ci args s' vs :
  Session.crashInfo s = Some ci →
  (Session.variablesReference args =? ScopeType_Local) = false →
  Session.variablesRequest s args = Ok (s', Session.mkVariablesResponse true (Some vs)) →
  (Session.filter args = Some "named" →
   Forall (fun v => Num.isInteger (Num.Number (vname v)) = false) vs) ∧
  (Session.filter args = Some "indexed" →
   ∃ st cnt, Session.start args = Some st ∧ Session.count args = Some cnt ∧
     Forall (fun v => ∃ i, (Z.max st 1 ≤ i ≤ st + cnt - 1)%Z ∧
                           vname v = Num.posToString i ∧
                           Num.Number (vname v) = Fin i 0) vs) ∧
  (Session.filter args ≠ None →
   Forall (fun v => ∀ m e, Num.Number (vname v) = Fin m e →
                           Num.isInteger (Fin m e) = true → (1 ≤ m)%Z) vs).
Proof.
  intros Hci Hr. unfold Session.variablesRequest. rewrite Hci.
  rewrite (collectVariables_ref _ _ _ Hr).
  destruct (Registry.get _ _) as [ref|]; [|discriminate].
  destruct (tableAt ci ref) as [tblVar|]; [|discriminate]. simpl.
  destruct (viewKeys tblVar args) as [keys|] eqn:Hkeys; [|discriminate]. simpl.
  destruct (forEachR _ keys _) as [[ws h']|] eqn:Hpush; [|discriminate]. simpl.
  intros [= _ <-]. apply pushVariable_issues in Hpush as (ws' & -> & Hnames & _).
  simpl. pose proof (sort_perm Session.sortVariables ws') as Hperm.
  assert (Hin : ∀ v, v ∈ Session.sort Session.sortVariables ws' → vname v ∈ keys).
  { intros v Hv. rewrite Hperm in Hv. rewrite <- Hnames. now apply list_elem_of_fmap_2. }
  assert (Hnamed : Session.filter args = Some "named" →
            Forall (fun v => Num.isInteger (Num.Number (vname v)) = false)
              (Session.sort Session.sortVariables ws')).
  { intros Hf. apply Forall_forall. intros v Hv. apply Hin in Hv.
    unfold viewKeys in Hkeys. rewrite Hf in Hkeys. simpl in Hkeys.
    injection Hkeys as <-. apply list_elem_of_In, filter_In in Hv as [_ Hv].
    now apply negb_true_iff in Hv. }
  assert (Hindexed : Session.filter args = Some "indexed" →
            ∃ st cnt, Session.start args = Some st ∧ Session.count args = Some cnt ∧
              Forall (fun v => ∃ i, (Z.max st 1 ≤ i ≤ st + cnt - 1)%Z ∧
                                    vname v = Num.posToString i ∧
                                    Num.Number (vname v) = Fin i 0)
                (Session.sort Session.sortVariables ws')).
  { intros Hf. unfold viewKeys in Hkeys. rewrite Hf in Hkeys. simpl in Hkeys.
    destruct (Session.start args) as [st|]; [|discriminate].
    destruct (Session.count args) as [cnt|]; [|discriminate].
    injection Hkeys as <-. exists st, cnt. split; [reflexivity|]. split; [reflexivity|].
    apply Forall_forall. intros v Hv. apply Hin in Hv.
    apply list_elem_of_fmap in Hv as (k & Hk & Hv). apply elem_of_seq in Hv.
    exists (Z.max st 1 + Z.of_nat k)%Z. split; [lia|]. split; [exact Hk|].
    rewrite Hk. apply Number_posToString. lia. }
  split; [exact Hnamed|]. split; [exact Hindexed|].
  intros Hf. destruct (Session.filter args) as [flt|] eqn:Hflt; [|congruence].
  unfold viewKeys in Hkeys. rewrite Hflt in Hkeys.
  unfold Str.eqb in Hkeys. repeat case_bool_decide; try discriminate; subst flt.
  - specialize (Hnamed eq_refl). eapply Forall_impl; [exact Hnamed|].
    intros v Hv m e Hm Hint. cbv beta in Hv. rewrite Hm in Hv.
    change (Num.isInteger (Fin m e) = true) in Hint. congruence.
  - destruct (Hindexed eq_refl) as (st & cnt & _ & _ & Hall).
    eapply Forall_impl; [exact Hall|].
    intros v (i & Hi & _ & Hn) m e Hm _. rewrite Hn in Hm. injection Hm as <- _. lia.
Qed.

Lemma filtered_names_witness :
  ∃ s' vs,
    Session.variablesRequest
      (Session.mkSession
         (Some (mkCrashInfo "boom"
                  [mkFrameInfo (Some "f") None None None
                     [("t", mkLocalVar (VObj [("0", VStr "a"); ("1", VStr "b");
                                              ("k", VStr "c")]) "table")]]
                  []))
         0 (Registry.create "0:t" initialHandles).2)
      (Session.mkVariablesArguments 2 (Some "named") None None)
    = Ok (s', Session.mkVariablesResponse true (Some vs)) ∧
    Forall (fun v => ∀ m e, Num.Number (vname v) = Fin m e →
                            Num.isInteger (Fin m e) = true → (1 ≤ m)%Z) vs.
Proof.
  assert (H : ∃ s' vs,
    Session.variablesRequest
      (Session.mkSession
         (Some (mkCrashInfo "boom"
                  [mkFrameInfo (Some "f") None None None
                     [("t", mkLocalVar (VObj [("0", VStr "a"); ("1", VStr "b");
                                              ("k", VStr "c")]) "table")]]
                  []))
         0 (Registry.create "0:t" initialHandles).2)
      (Session.mkVariablesArguments 2 (Some "named") None None)
    = Ok (s', Session.mkVariablesResponse true (Some vs))).
  { eexists _, _. vm_compute. reflexivity. }
  destruct H as (s' & vs & H). exists s', vs. split; [exact H|].
  eapply (fun a b => proj2 (proj2 (filtered_names _ _ _ _ _ a b H)));
    [reflexivity|reflexivity|discriminate].
Defined.

(** ** The failures of the TSM parser *)








